(** * N-gram drafting engine of common/ngram-map.cpp

    A shallow embedding of [common_ngram_simple_draft] (the pattern-replay
    drafter), [common_ngram_map_draft] (the statistical n-gram cache),
    [common_ngram_map_accept] (the accept-feedback channel) and
    [common_tokens_to_str] (the printing of the logged values), followed by
    the properties of the design document that concern them and by further
    properties of the code.

    Conventions of the embedding:
    - a [size_t] value is a [Z]; every [size_t] expression of the source
      built from additions and subtractions is wrapped with [size_t]
      (reduction modulo 2^64, once for the whole expression, reduction
      commuting with both operations);
    - [inp[i]] on a [std::vector] is [tok inp i] in the option monad: an
      index outside the vector has no defined behaviour and yields [None],
      as does a loop of the source that cannot end;
    - objects mutated through references ([map], [curr_key], [draft]) are
      passed in and returned. *)

From Stdlib Require Import ZArith Lia Bool.
From Stdlib Require DecimalString.
From stdpp Require Import base option list strings.

Open Scope Z_scope.

(** ** Machine integers and the token history *)

Abbreviation llama_token := Z (only parsing).
Abbreviation llama_tokens := (list Z) (only parsing).

Definition SIZE_MOD : Z := 18446744073709551616.
Definition SIZE_MAX : Z := SIZE_MOD - 1.

(** Result of an arithmetic operation carried out in [size_t]. *)
Definition size_t (x : Z) : Z := x mod SIZE_MOD.

(** Conversions [(uint16_t) x] and arithmetic carried out in [uint32_t]. *)
Definition uint16_t (x : Z) : Z := x mod 65536.
Definition uint32_t (x : Z) : Z := x mod 4294967296.

(** [v.size()] *)
Definition size {A} (v : list A) : Z := Z.of_nat (length v).

(** [inp[i]] *)
Definition tok (inp : llama_tokens) (i : Z) : option llama_token :=
  if i <? 0 then None else inp !! Z.to_nat i.

Notation "x <- e ;; k" := (match e with Some x => k | None => None end)
  (at level 100, e at next level, right associativity, only parsing).
Notation "' ( x , y ) <- e ;; k" :=
  (match e with Some (x, y) => k | None => None end)
  (at level 100, e at next level, right associativity, only parsing).

(** The comparison loop that occurs five times in the source:
<<
    bool match = true;
    for (size_t k = 0; k < len; ++k) {
        if (a[ia + k] != b[ib + k]) { match = false; break; }
    }
>>
    [k] is the loop variable, [cnt] the number of iterations left. *)
Fixpoint ngram_eq_from (a : llama_tokens) (ia : Z) (b : llama_tokens) (ib : Z)
    (k : Z) (cnt : nat) : option bool :=
  match cnt with
  | O => Some true
  | S cnt' =>
      x <- tok a (size_t (ia + k)) ;;
      y <- tok b (size_t (ib + k)) ;;
      if negb (x =? y) then Some false
      else ngram_eq_from a ia b ib (k + 1) cnt'
  end.

Definition ngram_eq (a : llama_tokens) (ia : Z) (b : llama_tokens) (ib : Z)
    (len : Z) : option bool :=
  ngram_eq_from a ia b ib 0 (Z.to_nat len).

(** The copy loop [for (...; ++j) out.push_back(inp[base + j])], [j] the loop
    variable and [cnt] the number of iterations left. *)
Fixpoint copy_loop (inp : llama_tokens) (base : Z) (j : Z) (cnt : nat)
    (out : llama_tokens) : option llama_tokens :=
  match cnt with
  | O => Some out
  | S cnt' =>
      t <- tok inp (size_t (base + j)) ;;
      copy_loop inp base (j + 1) cnt' (out ++ [t])
  end.

(** The backward search of both drafters:
<<
    size_t match_pos = 0;
    for (size_t j = start; j > 0; --j) {
        <compare len tokens at j with the pattern>
        if (match) { match_pos = j; break; }
    }
>>
    with the recursion on [j] itself. *)
Fixpoint search_back (inp pattern : llama_tokens) (len : Z) (j : nat)
    : option Z :=
  match j with
  | O => Some 0
  | S j' =>
      mt <- ngram_eq inp (Z.of_nat j) pattern 0 len ;;
      if mt then Some (Z.of_nat j) else search_back inp pattern len j'
  end.

(** ** Printing of a part of the history *)

(** [oss << t] for a token, an [int]: its decimal digits, after a minus
    sign when it is negative. *)
Definition token_to_str (t : llama_token) : string :=
  DecimalString.NilZero.string_of_int (Z.to_int t).

(** The loop of [common_tokens_to_str]: [i] is the loop variable, [cnt] the
    number of iterations left and [oss] the text written so far. *)
Fixpoint tokens_to_str_loop (inp : llama_tokens) (start : Z) (i : Z)
    (cnt : nat) (oss : string) : option string :=
  match cnt with
  | O => Some oss
  | S cnt' =>
      let oss := if 0 <? i then oss +:+ ", " else oss in
      t <- tok inp (size_t (start + i)) ;;
      tokens_to_str_loop inp start (i + 1) cnt' (oss +:+ token_to_str t)
  end.

Definition common_tokens_to_str (inp : llama_tokens) (start length : Z)
    : option string :=
  oss <- tokens_to_str_loop inp start 0 (Z.to_nat length) "[" ;;
  Some (oss +:+ "]").

(** ** n-gram simple: the pattern-replay drafter *)

Module NgramSimple.

(** Modelled from the spec: the header ngram-map.h that declares the two
    structs is missing; the fields are the ones the function uses, the three
    configuration values being [uint16_t] numbers. *)
Record common_ngram_simple_config := {
  size_ngram : Z;
  size_mgram : Z;
  check_rate : Z
}.

Record common_ngram_simple_state := {
  config : common_ngram_simple_config;
  idx_last_check : Z
}.

Definition set_idx_last_check (state : common_ngram_simple_state) (i : Z) :=
  {| config := config state; idx_last_check := i |}.

Definition common_ngram_simple_draft (state : common_ngram_simple_state)
    (tokens : llama_tokens) (sampled : llama_token)
    : option (common_ngram_simple_state * llama_tokens) :=
  let cur_len := size tokens in
  if size_t (idx_last_check state + check_rate (config state)) >? cur_len
  then Some (state, [])
  else
    let n_draft_min := size_ngram (config state) in
    let n_draft_max := size_mgram (config state) in
    if cur_len <=? size_t (n_draft_min + n_draft_max + 1)
    then Some (state, [])
    else
      let j0 := size_t (cur_len - n_draft_min + 1) in
      pattern0 <- copy_loop tokens 0 j0 (Z.to_nat (cur_len - j0)) [] ;;
      let pattern := pattern0 ++ [sampled] in
      let state := set_idx_last_check state cur_len in
      match_pos <- search_back tokens pattern (size pattern)
                     (Z.to_nat (size_t (cur_len - n_draft_min - 1))) ;;
      if match_pos =? 0 then Some (state, [])
      else
        let copy_max :=
          Z.min n_draft_max
                (size_t (cur_len - (match_pos + n_draft_min))) in
        if copy_max <? n_draft_min then Some (state, [])
        else
          draft_tokens <- copy_loop tokens (match_pos + n_draft_min)
                            0 (Z.to_nat copy_max) [] ;;
          Some (state, draft_tokens).

End NgramSimple.

(** ** n-gram map: the statistical cache *)

Module NgramMap.

(** maximum number of counted values of a ngram map value. *)
Definition COMMON_NGRAM_MAX_VALUE_COUNT : Z := 16380.

(** Modelled from the spec: the header ngram-map.h is missing, and with it
    the macro COMMON_NGRAM_MAX_VALUES and the three structs. The capacity of
    the value array is the 4 of the design document (the log line of the
    source prints the slots 0 to 3). The fields are the ones the functions
    use: [value_idx], [key_idx], [stat_idx], [idx_last_check] and
    [last_draft_key_idx] hold [size_t] numbers, the counters [value_num] and
    [key_num] and the configuration hold [uint16_t] numbers, [n_accepted]
    holds the number assigned to it, and a value slot that was never
    assigned has [value_idx = 0]. *)
Definition COMMON_NGRAM_MAX_VALUES : nat := 4.

Record common_ngram_map_value := {
  value_idx : Z;
  value_num : Z;
  n_accepted : Z
}.

Record common_ngram_map_key := {
  key_idx : Z;
  stat_idx : Z;
  key_num : Z;
  values : list common_ngram_map_value
}.

Record common_ngram_map := {
  size_key : Z;
  size_value : Z;
  key_only : bool;
  keys : list common_ngram_map_key;
  check_rate : Z;
  min_hits : Z;
  last_draft_created : bool;
  last_draft_key_idx : Z;
  last_draft_value_idx : Z;
  idx_last_check : Z
}.

(** Assignments to one field. *)
Definition set_value_num (v : common_ngram_map_value) (x : Z) :=
  {| value_idx := value_idx v; value_num := x; n_accepted := n_accepted v |}.
Definition set_n_accepted (v : common_ngram_map_value) (x : Z) :=
  {| value_idx := value_idx v; value_num := value_num v; n_accepted := x |}.

Definition set_stat_idx (k : common_ngram_map_key) (x : Z) :=
  {| key_idx := key_idx k; stat_idx := x; key_num := key_num k;
     values := values k |}.
Definition set_key_num (k : common_ngram_map_key) (x : Z) :=
  {| key_idx := key_idx k; stat_idx := stat_idx k; key_num := x;
     values := values k |}.
Definition set_values (k : common_ngram_map_key)
    (vs : list common_ngram_map_value) :=
  {| key_idx := key_idx k; stat_idx := stat_idx k; key_num := key_num k;
     values := vs |}.

Definition set_keys (map : common_ngram_map)
    (ks : list common_ngram_map_key) :=
  {| size_key := size_key map; size_value := size_value map;
     key_only := key_only map; keys := ks;
     check_rate := check_rate map; min_hits := min_hits map;
     last_draft_created := last_draft_created map;
     last_draft_key_idx := last_draft_key_idx map;
     last_draft_value_idx := last_draft_value_idx map;
     idx_last_check := idx_last_check map |}.
Definition set_idx_last_check (map : common_ngram_map) (x : Z) :=
  {| size_key := size_key map; size_value := size_value map;
     key_only := key_only map; keys := keys map;
     check_rate := check_rate map; min_hits := min_hits map;
     last_draft_created := last_draft_created map;
     last_draft_key_idx := last_draft_key_idx map;
     last_draft_value_idx := last_draft_value_idx map;
     idx_last_check := x |}.
(** The three [last_draft_*] fields, always assigned together. *)
Definition set_last_draft (map : common_ngram_map)
    (created : bool) (kidx vidx : Z) :=
  {| size_key := size_key map; size_value := size_value map;
     key_only := key_only map; keys := keys map;
     check_rate := check_rate map; min_hits := min_hits map;
     last_draft_created := created;
     last_draft_key_idx := kidx;
     last_draft_value_idx := vidx;
     idx_last_check := idx_last_check map |}.

(** Modelled from the spec: the constructor of [common_ngram_map], in the
    missing header ngram-map.h. A cache starts with its configuration,
    without keys, with the throttle cursor at 0 and with no draft
    recorded. *)
Definition common_ngram_map_init (sz_key sz_value : Z) (only_keys : bool)
    (rate hits : Z) : common_ngram_map :=
  {| size_key := sz_key; size_value := sz_value; key_only := only_keys;
     keys := []; check_rate := rate; min_hits := hits;
     last_draft_created := false; last_draft_key_idx := 0;
     last_draft_value_idx := 0; idx_last_check := 0 |}.

(** [std::min((int) x + 1, (int) COMMON_NGRAM_MAX_VALUE_COUNT)] converted
    to [uint16_t]. *)
Definition count_up (x : Z) : Z :=
  uint16_t (Z.min (x + 1) COMMON_NGRAM_MAX_VALUE_COUNT).

(** The key created when no key of the map has the tokens searched for. *)
Definition new_key (match_pos m : Z) : common_ngram_map_key :=
  {| key_idx := match_pos; stat_idx := 0; key_num := 0;
     values := replicate COMMON_NGRAM_MAX_VALUES
                 {| value_idx := 0; value_num := 0; n_accepted := m |} |}.

(** [for (size_t i = 0; i < map.keys.size(); ++i)]: the offset of the first
    key whose [n] tokens at [key_idx] are the key tokens, [map.keys.size()]
    when there is none; [ks] are the keys from offset [i] on. *)
Fixpoint find_key (inp key_tokens : llama_tokens) (n : Z)
    (ks : list common_ngram_map_key) (i : Z) : option Z :=
  match ks with
  | [] => Some i
  | k :: ks' =>
      mt <- ngram_eq inp (key_idx k) key_tokens 0 n ;;
      if mt then Some i else find_key inp key_tokens n ks' (i + 1)
  end.

(** [for (int v = 0; v < COMMON_NGRAM_MAX_VALUES; ++v)] of the statistics:
    looks for the slot of the m-gram at [idx_begin_value_key], claiming the
    first empty slot met. Returns the values and [idx_value] (-1 when no
    slot was found); [v] is the loop variable, [cnt] the iterations left. *)
Fixpoint value_loop (inp : llama_tokens) (m : Z) (idx_begin_value_key : Z)
    (vals : list common_ngram_map_value) (v : nat) (cnt : nat)
    : option (list common_ngram_map_value * Z) :=
  match cnt with
  | O => Some (vals, -1)
  | S cnt' =>
      val <- vals !! v ;;
      let idx_begin_value_v := value_idx val in
      if idx_begin_value_v =? 0 then
        Some (<[v := {| value_idx := idx_begin_value_key; value_num := 0;
                        n_accepted := m |}]> vals, Z.of_nat v)
      else
        mt <- ngram_eq inp idx_begin_value_key inp idx_begin_value_v m ;;
        if mt then Some (vals, Z.of_nat v)
        else value_loop inp m idx_begin_value_key vals (S v) cnt'
  end.

(** The body of the statistics loop at history position [i]. *)
Definition stat_step (inp key_tokens : llama_tokens) (n m : Z) (i : Z)
    (curr_key : common_ngram_map_key) : option common_ngram_map_key :=
  match_key <- ngram_eq inp i key_tokens 0 n ;;
  if negb match_key then Some curr_key
  else
    let idx_begin_value_key := size_t (i + n) in
    '(vals, idx_value) <- value_loop inp m idx_begin_value_key
                            (values curr_key) 0 COMMON_NGRAM_MAX_VALUES ;;
    if 0 <=? idx_value then
      val <- vals !! Z.to_nat idx_value ;;
      Some (set_values curr_key
              (<[Z.to_nat idx_value :=
                   set_value_num val (count_up (value_num val))]> vals))
    else Some (set_values curr_key vals).

(** [for (size_t i = curr_key.stat_idx; i <= match_pos; ++i)], [cnt] the
    number of iterations left. *)
Fixpoint stat_loop (inp key_tokens : llama_tokens) (n m : Z) (i : Z)
    (cnt : nat) (curr_key : common_ngram_map_key)
    : option common_ngram_map_key :=
  match cnt with
  | O => Some curr_key
  | S cnt' =>
      curr_key' <- stat_step inp key_tokens n m i curr_key ;;
      stat_loop inp key_tokens n m (i + 1) cnt' curr_key'
  end.

(** The statistics of [curr_key] brought up to [match_pos]. The condition
    [i <= match_pos] cannot fail when [match_pos] is the largest [size_t]:
    the loop does not end. *)
Definition update_stats (inp key_tokens : llama_tokens) (n m : Z)
    (match_pos : Z) (curr_key : common_ngram_map_key)
    : option common_ngram_map_key :=
  if match_pos =? SIZE_MAX then None
  else
    curr_key' <- stat_loop inp key_tokens n m (stat_idx curr_key)
                   (Z.to_nat (match_pos - stat_idx curr_key + 1)) curr_key ;;
    Some (set_stat_idx curr_key' match_pos).

(** Selection of the most frequent value:
<<
    uint16_t max_occur = 0; int slot_max = 0;
    for (int v = 0; v < COMMON_NGRAM_MAX_VALUES; ++v) { ... }
>>
    Returns [(max_occur, slot_max)]. *)
Fixpoint max_loop (vals : list common_ngram_map_value) (v : nat) (cnt : nat)
    (max_occur slot_max : Z) : option (Z * Z) :=
  match cnt with
  | O => Some (max_occur, slot_max)
  | S cnt' =>
      val <- vals !! v ;;
      let curr_occur := value_num val in
      if curr_occur >? max_occur
      then max_loop vals (S v) cnt' curr_occur (Z.of_nat v)
      else max_loop vals (S v) cnt' max_occur slot_max
  end.

(** The sum of the other occurrences, a [uint32_t]. *)
Fixpoint sum_loop (vals : list common_ngram_map_value) (slot_max : Z)
    (v : nat) (cnt : nat) (sum_occur : Z) : option Z :=
  match cnt with
  | O => Some sum_occur
  | S cnt' =>
      if Z.of_nat v =? slot_max
      then sum_loop vals slot_max (S v) cnt' sum_occur
      else
        val <- vals !! v ;;
        let curr_occur := value_num val in
        sum_loop vals slot_max (S v) cnt' (uint32_t (sum_occur + curr_occur))
  end.

(** [sum_occur > 0 && max_occur < 3 * sum_occur], the product a
    [uint32_t]: the most frequent value is not used. *)
Definition not_confident (max_occur sum_occur : Z) : bool :=
  (sum_occur >? 0) && (max_occur <? uint32_t (3 * sum_occur)).

(** [map.keys[key_offset]] is assigned through the reference [curr_key]. *)
Definition store_key (map : common_ngram_map) (key_offset : Z)
    (curr_key : common_ngram_map_key) : common_ngram_map :=
  set_keys map (<[Z.to_nat key_offset := curr_key]> (keys map)).

(** Complex mode after the statistics: choice of the value, confidence
    test and draft. [map] already holds [curr_key] at [key_offset]. The
    log lines of the source are left out. *)
Definition draft_select (map : common_ngram_map) (inp : llama_tokens)
    (match_pos key_offset : Z) (curr_key : common_ngram_map_key)
    (draft : llama_tokens) : option (common_ngram_map * llama_tokens) :=
  let n := size_key map in
  let m := size_value map in
  '(max_occur, slot_max) <- max_loop (values curr_key) 0
                              COMMON_NGRAM_MAX_VALUES 0 0 ;;
  sum_occur <- sum_loop (values curr_key) slot_max 0
                 COMMON_NGRAM_MAX_VALUES 0 ;;
  if not_confident max_occur sum_occur then Some (map, draft)
  else
    val <- values curr_key !! Z.to_nat slot_max ;;
    let n_draft_tokens := Z.min m (n_accepted val) in
    draft' <- copy_loop inp (match_pos + n) 0 (Z.to_nat n_draft_tokens)
                draft ;;
    Some (set_last_draft map true key_offset slot_max, draft').

(** The part of [common_ngram_map_draft] after a match was found at
    [match_pos]; [map] has its throttle cursor already set. *)
Definition draft_at_match (map : common_ngram_map) (inp : llama_tokens)
    (key_tokens : llama_tokens) (match_pos : Z) (draft : llama_tokens)
    : option (common_ngram_map * llama_tokens) :=
  let n := size_key map in
  let m := size_value map in
  key_offset <- find_key inp key_tokens n (keys map) 0 ;;
  let map :=
    if key_offset =? size (keys map)
    then set_keys map (keys map ++ [new_key match_pos m])
    else map in
  curr_key <- keys map !! Z.to_nat key_offset ;;
  let curr_key := set_key_num curr_key (count_up (key_num curr_key)) in
  if key_only map then
    val0 <- values curr_key !! 0%nat ;;
    let n_draft_tokens := Z.min m (n_accepted val0) in
    draft' <- copy_loop inp (match_pos + n) 0 (Z.to_nat n_draft_tokens)
                draft ;;
    Some (set_last_draft (store_key map key_offset curr_key)
            false key_offset 0, draft')
  else if key_num curr_key <? min_hits map then
    Some (store_key map key_offset curr_key, draft)
  else
    curr_key <- update_stats inp key_tokens n m match_pos curr_key ;;
    draft_select (store_key map key_offset curr_key) inp match_pos
      key_offset curr_key draft.

(** The key n-gram: the last [n - 1] tokens of the history and [sampled]. *)
Definition make_key_tokens (inp : llama_tokens) (n : Z)
    (sampled : llama_token) : option llama_tokens :=
  let cur_len := size inp in
  let j0 := size_t (cur_len - n + 1) in
  key_tokens <- copy_loop inp 0 j0 (Z.to_nat (cur_len - j0)) [] ;;
  Some (key_tokens ++ [sampled]).

Definition common_ngram_map_draft (map : common_ngram_map)
    (inp : llama_tokens) (sampled : llama_token) (draft : llama_tokens)
    : option (common_ngram_map * llama_tokens) :=
  let map := set_last_draft map false 0 0 in
  let cur_len := size inp in
  let n := size_key map in
  let m := size_value map in
  if cur_len <? 2 * n + m then Some (map, draft)
  else if size_t (idx_last_check map + check_rate map) >? cur_len
  then Some (map, draft)
  else
    let map := set_idx_last_check map cur_len in
    key_tokens <- make_key_tokens inp n sampled ;;
    match_pos <- search_back inp key_tokens n
                   (Z.to_nat (size_t (cur_len - n - m - 1))) ;;
    if match_pos =? 0 then Some (map, draft)
    else draft_at_match map inp key_tokens match_pos draft.

Definition common_ngram_map_accept (map : common_ngram_map) (n_acc : Z)
    : option common_ngram_map :=
  if negb (last_draft_created map) then Some map
  else
    let key_idx := last_draft_key_idx map in
    let val_idx := last_draft_value_idx map in
    curr_key <- keys map !! Z.to_nat key_idx ;;
    curr_value <- values curr_key !! Z.to_nat val_idx ;;
    Some (store_key map key_idx
            (set_values curr_key
               (<[Z.to_nat val_idx := set_n_accepted curr_value n_acc]>
                  (values curr_key)))).

(** The log of the values in use, printed after the selection:
<<
    for (int v = 0; v < COMMON_NGRAM_MAX_VALUES; ++v) {
        if (curr_key.values[v].value_idx != 0) {
            LOG_INF("%s: value[%d] = %s\n", __func__, v,
                common_tokens_to_str(inp, curr_key.values[v].value_idx, m).c_str());
        }
    }
>>
    Of a line the slot [v] and the printed m-gram are kept; [cnt] is the
    number of iterations left and [log] the lines written so far. *)
Fixpoint log_values (inp : llama_tokens) (m : Z)
    (vals : list common_ngram_map_value) (v : nat) (cnt : nat)
    (log : list (Z * string)) : option (list (Z * string)) :=
  match cnt with
  | O => Some log
  | S cnt' =>
      val <- vals !! v ;;
      if negb (value_idx val =? 0) then
        s <- common_tokens_to_str inp (value_idx val) m ;;
        log_values inp m vals (S v) cnt' (log ++ [(Z.of_nat v, s)])
      else log_values inp m vals (S v) cnt' log
  end.

End NgramMap.

Import NgramMap.

(** * Vocabulary of the properties *)

(** The tokens of [inp] at the positions [j .. j + len - 1]. *)
Definition window (inp : llama_tokens) (j len : Z) : llama_tokens :=
  take (Z.to_nat len) (drop (Z.to_nat j) inp).

(** The first [len] tokens of [pattern] stand in [inp] at position [j]. *)
Definition occurs_at (inp pattern : llama_tokens) (len : Z) (j : Z) : Prop :=
  window inp j len = window pattern 0 len.

(** [mp] is what a search from [start] down to 1 has to return: 0 when the
    pattern occurs nowhere in [1 .. start], the largest position of
    [1 .. start] where it occurs otherwise. *)
Definition latest_match (inp pattern : llama_tokens) (len : Z) (start : Z)
    (mp : Z) : Prop :=
  0 <= mp <= start /\
  (mp <> 0 -> occurs_at inp pattern len mp) /\
  (forall j, 1 <= j <= start -> occurs_at inp pattern len j ->
             mp <> 0 /\ j <= mp).

(** The pattern the drafter searches for: the last [n - 1] tokens of the
    history, then the sampled token. *)
Definition simple_pattern (tokens : llama_tokens) (n : Z)
    (sampled : llama_token) : llama_tokens :=
  drop (Z.to_nat (size tokens - n + 1)) tokens ++ [sampled].

(** The draft of a call that found [match_pos]. *)
Definition simple_replay (tokens : llama_tokens) (n m match_pos : Z)
    : llama_tokens :=
  let available := Z.min m (size tokens - (match_pos + n)) in
  if available <? n then [] else window tokens (match_pos + n) available.

(** The map as [common_ngram_map_draft] has it once the guard and the
    throttle have passed on a history of length [cur_len]. *)
Definition map_checked (map : common_ngram_map) (cur_len : Z)
    : common_ngram_map :=
  set_idx_last_check (set_last_draft map false 0 0) cur_len.

(** What [draft_at_match] leaves alone: the configuration and the throttle
    cursor. *)
Definition same_config (map map' : common_ngram_map) : Prop :=
  size_key map' = size_key map /\ size_value map' = size_value map /\
  key_only map' = key_only map /\ check_rate map' = check_rate map /\
  min_hits map' = min_hits map /\ idx_last_check map' = idx_last_check map.

(** The value [val] of slot [slot] is used: the draft gets the tokens that
    follow the match and the draft is recorded for the feedback. *)
Definition emit_draft (map : common_ngram_map) (inp : llama_tokens)
    (match_pos key_offset : Z) (val : common_ngram_map_value) (slot : Z)
    (draft : llama_tokens) : option (common_ngram_map * llama_tokens) :=
  draft' <- copy_loop inp (match_pos + size_key map) 0
              (Z.to_nat (Z.min (size_value map) (n_accepted val))) draft ;;
  Some (set_last_draft map true key_offset slot, draft').

(** [slot] holds the largest count of [vals], and is the lowest slot that
    does. *)
Definition is_slot_max (vals : list common_ngram_map_value) (slot : Z)
    (max_occur : Z) : Prop :=
  (exists val, vals !! Z.to_nat slot = Some val /\ value_num val = max_occur)
  /\ 0 <= slot /\
  forall (v : nat) (x : common_ngram_map_value), vals !! v = Some x ->
    value_num x <= max_occur /\ (Z.of_nat v < slot -> value_num x < max_occur).

Definition is_uint16 (x : Z) : Prop := 0 <= x < 65536.

(** The draft recorded in [map] names an existing value. *)
Definition pending_valid (map : common_ngram_map) : Prop :=
  0 <= last_draft_key_idx map /\ 0 <= last_draft_value_idx map /\
  exists key val,
    keys map !! Z.to_nat (last_draft_key_idx map) = Some key /\
    values key !! Z.to_nat (last_draft_value_idx map) = Some val.

(** The test the complex mode makes on the values of [key] before it
    drafts from slot [slot]. *)
Definition confident_in (key : common_ngram_map_key) (slot : Z) : Prop :=
  exists max_occur sum_occur,
    max_loop (values key) 0 COMMON_NGRAM_MAX_VALUES 0 0
    = Some (max_occur, slot) /\
    sum_loop (values key) slot 0 COMMON_NGRAM_MAX_VALUES 0 = Some sum_occur /\
    not_confident max_occur sum_occur = false.

(** The map in which [draft_at_match] works: with a new key at the end
    when no key has the key tokens. *)
Definition with_key (map : common_ngram_map) (key_offset match_pos : Z)
    : common_ngram_map :=
  if key_offset =? size (keys map)
  then set_keys map (keys map ++ [new_key match_pos (size_value map)])
  else map.

(** The accepted length of a value is a number of tokens of an m-gram. *)
Definition value_accepted_ok (m : Z) (v : common_ngram_map_value) : Prop :=
  0 <= n_accepted v <= m.

Definition key_accepted_ok (m : Z) (k : common_ngram_map_key) : Prop :=
  Forall (value_accepted_ok m) (values k).

(** Every accepted length of the map is between 0 and [size_value]: so it
    is in a new cache, and so it stays when the caller reports no more
    accepted tokens than were drafted. *)
Definition accepted_ok (map : common_ngram_map) : Prop :=
  Forall (key_accepted_ok (size_value map)) (keys map).

Definition counter_ok (x : Z) : Prop :=
  0 <= x <= COMMON_NGRAM_MAX_VALUE_COUNT.

Definition key_counters_ok (k : common_ngram_map_key) : Prop :=
  counter_ok (key_num k) /\
  Forall (fun v => counter_ok (value_num v)) (values k).

(** Every [key_num] and every [value_num] of the map is within the cap. *)
Definition counters_ok (map : common_ngram_map) : Prop :=
  Forall key_counters_ok (keys map).

(** A call of the cache by the decoding loop. The draft starts empty and
    only the map is kept. *)
Inductive call : Type :=
  | CallDraft (inp : llama_tokens) (sampled : llama_token)
  | CallAccept (n_acc : Z).

Definition do_call (map : common_ngram_map) (c : call)
    : option common_ngram_map :=
  match c with
  | CallDraft inp sampled =>
      '(map', _) <- common_ngram_map_draft map inp sampled [] ;; Some map'
  | CallAccept n_acc => common_ngram_map_accept map n_acc
  end.

Fixpoint run (map : common_ngram_map) (calls : list call)
    : option common_ngram_map :=
  match calls with
  | [] => Some map
  | c :: calls' => map' <- do_call map c ;; run map' calls'
  end.

(** The m-gram of a slot in use lies inside the first [len] tokens. *)
Definition value_anchor_ok (m len : Z) (val : common_ngram_map_value)
    : Prop :=
  0 <= value_idx val /\ (value_idx val <> 0 -> value_idx val + m <= len).

(** The n-gram of the key and the m-grams of its slots lie inside the
    first [len] tokens, and the key has its array of values. *)
Definition key_anchor_ok (n m len : Z) (k : common_ngram_map_key) : Prop :=
  0 <= key_idx k /\ key_idx k + n <= len /\ 0 <= stat_idx k /\
  length (values k) = COMMON_NGRAM_MAX_VALUES /\
  Forall (value_anchor_ok m len) (values k).

Definition anchors_ok (map : common_ngram_map) (len : Z) : Prop :=
  Forall (key_anchor_ok (size_key map) (size_value map) len) (keys map).

(** The cache is in order for a history of [len] tokens: the key has a
    token, the anchors lie inside the history and a recorded draft names an
    existing value. *)
Definition cache_ok (map : common_ngram_map) (len : Z) : Prop :=
  1 <= size_key map /\ 0 <= size_value map /\ anchors_ok map len /\
  (last_draft_created map = true -> pending_valid map).

(** The states of the cache whose keys and values were all recorded by
    draft calls on prefixes of [hist]: a cache without keys, and what draft
    calls on prefixes of [hist] and accept calls make of such a state. *)
Inductive recorded_on (hist : llama_tokens) : common_ngram_map -> Prop :=
  | recorded_new (map : common_ngram_map) :
      keys map = [] -> recorded_on hist map
  | recorded_draft (map map' : common_ngram_map) (inp : llama_tokens)
        (sampled : llama_token) (draft draft' : llama_tokens) :
      recorded_on hist map -> inp `prefix_of` hist ->
      common_ngram_map_draft map inp sampled draft = Some (map', draft') ->
      recorded_on hist map'
  | recorded_accept (map map' : common_ngram_map) (n_acc : Z) :
      recorded_on hist map ->
      common_ngram_map_accept map n_acc = Some map' ->
      recorded_on hist map'.

(** The length of the history after the call [c], [len] being the length
    before it. *)
Definition call_length (len : Z) (c : call) : Z :=
  match c with
  | CallDraft inp _ => size inp
  | CallAccept _ => len
  end.

(** The histories of the draft calls do not shrink, as in a decoding loop
    that only appends tokens, [len] being the length reached before. *)
Fixpoint grows (len : Z) (calls : list call) : Prop :=
  match calls with
  | [] => True
  | c :: calls' =>
      match c with
      | CallDraft inp _ => len <= size inp /\ size inp < SIZE_MAX
      | CallAccept _ => True
      end /\ grows (call_length len c) calls'
  end.

(** The number of positions [0 .. upto] of the history where [pattern]
    stands. *)
Definition occurrences (inp pattern : llama_tokens) (upto : nat) : nat :=
  length (filter (fun i : nat =>
                    window inp (Z.of_nat i) (size pattern) = pattern)
                 (seq 0 (S upto))).



(** The slot [val] is in use with a count within the cap, and [val'] is
    that slot later: in use for the same m-gram, with a count that is not
    smaller. *)
Definition value_kept (val val' : common_ngram_map_value) : Prop :=
  value_idx val <> 0 -> counter_ok (value_num val) ->
  value_idx val' = value_idx val /\ value_num val <= value_num val' /\
  counter_ok (value_num val').

Definition values_kept (vals vals' : list common_ngram_map_value) : Prop :=
  length vals' = length vals /\
  forall (v : nat) (val : common_ngram_map_value),
    vals !! v = Some val ->
    exists val', vals' !! v = Some val' /\ value_kept val val'.

(** [k'] is the key [k] later: the same n-gram of the history, with every
    slot in use kept and a count of hits that is not smaller. *)
Definition key_kept (k k' : common_ngram_map_key) : Prop :=
  key_idx k' = key_idx k /\ values_kept (values k) (values k') /\
  (counter_ok (key_num k) ->
   key_num k <= key_num k' /\ counter_ok (key_num k')).

(** Every key of [map] is in [map'] at the same offset, kept. *)
Definition keys_kept (map map' : common_ngram_map) : Prop :=
  (length (keys map) <= length (keys map'))%nat /\
  forall (i : nat) (k : common_ngram_map_key),
    keys map !! i = Some k ->
    exists k', keys map' !! i = Some k' /\ key_kept k k'.


(** The number of positions [0 .. upto - 1] of the history where the key
    tokens stand and are followed by the m-gram [c]. *)
Definition tally (inp key_tokens : llama_tokens) (n m : Z)
    (c : llama_tokens) (upto : Z) : Z :=
  Z.of_nat
    (length
       (filter (fun j : nat =>
                  window inp (Z.of_nat j) n = key_tokens /\
                  window inp (Z.of_nat j + n) m = c)
               (seq 0 (Z.to_nat upto)))).

(** The statistics of a key are exact for the positions [0 .. upto - 1]:
    every slot in use lies inside the history and counts, up to the cap,
    the occurrences of the key that its m-gram follows; the slots in use
    come first and hold different m-grams; and as long as a slot is free,
    every m-gram that follows the key has a slot. *)
Definition slots_exact (inp key_tokens : llama_tokens) (n m : Z) (upto : Z)
    (vals : list common_ngram_map_value) : Prop :=
  (forall v val, vals !! v = Some val -> value_idx val <> 0 ->
     0 <= value_idx val /\ value_idx val + m <= size inp /\
     value_num val
     = Z.min COMMON_NGRAM_MAX_VALUE_COUNT
             (tally inp key_tokens n m (window inp (value_idx val) m) upto))
  /\
  (forall (v w : nat) val val', (v < w)%nat ->
     vals !! v = Some val -> vals !! w = Some val' -> value_idx val' <> 0 ->
     value_idx val <> 0 /\
     window inp (value_idx val) m <> window inp (value_idx val') m)
  /\
  ((exists v val, vals !! v = Some val /\ value_idx val = 0) ->
   forall j, 0 <= j < upto -> window inp j n = key_tokens ->
     exists v val, vals !! v = Some val /\ value_idx val <> 0 /\
                   window inp (value_idx val) m = window inp (j + n) m).

(** The text [[v0, v1, v2, ...]] of a list of tokens. *)
Definition tokens_text (l : llama_tokens) : string :=
  "[" +:+ (String.concat ", " (map token_to_str l) +:+ "]").

(** The text of the tokens [l] without the brackets, every token after a
    separator, the first one too unless [first] holds. *)
Fixpoint text_from (first : bool) (l : llama_tokens) : string :=
  match l with
  | [] => ""
  | t :: l' =>
      (if first then "" else ", ") +:+ (token_to_str t +:+ text_from false l')
  end.

(** The n-grams of the keys of the cache, in the order of the keys, read
    in the history [hist]. *)
Definition key_ngrams (hist : llama_tokens) (map : common_ngram_map)
    : list llama_tokens :=
  (fun k => window hist (key_idx k) (size_key map)) <$> keys map.

(** The statistics mark of the key [k] is in order for the history [hist],
    of which [len] tokens were seen: the statistics were never brought up,
    or [stat_idx] is a position of at least 1 that a key search on [len]
    tokens visits and where the n-gram of the key stands. *)
Definition mark_ok (hist : llama_tokens) (n m len : Z)
    (k : common_ngram_map_key) : Prop :=
  stat_idx k = 0 \/
  (1 <= stat_idx k /\ stat_idx k + n + m + 1 <= len /\
   window hist (stat_idx k) n = window hist (key_idx k) n).

Definition marks_ok (hist : llama_tokens) (map : common_ngram_map)
    (len : Z) : Prop :=
  Forall (mark_ok hist (size_key map) (size_value map) len) (keys map).

(** Every key of [map] is in [map'] at the same offset, with a statistics
    mark that is not smaller. *)
Definition marks_kept (map map' : common_ngram_map) : Prop :=
  forall (i : nat) (k : common_ngram_map_key),
    keys map !! i = Some k ->
    exists k', keys map' !! i = Some k' /\ stat_idx k <= stat_idx k'.

(** The histories of the draft calls are parts of [hist] from its start. *)
Definition calls_on (hist : llama_tokens) (calls : list call) : Prop :=
  Forall (fun c => match c with
                   | CallDraft inp _ => inp `prefix_of` hist
                   | CallAccept _ => True
                   end) calls.

(** What the part of the draft call after the search does with the match
    position: [map] is the cache when the search ends, [key_offset] the key
    that [find_key] returns, [k1] that key before the call works on it (the
    new key when none was found) and [k'] the key the call leaves at that
    offset. The key is counted up; a new key is anchored at the match; in
    key-only mode the tokens after the match are appended as far as the
    first value allows; in complex mode, once the key has its hits, the
    statistics are brought up to the match and, when a draft is recorded,
    the tokens after the match are appended as far as the recorded value
    allows. *)
Definition match_used (map : common_ngram_map) (inp : llama_tokens)
    (key_tokens : llama_tokens) (match_pos : Z) (draft : llama_tokens)
    (key_offset : Z) (k1 k' : common_ngram_map_key)
    (map' : common_ngram_map) (draft' : llama_tokens) : Prop :=
  let n := size_key map in
  let m := size_value map in
  find_key inp key_tokens n (keys map) 0 = Some key_offset /\
  keys (with_key map key_offset match_pos) !! Z.to_nat key_offset = Some k1 /\
  keys map'
  = <[Z.to_nat key_offset := k']> (keys (with_key map key_offset match_pos)) /\
  key_idx k' = key_idx k1 /\ key_num k' = count_up (key_num k1) /\
  (key_offset = size (keys map) -> key_idx k' = match_pos) /\
  ((key_only map = true /\ last_draft_created map' = false /\
    exists val0,
      values k' !! 0%nat = Some val0 /\
      draft' = draft ++ window inp (match_pos + n)
                          (Z.max 0 (Z.min m (n_accepted val0))))
   \/
   (key_only map = false /\ key_num k' < min_hits map /\
    last_draft_created map' = false /\ draft' = draft)
   \/
   (key_only map = false /\ min_hits map <= key_num k' /\
    stat_idx k' = match_pos /\
    ((last_draft_created map' = false /\ draft' = draft)
     \/
     (last_draft_created map' = true /\
      last_draft_key_idx map' = key_offset /\
      exists val,
        values k' !! Z.to_nat (last_draft_value_idx map') = Some val /\
        draft' = draft ++ window inp (match_pos + n)
                            (Z.max 0 (Z.min m (n_accepted val))))))).

(** The lines of the value log for the values [vals]: one line for every
    slot in use, in the order of the slots, with the number of the slot
    and the text of the [m] tokens at its anchor. *)
Definition used_lines (inp : llama_tokens) (m : Z)
    (vals : list common_ngram_map_value) : list (Z * string) :=
  (fun p : nat * common_ngram_map_value =>
     (Z.of_nat p.1, tokens_text (window inp (value_idx p.2) m)))
  <$> filter (fun p : nat * common_ngram_map_value => value_idx p.2 <> 0)
             (zip (seq 0 (length vals)) vals).

(** ** Worked inputs *)

(** A drafter with keys of 2 tokens, drafts of 3 tokens, checking at every
    token. *)
Definition ex_simple_state : NgramSimple.common_ngram_simple_state :=
  {| NgramSimple.config :=
       {| NgramSimple.size_ngram := 2; NgramSimple.size_mgram := 3;
          NgramSimple.check_rate := 1 |};
     NgramSimple.idx_last_check := 0 |}.

(** A history without repetition. *)
Definition ex_history_plain : llama_tokens := [1; 2; 3; 4; 5; 6; 7].

(** The pair [1; 2] stands at the positions 1 and 5. *)
Definition ex_history : llama_tokens := [9; 1; 2; 3; 4; 1; 2; 7; 8; 9; 6; 1].

(** A cache with keys and values of 1 token, statistical mode, checking at
    every token, drafting from the first hit. *)
Definition ex_map : common_ngram_map :=
  {| size_key := 1; size_value := 1; key_only := false; keys := [];
     check_rate := 1; min_hits := 1; last_draft_created := false;
     last_draft_key_idx := 0; last_draft_value_idx := 0;
     idx_last_check := 0 |}.

Definition ex_slot (idx num : Z) : common_ngram_map_value :=
  {| value_idx := idx; value_num := num; n_accepted := 1 |}.

(** A key of [ex_history] for the token 1, two of its slots counted. *)
Definition ex_counted_key (num0 num1 : Z) : common_ngram_map_key :=
  {| key_idx := 1; stat_idx := 5; key_num := 12;
     values := [ex_slot 2 num0; ex_slot 8 num1; ex_slot 0 0; ex_slot 0 0] |}.

(** [ex_map] after its first draft call, on the history [9; 1; 2; 3; 4]
    with the token 1 sampled. *)
Definition ex_map_drafted : common_ngram_map :=
  {| size_key := 1; size_value := 1; key_only := false;
     keys := [ {| key_idx := 1; stat_idx := 1; key_num := 1;
                  values := [ex_slot 2 1; ex_slot 0 0; ex_slot 0 0;
                             ex_slot 0 0] |} ];
     check_rate := 1; min_hits := 1; last_draft_created := true;
     last_draft_key_idx := 0; last_draft_value_idx := 0;
     idx_last_check := 5 |}.

(** [ex_map_drafted] after the report that none of the drafted tokens was
    accepted. *)
Definition ex_map_zero : common_ngram_map :=
  {| size_key := 1; size_value := 1; key_only := false;
     keys := [ {| key_idx := 1; stat_idx := 1; key_num := 1;
                  values := [ {| value_idx := 2; value_num := 1;
                                 n_accepted := 0 |};
                              ex_slot 0 0; ex_slot 0 0; ex_slot 0 0] |} ];
     check_rate := 1; min_hits := 1; last_draft_created := true;
     last_draft_key_idx := 0; last_draft_value_idx := 0;
     idx_last_check := 5 |}.

(** The history of [ex_map_drafted], grown by four tokens. *)
Definition ex_history_grown : llama_tokens := [9; 1; 2; 3; 4; 1; 2; 3; 4].

(** The token 1 stands at the positions 1 and 4, followed by 2 and by 5. *)
Definition ex_history_two : llama_tokens := [9; 1; 2; 3; 1; 5; 6].

(** The key for the token 1 with its first slot in use for the m-gram at
    position 2. *)
Definition ex_key_one_slot : common_ngram_map_key :=
  {| key_idx := 1; stat_idx := 1; key_num := 1;
     values := [ex_slot 2 1; ex_slot 0 0; ex_slot 0 0; ex_slot 0 0] |}.

(** A cache that is at the cap: the key for the token 1 was hit 16380
    times and its m-gram was counted 16380 times. *)
Definition ex_map_full : common_ngram_map :=
  {| size_key := 1; size_value := 1; key_only := false;
     keys := [ {| key_idx := 1; stat_idx := 1; key_num := 16380;
                  values := [ex_slot 2 16380; ex_slot 0 0; ex_slot 0 0;
                             ex_slot 0 0] |} ];
     check_rate := 1; min_hits := 1; last_draft_created := false;
     last_draft_key_idx := 0; last_draft_value_idx := 0;
     idx_last_check := 5 |}.

(** The calls of a decoding loop on a new cache: a draft, the report of
    one accepted token, and a draft on the grown history. *)
Definition ex_calls_new : list call :=
  [ CallDraft [9; 1; 2; 3; 4] 1; CallAccept 1;
    CallDraft [9; 1; 2; 3; 4; 1; 2; 3; 4] 1 ].

Definition ex_calls : list call :=
  [ CallDraft [9; 1; 2; 3; 4; 1; 2; 3; 4] 1; CallAccept 1;
    CallDraft [9; 1; 2; 3; 4; 1; 2; 3; 4; 1; 2; 5] 1 ].



(** The token 1 is followed by 2, 3, 4, 5 and then by 6. *)
Definition ex_history_five : llama_tokens :=
  [9; 1; 2; 1; 3; 1; 4; 1; 5; 1; 6; 7].

(** The key for the token 1 of [ex_history_five], its four slots in use
    for the m-grams at the positions 2, 4, 6 and 8. *)
Definition ex_key_full : common_ngram_map_key :=
  {| key_idx := 1; stat_idx := 7; key_num := 4;
     values := [ex_slot 2 1; ex_slot 4 1; ex_slot 6 1; ex_slot 8 1] |}.

(** * Properties *)

(** ** Machine arithmetic and vector reads *)

Lemma size_t_small (x : Z) : 0 <= x < SIZE_MOD -> size_t x = x.
Proof. intros H. unfold size_t. apply Z.mod_small. exact H. Qed.

Lemma size_t_range (x : Z) : 0 <= size_t x < SIZE_MOD.
Proof. unfold size_t. apply Z.mod_pos_bound. reflexivity. Qed.

Lemma size_nonneg {A} (v : list A) : 0 <= size v.
Proof. unfold size. lia. Qed.

Lemma size_app {A} (u v : list A) : size (u ++ v) = size u + size v.
Proof. unfold size. rewrite length_app. lia. Qed.

(** A read succeeds exactly on the indices of the vector. *)
Lemma tok_is_Some (inp : llama_tokens) (i : Z) :
  is_Some (tok inp i) <-> 0 <= i < size inp.
Proof.
  unfold tok, size. destruct (Z.ltb_spec i 0) as [Hneg | Hpos].
  - split; [intros [x Hx]; discriminate | lia].
  - rewrite lookup_lt_is_Some. lia.
Qed.

Lemma tok_lookup (inp : llama_tokens) (i : Z) :
  0 <= i -> tok inp i = inp !! Z.to_nat i.
Proof. intros H. unfold tok. destruct (Z.ltb_spec i 0); [lia | reflexivity]. Qed.

Lemma window_length (inp : llama_tokens) (j len : Z) :
  0 <= j -> 0 <= len -> j + len <= size inp -> size (window inp j len) = len.
Proof.
  intros Hj Hl Hb. unfold window, size in *.
  rewrite length_take, length_drop. lia.
Qed.

Lemma window_step (inp : llama_tokens) (j : Z) (cnt : nat) (x : Z) :
  0 <= j -> inp !! Z.to_nat j = Some x ->
  window inp j (Z.of_nat (S cnt)) = x :: window inp (j + 1) (Z.of_nat cnt).
Proof.
  intros Hj Hx. unfold window. rewrite !Nat2Z.id.
  rewrite (drop_S _ _ _ Hx). simpl.
  replace (Z.to_nat (j + 1)) with (S (Z.to_nat j)) by lia. reflexivity.
Qed.

(** The comparison loop, when all its reads are inside the two vectors,
    decides the equality of the two windows. *)
Lemma ngram_eq_from_spec (a : llama_tokens) (ia : Z) (b : llama_tokens)
    (ib : Z) (cnt : nat) : forall k : Z,
  0 <= ia -> 0 <= ib -> 0 <= k ->
  ia + k + Z.of_nat cnt <= size a -> size a <= SIZE_MOD ->
  ib + k + Z.of_nat cnt <= size b -> size b <= SIZE_MOD ->
  exists r : bool,
    ngram_eq_from a ia b ib k cnt = Some r /\
    (r = true <->
       window a (ia + k) (Z.of_nat cnt) = window b (ib + k) (Z.of_nat cnt)).
Proof.
  induction cnt as [| cnt IH]; intros k Hia Hib Hk Ha Hma Hb Hmb.
  - exists true. split; [reflexivity |]. unfold window. simpl. tauto.
  - cbn [ngram_eq_from].
    rewrite !size_t_small by lia. rewrite !tok_lookup by lia.
    destruct (lookup_lt_is_Some_2 a (Z.to_nat (ia + k))) as [x Hx];
      [unfold size in *; lia |].
    destruct (lookup_lt_is_Some_2 b (Z.to_nat (ib + k))) as [y Hy];
      [unfold size in *; lia |].
    rewrite Hx, Hy.
    rewrite (window_step a (ia + k) cnt x), (window_step b (ib + k) cnt y)
      by (assumption || lia).
    destruct (Z.eqb_spec x y) as [-> | Hne]; simpl.
    + destruct (IH (k + 1)) as [r [Hr Hiff]]; try lia.
      exists r. split; [exact Hr |].
      rewrite Hiff. rewrite <- !Z.add_assoc.
      split; [intros ->; reflexivity | intros H; injection H; tauto].
    + exists false. split; [reflexivity |].
      split; [discriminate | intros H; injection H; intros; contradiction].
Qed.

Lemma ngram_eq_spec (a : llama_tokens) (ia : Z) (b : llama_tokens) (ib : Z)
    (len : Z) :
  0 <= ia -> 0 <= ib -> 0 <= len ->
  ia + len <= size a -> size a <= SIZE_MOD ->
  ib + len <= size b -> size b <= SIZE_MOD ->
  exists r : bool,
    ngram_eq a ia b ib len = Some r /\
    (r = true <-> window a ia len = window b ib len).
Proof.
  intros Hia Hib Hl Ha Hma Hb Hmb. unfold ngram_eq.
  destruct (ngram_eq_from_spec a ia b ib (Z.to_nat len) 0) as [r [Hr Hiff]];
    try lia.
  exists r. split; [exact Hr |].
  rewrite Z2Nat.id, !Z.add_0_r in Hiff by lia. exact Hiff.
Qed.

(** With nothing to compare the loop reads nothing. *)
Lemma ngram_eq_zero (a : llama_tokens) (ia : Z) (b : llama_tokens) (ib : Z)
    (len : Z) : len <= 0 -> ngram_eq a ia b ib len = Some true.
Proof.
  intros H. unfold ngram_eq. replace (Z.to_nat len) with O by lia. reflexivity.
Qed.

(** The copy loop appends the window it runs over. *)
Lemma copy_loop_spec (inp : llama_tokens) (base : Z) (cnt : nat) :
  forall (j : Z) (out : llama_tokens),
  0 <= base + j -> base + j + Z.of_nat cnt <= size inp ->
  size inp <= SIZE_MOD ->
  copy_loop inp base j cnt out
  = Some (out ++ window inp (base + j) (Z.of_nat cnt)).
Proof.
  induction cnt as [| cnt IH]; intros j out Hj Hb Hm.
  - unfold window. simpl. rewrite app_nil_r. reflexivity.
  - cbn [copy_loop]. rewrite size_t_small by lia. rewrite tok_lookup by lia.
    destruct (lookup_lt_is_Some_2 inp (Z.to_nat (base + j))) as [x Hx];
      [unfold size in *; lia |].
    rewrite Hx. rewrite IH by lia.
    rewrite (window_step inp (base + j) cnt x) by assumption.
    rewrite <- app_assoc, Z.add_assoc. reflexivity.
Qed.

Lemma copy_loop_none (inp : llama_tokens) (base j : Z) (out : llama_tokens) :
  copy_loop inp base j O out = Some out.
Proof. reflexivity. Qed.

(** The tail of the history from [j0] on, as the loops that build the
    search pattern copy it. *)
Lemma copy_tail (inp : llama_tokens) (j0 : Z) :
  0 <= j0 -> size inp <= SIZE_MOD ->
  copy_loop inp 0 j0 (Z.to_nat (size inp - j0)) []
  = Some (drop (Z.to_nat j0) inp).
Proof.
  intros Hj Hm. destruct (Z.le_gt_cases j0 (size inp)) as [Hle | Hgt].
  - rewrite copy_loop_spec by lia. simpl. f_equal. unfold window.
    apply take_ge. rewrite length_drop. unfold size in *. lia.
  - replace (Z.to_nat (size inp - j0)) with O by lia. simpl. f_equal.
    symmetry. apply drop_ge. unfold size in *. lia.
Qed.

(** ** The backward search *)

Lemma search_back_spec (inp pattern : llama_tokens) (len : Z) (start : nat) :
  0 <= len -> len <= size pattern -> size pattern <= SIZE_MOD ->
  size inp <= SIZE_MOD ->
  len = 0 \/ Z.of_nat start + len <= size inp ->
  exists mp : Z,
    search_back inp pattern len start = Some mp /\
    latest_match inp pattern len (Z.of_nat start) mp.
Proof.
  intros Hl Hp Hmp Hmi. induction start as [| start IH]; intros Hb.
  - exists 0. split; [reflexivity |]. repeat split; try lia.
  - cbn [search_back].
    assert (Hcmp : exists r : bool,
      ngram_eq inp (Z.of_nat (S start)) pattern 0 len = Some r /\
      (r = true <-> occurs_at inp pattern len (Z.of_nat (S start)))).
    { destruct Hb as [-> | Hb].
      - exists true. split; [apply ngram_eq_zero; lia |].
        unfold occurs_at, window. simpl. tauto.
      - apply ngram_eq_spec; lia. }
    destruct Hcmp as [r [Hr Hiff]]. rewrite Hr. destruct r.
    + exists (Z.of_nat (S start)). split; [reflexivity |].
      repeat split; try lia. intros _. apply Hiff. reflexivity.
    + destruct IH as [mp [Hs [Hrange [Hocc Hlast]]]]; [lia |].
      exists mp. split; [exact Hs |]. repeat split; try lia.
      * exact Hocc.
      * destruct (Z.eq_dec j (Z.of_nat (S start))) as [-> | Hne].
        -- apply Hiff in H0. discriminate.
        -- apply (Hlast j); [lia | assumption].
      * destruct (Z.eq_dec j (Z.of_nat (S start))) as [-> | Hne].
        -- apply Hiff in H0. discriminate.
        -- apply (Hlast j); [lia | assumption].
Qed.

(** ** The pattern-replay drafter *)

Lemma simple_pattern_size (tokens : llama_tokens) (n : Z) (sampled : Z) :
  0 <= n <= size tokens ->
  size (simple_pattern tokens n sampled) = Z.max n 1.
Proof.
  intros Hn. unfold simple_pattern. rewrite size_app. unfold size in *.
  rewrite length_drop. simpl. lia.
Qed.

(** A call of the drafter that is neither throttled nor short of history:
    the cursor moves to the end of the history, the search returns the
    latest occurrence of the pattern, and the draft replays what follows
    it. *)
Lemma simple_draft_run (state : NgramSimple.common_ngram_simple_state)
    (tokens : llama_tokens) (sampled : llama_token) :
  let n := NgramSimple.size_ngram (NgramSimple.config state) in
  let m := NgramSimple.size_mgram (NgramSimple.config state) in
  let cur_len := size tokens in
  let pattern := simple_pattern tokens n sampled in
  0 <= n -> 0 <= m -> cur_len < SIZE_MAX ->
  size_t (NgramSimple.idx_last_check state
          + NgramSimple.check_rate (NgramSimple.config state)) <= cur_len ->
  n + m + 1 < cur_len ->
  exists mp : Z,
    search_back tokens pattern (size pattern)
      (Z.to_nat (size_t (cur_len - n - 1))) = Some mp /\
    latest_match tokens pattern (size pattern) (cur_len - n - 1) mp /\
    NgramSimple.common_ngram_simple_draft state tokens sampled
    = Some (NgramSimple.set_idx_last_check state cur_len,
            if mp =? 0 then [] else simple_replay tokens n m mp).
Proof.
  intros n m cur_len pattern Hn Hm Hlen Hthr Hguard. unfold SIZE_MAX in Hlen.
  assert (Hps : size pattern = Z.max n 1)
    by (apply simple_pattern_size; fold cur_len; lia).
  assert (Hstart : size_t (cur_len - n - 1) = cur_len - n - 1)
    by (apply size_t_small; lia).
  destruct (search_back_spec tokens pattern (size pattern)
              (Z.to_nat (cur_len - n - 1))) as [mp [Hs Hlm]];
    try (fold cur_len; lia).
  rewrite Z2Nat.id in Hlm by lia.
  exists mp. rewrite Hstart. split; [exact Hs |]. split; [exact Hlm |].
  unfold NgramSimple.common_ngram_simple_draft. fold n m cur_len.
  replace (size_t _ >? cur_len) with false
    by (symmetry; rewrite Z.gtb_ltb; apply Z.ltb_ge; exact Hthr).
  rewrite (size_t_small (n + m + 1)) by lia.
  replace (cur_len <=? n + m + 1) with false
    by (symmetry; apply Z.leb_gt; exact Hguard).
  rewrite (size_t_small (cur_len - n + 1)) by lia.
  unfold cur_len at 2. rewrite copy_tail by (fold cur_len; lia).
  fold cur_len.
  change (drop (Z.to_nat (cur_len - n + 1)) tokens ++ [sampled]) with pattern.
  rewrite Hstart, Hs.
  destruct Hlm as [Hrange _].
  destruct (Z.eqb_spec mp 0) as [Hz | Hnz]; [reflexivity |].
  unfold simple_replay. fold cur_len.
  rewrite (size_t_small (cur_len - (mp + n))) by lia.
  destruct (Z.ltb_spec (Z.min m (cur_len - (mp + n))) n); [reflexivity |].
  rewrite copy_loop_spec by (fold cur_len; lia).
  rewrite Z2Nat.id by lia. rewrite Z.add_0_r. reflexivity.
Qed.

(** ** The statistical cache: guard, throttle and key search *)

Lemma make_key_tokens_spec (inp : llama_tokens) (n : Z) (sampled : Z) :
  0 <= n <= size inp -> size inp < SIZE_MAX ->
  make_key_tokens inp n sampled = Some (simple_pattern inp n sampled).
Proof.
  intros Hn Hlen. unfold SIZE_MAX in Hlen. unfold make_key_tokens.
  rewrite (size_t_small (size inp - n + 1)) by lia.
  rewrite copy_tail by lia. reflexivity.
Qed.

(** A call of the cache that is neither short of history nor throttled:
    the key search returns the latest occurrence of the key tokens among
    the positions it visits, and the call goes on from there. *)
Lemma map_draft_run (map : common_ngram_map) (inp : llama_tokens)
    (sampled : llama_token) (draft : llama_tokens) :
  let n := size_key map in
  let m := size_value map in
  let cur_len := size inp in
  let key_tokens := simple_pattern inp n sampled in
  let start := size_t (cur_len - n - m - 1) in
  0 <= n -> 0 <= m -> cur_len < SIZE_MAX ->
  2 * n + m <= cur_len ->
  size_t (idx_last_check map + check_rate map) <= cur_len ->
  exists mp : Z,
    search_back inp key_tokens n (Z.to_nat start) = Some mp /\
    latest_match inp key_tokens n start mp /\
    common_ngram_map_draft map inp sampled draft
    = if mp =? 0 then Some (map_checked map cur_len, draft)
      else draft_at_match (map_checked map cur_len) inp key_tokens mp draft.
Proof.
  intros n m cur_len key_tokens start Hn Hm Hlen Hguard Hthr.
  assert (Hks : size key_tokens = Z.max n 1)
    by (apply simple_pattern_size; fold cur_len; lia).
  pose proof (size_t_range (cur_len - n - m - 1)) as Hsr. fold start in Hsr.
  unfold SIZE_MAX in Hlen.
  destruct (search_back_spec inp key_tokens n (Z.to_nat start))
    as [mp [Hs Hlm]]; try (fold cur_len; lia).
  { destruct (Z.eq_dec n 0) as [Hz | Hnz]; [left; exact Hz | right].
    unfold start. rewrite size_t_small by lia. fold cur_len. lia. }
  rewrite Z2Nat.id in Hlm by lia.
  exists mp. split; [exact Hs |]. split; [exact Hlm |].
  unfold common_ngram_map_draft. cbn [size_key size_value set_last_draft
    idx_last_check check_rate]. fold n m cur_len.
  replace (cur_len <? 2 * n + m) with false
    by (symmetry; apply Z.ltb_ge; exact Hguard).
  replace (size_t _ >? cur_len) with false
    by (symmetry; rewrite Z.gtb_ltb; apply Z.ltb_ge; exact Hthr).
  rewrite make_key_tokens_spec by (fold cur_len; unfold SIZE_MAX; lia).
  fold key_tokens. fold start. rewrite Hs. reflexivity.
Qed.

(** Below the guard the subtraction of the search does not wrap as soon as
    the key has a token. *)
Lemma map_search_start (n m cur_len : Z) :
  1 <= n -> 0 <= m -> 2 * n + m <= cur_len -> cur_len < SIZE_MAX ->
  size_t (cur_len - n - m - 1) = cur_len - n - m - 1.
Proof. intros. unfold SIZE_MAX in *. apply size_t_small. lia. Qed.

Lemma draft_select_config (map : common_ngram_map) (inp : llama_tokens)
    (match_pos key_offset : Z) (curr_key : common_ngram_map_key)
    (draft : llama_tokens) (map' : common_ngram_map) (draft' : llama_tokens) :
  draft_select map inp match_pos key_offset curr_key draft
  = Some (map', draft') -> same_config map map'.
Proof.
  unfold draft_select, same_config. intros H.
  repeat case_match; simplify_eq; cbn; intuition congruence.
Qed.

Lemma draft_select_keys (map : common_ngram_map) (inp : llama_tokens)
    (match_pos key_offset : Z) (curr_key : common_ngram_map_key)
    (draft : llama_tokens) (map' : common_ngram_map) (draft' : llama_tokens) :
  draft_select map inp match_pos key_offset curr_key draft
  = Some (map', draft') -> keys map' = keys map.
Proof.
  unfold draft_select. intros H. repeat case_match; simplify_eq; reflexivity.
Qed.

Lemma draft_at_match_config (map : common_ngram_map) (inp : llama_tokens)
    (key_tokens : llama_tokens) (match_pos : Z) (draft : llama_tokens)
    (map' : common_ngram_map) (draft' : llama_tokens) :
  draft_at_match map inp key_tokens match_pos draft = Some (map', draft') ->
  same_config map map'.
Proof.
  unfold draft_at_match. intros H.
  destruct (find_key _ _ _ _ _) as [key_offset |]; [| discriminate].
  set (map1 := if key_offset =? size (keys map) then _ else map) in H.
  assert (H1 : same_config map map1).
  { unfold map1, same_config.
    destruct (key_offset =? size (keys map)); cbn; intuition congruence. }
  destruct (keys map1 !! _) as [curr_key |]; [| discriminate].
  assert (Hk : key_only map1 = key_only map) by apply H1.
  cbn [key_num set_key_num] in H.
  destruct (key_only map1).
  - repeat case_match; simplify_eq. unfold same_config in *. cbn. intuition congruence.
  - destruct (_ <? min_hits map1).
    + simplify_eq. unfold same_config in *. cbn. intuition congruence.
    + destruct (update_stats _ _ _ _ _ _) as [curr_key' |]; [| discriminate].
      apply draft_select_config in H. unfold same_config in *.
      cbn in H. intuition congruence.
Qed.

(** ** The claims on the pattern-replay drafter *)

(** C5. When the drafter, neither throttled nor short of history, finds a
    match at [match_pos], it computes
    [available = min (continuation_len, len - (match_pos + key_len))],
    returns the empty draft when [available < key_len], and otherwise
    returns the [available] consecutive tokens of the history that start at
    [match_pos + key_len]. *)
Theorem simple_draft_replays_available
    (state : NgramSimple.common_ngram_simple_state)
    (tokens : llama_tokens) (sampled : llama_token) (match_pos : Z) :
  let n := NgramSimple.size_ngram (NgramSimple.config state) in
  let m := NgramSimple.size_mgram (NgramSimple.config state) in
  let cur_len := size tokens in
  let pattern := simple_pattern tokens n sampled in
  0 <= n -> 0 <= m -> cur_len < SIZE_MAX ->
  size_t (NgramSimple.idx_last_check state
          + NgramSimple.check_rate (NgramSimple.config state)) <= cur_len ->
  n + m + 1 < cur_len ->
  search_back tokens pattern (size pattern)
    (Z.to_nat (size_t (cur_len - n - 1))) = Some match_pos ->
  match_pos <> 0 ->
  let available := Z.min m (cur_len - (match_pos + n)) in
  NgramSimple.common_ngram_simple_draft state tokens sampled
  = Some (NgramSimple.set_idx_last_check state cur_len,
          if available <? n then []
          else window tokens (match_pos + n) available)
  /\ size (window tokens (match_pos + n) available) = available.
Proof.
  intros n m cur_len pattern Hn Hm Hlen Hthr Hguard Hsearch Hnz available.
  destruct (simple_draft_run state tokens sampled Hn Hm Hlen Hthr Hguard)
    as [mp [Hs [[Hrange _] Hrun]]].
  fold n cur_len pattern in Hs, Hrun, Hrange. fold m in Hrun.
  rewrite Hsearch in Hs. injection Hs as <-.
  split.
  - rewrite Hrun. destruct (Z.eqb_spec match_pos 0); [contradiction |].
    reflexivity.
  - apply window_length; unfold available; fold cur_len; lia.
Qed.

Lemma simple_draft_replays_available_witness :
  NgramSimple.common_ngram_simple_draft ex_simple_state ex_history 2
  = Some (NgramSimple.set_idx_last_check ex_simple_state 12, [7; 8; 9])
  /\ size (window ex_history 7 3) = 3.
Proof.
  refine (simple_draft_replays_available ex_simple_state ex_history 2 5
            _ _ _ _ _ _ _); vm_compute; congruence.
Defined.

(** Of two positions of the search range where the pattern occurs, the
    search does not return the earlier one. *)
Lemma latest_match_later (inp pattern : llama_tokens) (len start mp : Z) :
  latest_match inp pattern len start mp ->
  forall j1 j2, 1 <= j1 -> j1 < j2 -> j2 <= start ->
    occurs_at inp pattern len j1 -> occurs_at inp pattern len j2 ->
    j1 < mp /\ j2 <= mp /\ occurs_at inp pattern len mp.
Proof.
  intros [Hrange [Hocc Hlast]] j1 j2 H1 H12 H2 Ho1 Ho2.
  destruct (Hlast j2) as [Hnz Hle]; [lia | assumption |].
  repeat split; [lia | lia | apply Hocc; exact Hnz].
Qed.

(** A drafter call that passes the throttle and the precondition and finds
    no match does move the cursor: here from 0 to 7. *)
Lemma simple_cursor_moves_without_match :
  size_t (NgramSimple.idx_last_check ex_simple_state
          + NgramSimple.check_rate (NgramSimple.config ex_simple_state))
    <= size ex_history_plain /\
  NgramSimple.size_ngram (NgramSimple.config ex_simple_state)
  + NgramSimple.size_mgram (NgramSimple.config ex_simple_state) + 1
    < size ex_history_plain /\
  search_back ex_history_plain (simple_pattern ex_history_plain 2 9) 2 4%nat
  = Some 0 /\
  exists state',
    NgramSimple.common_ngram_simple_draft ex_simple_state ex_history_plain 9
    = Some (state', []) /\
    NgramSimple.idx_last_check state'
    <> NgramSimple.idx_last_check ex_simple_state.
Proof.
  split; [vm_compute; congruence |].
  split; [vm_compute; congruence |]. split; [reflexivity |].
  exists (NgramSimple.set_idx_last_check ex_simple_state 7).
  split; [reflexivity | vm_compute; congruence].
Qed.

(** C3, amended. The cache sets [idx_last_check] to the length of the
    history whenever the guard and the throttle pass, also when no key
    match is found; the drafter does the same: on a call whose throttle and
    precondition pass, [idx_last_check] is set to the length of the history
    whether or not the backward scan finds a match. *)
Theorem cursor_set_when_checked :
  (forall (map : common_ngram_map) (inp : llama_tokens)
          (sampled : llama_token) (draft : llama_tokens),
     let n := size_key map in
     let m := size_value map in
     let cur_len := size inp in
     0 <= n -> 0 <= m -> cur_len < SIZE_MAX ->
     2 * n + m <= cur_len ->
     size_t (idx_last_check map + check_rate map) <= cur_len ->
     (forall map' draft',
        common_ngram_map_draft map inp sampled draft = Some (map', draft') ->
        idx_last_check map' = cur_len) /\
     (search_back inp (simple_pattern inp n sampled) n
        (Z.to_nat (size_t (cur_len - n - m - 1))) = Some 0 ->
      common_ngram_map_draft map inp sampled draft
      = Some (map_checked map cur_len, draft) /\
      idx_last_check (map_checked map cur_len) = cur_len))
  /\
  (forall (state : NgramSimple.common_ngram_simple_state)
          (tokens : llama_tokens) (sampled : llama_token),
     let n := NgramSimple.size_ngram (NgramSimple.config state) in
     let m := NgramSimple.size_mgram (NgramSimple.config state) in
     let cur_len := size tokens in
     0 <= n -> 0 <= m -> cur_len < SIZE_MAX ->
     size_t (NgramSimple.idx_last_check state
             + NgramSimple.check_rate (NgramSimple.config state))
       <= cur_len ->
     n + m + 1 < cur_len ->
     exists (state' : NgramSimple.common_ngram_simple_state)
            (draft_tokens : llama_tokens),
       NgramSimple.common_ngram_simple_draft state tokens sampled
       = Some (state', draft_tokens) /\
       NgramSimple.idx_last_check state' = cur_len).
Proof.
  split.
  - intros map inp sampled draft n m cur_len Hn Hm Hlen Hg Hthr.
    destruct (map_draft_run map inp sampled draft Hn Hm Hlen Hg Hthr)
      as [mp [Hs [Hlm Hrun]]].
    fold n m cur_len in Hs, Hrun. split.
    + intros map' draft' Hd. rewrite Hrun in Hd.
      destruct (mp =? 0).
      * injection Hd as <- _. reflexivity.
      * apply draft_at_match_config in Hd.
        destruct Hd as (_ & _ & _ & _ & _ & ->). reflexivity.
    + intros H0. rewrite H0 in Hs. injection Hs as <-.
      split; [exact Hrun | reflexivity].
  - intros state tokens sampled n m cur_len Hn Hm Hlen Hthr Hg.
    destruct (simple_draft_run state tokens sampled Hn Hm Hlen Hthr Hg)
      as [mp [_ [_ Hrun]]].
    eexists _, _. split; [exact Hrun | reflexivity].
Qed.

Lemma cursor_set_when_checked_witness :
  (common_ngram_map_draft ex_map ex_history_plain 9 []
   = Some (map_checked ex_map 7, []) /\
   idx_last_check (map_checked ex_map 7) = 7)
  /\
  (exists state' draft_tokens,
     NgramSimple.common_ngram_simple_draft ex_simple_state
       ex_history_plain 9 = Some (state', draft_tokens) /\
     NgramSimple.idx_last_check state' = 7).
Proof.
  destruct cursor_set_when_checked as [Hmap Hsimple]. split.
  - refine (proj2 (Hmap ex_map ex_history_plain 9 [] _ _ _ _ _) _);
      vm_compute; congruence.
  - refine (Hsimple ex_simple_state ex_history_plain 9 _ _ _ _ _);
      vm_compute; congruence.
Defined.

(** ** The claims on the cache *)

(** C8. A draft call of the cache that fails the guard
    ([len < 2 * n + m]) or the throttle
    ([len - idx_last_check < check_rate]) appends nothing to the draft and
    changes neither the throttle cursor nor any key: the only change of
    state is the reset of the three [last_draft_*] fields. *)
Theorem draft_short_or_throttled (map : common_ngram_map)
    (inp : llama_tokens) (sampled : llama_token) (draft : llama_tokens) :
  0 <= idx_last_check map + check_rate map < SIZE_MOD ->
  size inp < 2 * size_key map + size_value map \/
  size inp - idx_last_check map < check_rate map ->
  common_ngram_map_draft map inp sampled draft
  = Some (set_last_draft map false 0 0, draft) /\
  keys (set_last_draft map false 0 0) = keys map /\
  idx_last_check (set_last_draft map false 0 0) = idx_last_check map /\
  last_draft_created (set_last_draft map false 0 0) = false.
Proof.
  intros Hrange Hfail. split; [| repeat split].
  unfold common_ngram_map_draft.
  cbn [size_key size_value idx_last_check check_rate set_last_draft].
  destruct (Z.ltb_spec (size inp) (2 * size_key map + size_value map))
    as [Hshort | Hlong]; [reflexivity |].
  destruct Hfail as [Hshort | Hthr]; [lia |].
  rewrite size_t_small by exact Hrange.
  replace (_ >? size inp) with true
    by (symmetry; rewrite Z.gtb_ltb; apply Z.ltb_lt; lia).
  reflexivity.
Qed.

Lemma draft_short_or_throttled_witness :
  (common_ngram_map_draft ex_map [1; 2] 1 [5]
   = Some (set_last_draft ex_map false 0 0, [5]) /\
   keys (set_last_draft ex_map false 0 0) = keys ex_map /\
   idx_last_check (set_last_draft ex_map false 0 0) = idx_last_check ex_map /\
   last_draft_created (set_last_draft ex_map false 0 0) = false)
  /\
  (common_ngram_map_draft (set_idx_last_check ex_map 7) ex_history_plain 9 []
   = Some (set_last_draft (set_idx_last_check ex_map 7) false 0 0, []) /\
   keys (set_last_draft (set_idx_last_check ex_map 7) false 0 0)
   = keys (set_idx_last_check ex_map 7) /\
   idx_last_check (set_last_draft (set_idx_last_check ex_map 7) false 0 0)
   = idx_last_check (set_idx_last_check ex_map 7) /\
   last_draft_created (set_last_draft (set_idx_last_check ex_map 7) false 0 0)
   = false).
Proof.
  split.
  - apply (draft_short_or_throttled ex_map [1; 2] 1 [5]).
    + vm_compute. split; congruence.
    + left. vm_compute. reflexivity.
  - apply (draft_short_or_throttled (set_idx_last_check ex_map 7)
             ex_history_plain 9 []).
    + vm_compute. split; congruence.
    + right. vm_compute. reflexivity.
Defined.

(** *** Selection and confidence test *)

Lemma uint32_t_small (x : Z) : 0 <= x < 4294967296 -> uint32_t x = x.
Proof. intros H. unfold uint32_t. apply Z.mod_small. exact H. Qed.

Lemma select_four (a b c d : common_ngram_map_value) :
  is_uint16 (value_num a) -> is_uint16 (value_num b) ->
  is_uint16 (value_num c) -> is_uint16 (value_num d) ->
  exists max_occur slot_max : Z,
    max_loop [a; b; c; d] 0 COMMON_NGRAM_MAX_VALUES 0 0
    = Some (max_occur, slot_max) /\
    is_slot_max [a; b; c; d] slot_max max_occur /\
    sum_loop [a; b; c; d] slot_max 0 COMMON_NGRAM_MAX_VALUES 0
    = Some (value_num a + value_num b + value_num c + value_num d
            - max_occur).
Proof.
  unfold is_uint16. intros Ha Hb Hc Hd.
  unfold COMMON_NGRAM_MAX_VALUES. cbn [max_loop lookup list_lookup].
  repeat match goal with
         | |- context [?x >? ?y] => destruct (Z.gtb_spec x y)
         end;
    eexists _, _; (split; [reflexivity |]); (split; [split; [| split] |]).
  all: try (eexists; split; [reflexivity | lia]).
  all: try lia.
  all: try (intros [| [| [| [| v]]]] x Hx; cbn in Hx; simplify_eq; lia).
  all: cbn; rewrite ?uint32_t_small by lia; f_equal; lia.
Qed.

(** C4. In statistical mode the cache selects [slot_max], the slot of
    largest [value_num] and the lowest such slot, computes the sum
    [sum_other] of the counts of the other slots, and rejects the draft
    exactly when [sum_other > 0] and [value_num slot_max < 3 * sum_other].
    With the counts (9, 3) in two slots the draft is used, with (8, 3) it is
    rejected, and with one counted slot it is used whatever the count. *)
Theorem confidence_gate (map : common_ngram_map) (inp : llama_tokens)
    (match_pos key_offset : Z) (curr_key : common_ngram_map_key)
    (draft : llama_tokens) (a b c d : common_ngram_map_value) :
  values curr_key = [a; b; c; d] ->
  is_uint16 (value_num a) -> is_uint16 (value_num b) ->
  is_uint16 (value_num c) -> is_uint16 (value_num d) ->
  let run := draft_select map inp match_pos key_offset curr_key draft in
  (exists (max_occur slot_max sum_other : Z) (val : common_ngram_map_value),
     max_loop [a; b; c; d] 0 COMMON_NGRAM_MAX_VALUES 0 0
     = Some (max_occur, slot_max) /\
     sum_loop [a; b; c; d] slot_max 0 COMMON_NGRAM_MAX_VALUES 0
     = Some sum_other /\
     is_slot_max [a; b; c; d] slot_max max_occur /\
     [a; b; c; d] !! Z.to_nat slot_max = Some val /\
     value_num val = max_occur /\
     sum_other = value_num a + value_num b + value_num c + value_num d
                 - max_occur /\
     (sum_other > 0 /\ max_occur < 3 * sum_other ->
      run = Some (map, draft)) /\
     (~ (sum_other > 0 /\ max_occur < 3 * sum_other) ->
      run = emit_draft map inp match_pos key_offset val slot_max draft))
  /\ (value_num a = 9 -> value_num b = 3 -> value_num c = 0 ->
      value_num d = 0 ->
      run = emit_draft map inp match_pos key_offset a 0 draft)
  /\ (value_num a = 8 -> value_num b = 3 -> value_num c = 0 ->
      value_num d = 0 -> run = Some (map, draft))
  /\ (value_num b = 0 -> value_num c = 0 -> value_num d = 0 ->
      run = emit_draft map inp match_pos key_offset a 0 draft).
Proof.
  intros Hvals Ha Hb Hc Hd run.
  destruct (select_four a b c d Ha Hb Hc Hd)
    as (max_occur & slot_max & Hmax & Hsel & Hsum).
  assert (Hrun : run
    = if not_confident max_occur
           (value_num a + value_num b + value_num c + value_num d
            - max_occur)
      then Some (map, draft)
      else val <- [a; b; c; d] !! Z.to_nat slot_max ;;
           emit_draft map inp match_pos key_offset val slot_max draft).
  { unfold run, draft_select. rewrite Hvals, Hmax, Hsum. reflexivity. }
  destruct Hsel as ([val [Hval Hnum]] & Hslot & Hle).
  pose proof (Hle 0%nat a eq_refl) as [Ha' Ha''].
  pose proof (Hle 1%nat b eq_refl) as [Hb' Hb''].
  pose proof (Hle 2%nat c eq_refl) as [Hc' Hc''].
  pose proof (Hle 3%nat d eq_refl) as [Hd' Hd''].
  unfold is_uint16 in *.
  assert (Hnc : forall s, 0 <= s < 3 * 65536 ->
            not_confident max_occur s
            = true <-> (s > 0 /\ max_occur < 3 * s)).
  { intros s Hs. unfold not_confident. rewrite uint32_t_small by lia.
    rewrite andb_true_iff, Z.gtb_ltb, Z.ltb_lt, Z.ltb_lt. lia. }
  assert (Hcases : (slot_max = 0 /\ val = a) \/ (slot_max = 1 /\ val = b)
            \/ (slot_max = 2 /\ val = c) \/ (slot_max = 3 /\ val = d)).
  { destruct (Z.to_nat slot_max) as [| [| [| [| k]]]] eqn:E;
      cbn in Hval; simplify_eq;
      [left | right; left | right; right; left | right; right; right];
      split; (lia || reflexivity). }
  assert (Hmx : max_occur = value_num a \/ max_occur = value_num b
            \/ max_occur = value_num c \/ max_occur = value_num d)
    by (destruct Hcases as [[_ ->] | [[_ ->] | [[_ ->] | [_ ->]]]]; auto).
  split; [| split; [| split]].
  - eexists max_occur, slot_max, _, val.
    split; [exact Hmax |]. split; [exact Hsum |].
    split; [split; [eauto | split; assumption] |].
    split; [exact Hval |]. split; [exact Hnum |]. split; [reflexivity |].
    rewrite Hrun, Hval. split; intros Hcond.
    + apply Hnc in Hcond; [| lia]. rewrite Hcond. reflexivity.
    + destruct (not_confident _ _) eqn:E; [| reflexivity].
      apply Hnc in E; [contradiction | lia].
  - intros Ea Eb Ec Ed.
    assert (Hs : slot_max = 0 /\ val = a)
      by (destruct Hcases as [H | [[-> ->] | [[-> ->] | [-> ->]]]];
          [exact H | lia ..]).
    destruct Hs as [-> ->]. rewrite Hrun. cbn [lookup list_lookup Z.to_nat].
    destruct (not_confident _ _) eqn:E; [| reflexivity].
    apply Hnc in E; lia.
  - intros Ea Eb Ec Ed.
    rewrite Hrun.
    destruct (not_confident _ _) eqn:E; [reflexivity |].
    assert (Hn : not_confident max_occur
              (value_num a + value_num b + value_num c + value_num d
               - max_occur) = true); [| congruence].
    apply Hnc; lia.
  - intros Eb Ec Ed.
    assert (Hs : slot_max = 0 /\ val = a)
      by (destruct Hcases as [H | [[-> ->] | [[-> ->] | [-> ->]]]];
          [exact H | lia ..]).
    destruct Hs as [-> ->]. rewrite Hrun. cbn [lookup list_lookup Z.to_nat].
    destruct (not_confident _ _) eqn:E; [| reflexivity].
    apply Hnc in E; lia.
Qed.

Lemma confidence_gate_witness :
  draft_select ex_map ex_history 5 0 (ex_counted_key 9 3) []
  = Some (set_last_draft ex_map true 0 0, [2]) /\
  draft_select ex_map ex_history 5 0 (ex_counted_key 8 3) []
  = Some (ex_map, []).
Proof.
  split.
  - refine (proj1 (proj2 (confidence_gate ex_map ex_history 5 0
              (ex_counted_key 9 3) [] _ _ _ _ eq_refl _ _ _ _)) _ _ _ _);
      try reflexivity; unfold is_uint16; cbn; lia.
  - refine (proj1 (proj2 (proj2 (confidence_gate ex_map ex_history 5 0
              (ex_counted_key 8 3) [] _ _ _ _ eq_refl _ _ _ _))) _ _ _ _);
      try reflexivity; unfold is_uint16; cbn; lia.
Defined.

(** *** Accept feedback *)

Lemma max_loop_slot (vals : list common_ngram_map_value) (cnt : nat) :
  forall (v : nat) (mx sm mx' sm' : Z),
    max_loop vals v cnt mx sm = Some (mx', sm') -> 0 <= sm -> 0 <= sm'.
Proof.
  induction cnt as [| cnt IH]; intros v mx sm mx' sm' H Hsm; cbn in H.
  - injection H as _ <-. exact Hsm.
  - destruct (vals !! v) as [val |]; [| discriminate].
    destruct (value_num val >? mx); eapply IH; eauto; lia.
Qed.

Lemma draft_select_created (map : common_ngram_map) (inp : llama_tokens)
    (match_pos key_offset : Z) (curr_key : common_ngram_map_key)
    (draft : llama_tokens) (map' : common_ngram_map) (draft' : llama_tokens) :
  draft_select map inp match_pos key_offset curr_key draft
  = Some (map', draft') ->
  last_draft_created map = false -> last_draft_created map' = true ->
  exists slot val,
    0 <= slot /\ confident_in curr_key slot /\
    values curr_key !! Z.to_nat slot = Some val /\
    map' = set_last_draft map true key_offset slot.
Proof.
  unfold draft_select. intros H Hno Hyes.
  destruct (max_loop _ _ _ _ _) as [[max_occur slot_max] |] eqn:Hmax;
    [| discriminate].
  destruct (sum_loop _ _ _ _ _) as [sum_occur |] eqn:Hsum; [| discriminate].
  destruct (not_confident _ _) eqn:Hconf.
  - injection H as <- _. congruence.
  - destruct (values curr_key !! _) as [val |] eqn:Hval; [| discriminate].
    destruct (copy_loop _ _ _ _ _); [| discriminate].
    injection H as <- _. exists slot_max, val.
    split; [eapply max_loop_slot; eauto; lia |].
    split; [exists max_occur, sum_occur; auto | auto].
Qed.

(** *** What the statistics leave alone *)

Lemma find_key_range (inp key_tokens : llama_tokens) (n : Z)
    (ks : list common_ngram_map_key) :
  forall (i key_offset : Z),
    find_key inp key_tokens n ks i = Some key_offset ->
    i <= key_offset <= i + size ks.
Proof.
  induction ks as [| k ks IH]; intros i key_offset H; cbn in H.
  - injection H as <-. unfold size. cbn. lia.
  - destruct (ngram_eq _ _ _ _ _) as [[|] |]; [| | discriminate].
    + injection H as <-. unfold size. cbn. lia.
    + apply IH in H. unfold size in *. cbn [length]. lia.
Qed.

(** When a key is found, it is the key compared last, and it compared
    equal. *)
Lemma find_key_found (inp key_tokens : llama_tokens) (n : Z)
    (ks : list common_ngram_map_key) :
  forall i key_offset : Z,
    find_key inp key_tokens n ks i = Some key_offset ->
    key_offset < i + size ks ->
    exists k,
      ks !! Z.to_nat (key_offset - i) = Some k /\
      ngram_eq inp (key_idx k) key_tokens 0 n = Some true.
Proof.
  induction ks as [| k ks IH]; intros i key_offset H Hlt.
  - cbn in H. injection H as <-. unfold size in Hlt. cbn in Hlt. lia.
  - cbn [find_key] in H.
    destruct (ngram_eq _ _ _ _ _) as [[|] |] eqn:E; [| | discriminate].
    + injection H as <-. exists k. rewrite Z.sub_diag. auto.
    + pose proof (find_key_range _ _ _ _ _ _ H) as Hr.
      destruct (IH (i + 1) key_offset H) as (k' & Hk' & Ek').
      { unfold size in *. cbn [length] in Hlt. lia. }
      exists k'. split; [| exact Ek'].
      replace (Z.to_nat (key_offset - i))
        with (S (Z.to_nat (key_offset - (i + 1)))) by lia.
      exact Hk'.
Qed.

Lemma stat_step_frame (inp key_tokens : llama_tokens) (n m i : Z)
    (k k' : common_ngram_map_key) :
  stat_step inp key_tokens n m i k = Some k' ->
  key_idx k' = key_idx k /\ key_num k' = key_num k
  /\ stat_idx k' = stat_idx k.
Proof.
  unfold stat_step. intros H.
  repeat case_match; simplify_eq; cbn; auto.
Qed.

Lemma stat_loop_frame (inp key_tokens : llama_tokens) (n m : Z) (cnt : nat) :
  forall (i : Z) (k k' : common_ngram_map_key),
    stat_loop inp key_tokens n m i cnt k = Some k' ->
    key_idx k' = key_idx k /\ key_num k' = key_num k
    /\ stat_idx k' = stat_idx k.
Proof.
  induction cnt as [| cnt IH]; intros i k k' H; cbn in H.
  - injection H as <-. auto.
  - destruct (stat_step _ _ _ _ _ _) as [k1 |] eqn:Hstep; [| discriminate].
    apply stat_step_frame in Hstep. apply IH in H.
    intuition congruence.
Qed.

Lemma update_stats_frame (inp key_tokens : llama_tokens) (n m match_pos : Z)
    (k k' : common_ngram_map_key) :
  update_stats inp key_tokens n m match_pos k = Some k' ->
  key_idx k' = key_idx k /\ key_num k' = key_num k
  /\ stat_idx k' = match_pos.
Proof.
  unfold update_stats. intros H.
  destruct (match_pos =? SIZE_MAX); [discriminate |].
  destruct (stat_loop _ _ _ _ _ _ _) as [k1 |] eqn:Hloop; [| discriminate].
  injection H as <-. apply stat_loop_frame in Hloop. cbn. intuition.
Qed.

Lemma with_key_config (map : common_ngram_map) (key_offset match_pos : Z) :
  same_config map (with_key map key_offset match_pos) /\
  last_draft_created (with_key map key_offset match_pos)
  = last_draft_created map.
Proof.
  unfold with_key, same_config.
  destruct (key_offset =? size (keys map)); cbn; intuition congruence.
Qed.

(** The tokens that the copy loop of a draft appends. *)
Lemma draft_copy_window (inp : llama_tokens) (n m match_pos n_acc : Z)
    (draft draft' : llama_tokens) :
  0 <= n -> 0 <= m -> 0 <= match_pos -> match_pos + n + m <= size inp ->
  size inp < SIZE_MAX ->
  copy_loop inp (match_pos + n) 0 (Z.to_nat (Z.min m n_acc)) draft
  = Some draft' ->
  exists c, 0 <= c <= m /\ c = Z.max 0 (Z.min m n_acc) /\
            draft' = draft ++ window inp (match_pos + n) c.
Proof.
  intros Hn Hm Hp Hb Hlen H. unfold SIZE_MAX in Hlen.
  rewrite copy_loop_spec in H by lia. injection H as <-.
  exists (Z.of_nat (Z.to_nat (Z.min m n_acc))).
  split; [lia |]. split; [lia |]. rewrite Z.add_0_r. reflexivity.
Qed.

(** The key at the offset that [find_key] returns for an n-gram without
    key is the new key. *)
Lemma with_key_new (map : common_ngram_map) (match_pos : Z)
    (k : common_ngram_map_key) :
  keys (with_key map (size (keys map)) match_pos)
    !! Z.to_nat (size (keys map)) = Some k ->
  k = new_key match_pos (size_value map).
Proof.
  unfold with_key. rewrite Z.eqb_refl. cbn [keys set_keys]. intros H.
  rewrite lookup_app_r in H by (unfold size; lia).
  replace (Z.to_nat (size (keys map)) - length (keys map))%nat with 0%nat
    in H by (unfold size; lia).
  injection H as <-. reflexivity.
Qed.

(** What the draft call does with the match position, in each of its
    modes. *)
Lemma draft_at_match_uses (map : common_ngram_map) (inp : llama_tokens)
    (key_tokens : llama_tokens) (match_pos : Z) (draft : llama_tokens)
    (map' : common_ngram_map) (draft' : llama_tokens) :
  0 <= size_key map -> 0 <= size_value map -> size inp < SIZE_MAX ->
  0 <= match_pos -> match_pos + size_key map + size_value map <= size inp ->
  last_draft_created map = false ->
  draft_at_match map inp key_tokens match_pos draft = Some (map', draft') ->
  exists key_offset k1 k',
    match_used map inp key_tokens match_pos draft key_offset k1 k'
      map' draft'.
Proof.
  intros Hn Hm Hlen Hp Hb Hno H. unfold draft_at_match in H.
  destruct (find_key _ _ _ _ _) as [key_offset |] eqn:Hfind; [| discriminate].
  fold (with_key map key_offset match_pos) in H.
  destruct (with_key_config map key_offset match_pos)
    as [(En1 & Em1 & Eko1 & _ & Emh1 & _) Hcr].
  assert (Hnew : forall k, keys (with_key map key_offset match_pos)
                             !! Z.to_nat key_offset = Some k ->
                           key_offset = size (keys map) ->
                           key_idx k = match_pos).
  { intros k Hk ->. apply with_key_new in Hk. subst k. reflexivity. }
  set (map1 := with_key map key_offset match_pos) in *.
  destruct (keys map1 !! _) as [curr_key |] eqn:Hkey; [| discriminate].
  exists key_offset, curr_key. unfold match_used.
  rewrite Eko1, Emh1 in H.
  destruct (key_only map) eqn:Hko.
  - destruct (values _ !! 0%nat) as [val0 |] eqn:Hval0; [| discriminate].
    destruct (copy_loop _ _ _ _ _) as [d |] eqn:Hcopy; [| discriminate].
    injection H as <- <-.
    apply draft_copy_window in Hcopy; try assumption.
    destruct Hcopy as (c & _ & -> & ->).
    eexists. split; [exact Hfind |]. split; [exact Hkey |].
    split; [reflexivity |]. split; [reflexivity |].
    split; [reflexivity |]. split; [intros E; exact (Hnew curr_key eq_refl E) |].
    left. split; [reflexivity |]. split; [reflexivity |].
    exists val0. split; [exact Hval0 | reflexivity].
  - destruct (Z.ltb_spec (key_num (set_key_num curr_key
                                     (count_up (key_num curr_key))))
                (min_hits map)) as [Hhits | Hhits].
    + injection H as <- <-.
      eexists. split; [exact Hfind |]. split; [exact Hkey |].
      split; [reflexivity |]. split; [reflexivity |].
      split; [reflexivity |]. split; [intros E; exact (Hnew curr_key eq_refl E) |].
      right. left. split; [reflexivity |]. split; [exact Hhits |].
      split; [cbn; congruence | reflexivity].
    + destruct (update_stats _ _ _ _ _ _) as [curr_key' |] eqn:Hstat;
        [| discriminate].
      apply update_stats_frame in Hstat.
      destruct Hstat as (Eidx & Enum & Est). cbn in Eidx, Enum, Hhits.
      exists curr_key'. unfold draft_select in H.
      destruct (max_loop _ _ _ _ _) as [[max_occur slot_max] |];
        [| discriminate].
      destruct (sum_loop _ _ _ _ _) as [sum_occur |]; [| discriminate].
      destruct (not_confident _ _).
      * injection H as <- <-.
        split; [exact Hfind |]. split; [exact Hkey |].
        split; [reflexivity |]. split; [exact Eidx |].
        split; [exact Enum |].
        split; [intros E; rewrite Eidx; exact (Hnew curr_key eq_refl E) |].
        right. right. split; [reflexivity |]. split; [lia |].
        split; [exact Est |]. left.
        split; [cbn; congruence | reflexivity].
      * destruct (values curr_key' !! _) as [val |] eqn:Hval;
          [| discriminate].
        cbn [size_key size_value store_key set_keys] in H.
        rewrite En1, Em1 in H.
        destruct (copy_loop _ _ _ _ _) as [d |] eqn:Hcopy; [| discriminate].
        injection H as <- <-.
        apply draft_copy_window in Hcopy; try assumption.
        destruct Hcopy as (c & _ & -> & ->).
        split; [exact Hfind |]. split; [exact Hkey |].
        split; [reflexivity |]. split; [exact Eidx |].
        split; [exact Enum |].
        split; [intros E; rewrite Eidx; exact (Hnew curr_key eq_refl E) |].
        right. right. split; [reflexivity |]. split; [lia |].
        split; [exact Est |]. right.
        split; [reflexivity |]. split; [reflexivity |].
        exists val. split; [exact Hval | reflexivity].
Qed.

(** A draft is recorded for the feedback only by a call in complex mode
    that found its key often enough and was confident in a value. *)
Lemma draft_at_match_created (map : common_ngram_map) (inp : llama_tokens)
    (key_tokens : llama_tokens) (match_pos : Z) (draft : llama_tokens)
    (map' : common_ngram_map) (draft' : llama_tokens) :
  draft_at_match map inp key_tokens match_pos draft = Some (map', draft') ->
  last_draft_created map = false -> last_draft_created map' = true ->
  key_only map = false /\ pending_valid map' /\
  exists key,
    keys map' !! Z.to_nat (last_draft_key_idx map') = Some key /\
    min_hits map <= key_num key /\
    confident_in key (last_draft_value_idx map').
Proof.
  unfold draft_at_match. intros H Hno Hyes.
  destruct (find_key _ _ _ _ _) as [key_offset |] eqn:Hfind; [| discriminate].
  apply find_key_range in Hfind.
  fold (with_key map key_offset match_pos) in H.
  destruct (with_key_config map key_offset match_pos)
    as [(_ & _ & Hko & _ & Hmh & _) Hcr].
  set (map1 := with_key map key_offset match_pos) in *.
  destruct (keys map1 !! _) as [curr_key |] eqn:Hkey; [| discriminate].
  apply lookup_lt_Some in Hkey.
  rewrite Hko, Hmh in H. destruct (key_only map).
  - repeat case_match; simplify_eq; cbn in Hyes; discriminate.
  - split; [reflexivity |].
    destruct (_ <? min_hits map) eqn:Hhits.
    + simplify_eq. cbn in Hyes. congruence.
    + destruct (update_stats _ _ _ _ _ _) as [curr_key' |] eqn:Hstat;
        [| discriminate].
      apply update_stats_frame in Hstat. destruct Hstat as (_ & Hnum & _).
      apply draft_select_created in H; [| cbn; congruence | exact Hyes].
      destruct H as (slot & val & Hslot & Hconf & Hval & ->).
      unfold pending_valid.
      cbn [last_draft_key_idx last_draft_value_idx set_last_draft keys
           store_key set_keys].
      assert (Hlk : <[Z.to_nat key_offset := curr_key']> (keys map1)
                    !! Z.to_nat key_offset = Some curr_key')
        by (apply list_lookup_insert_eq; exact Hkey).
      split.
      * split; [lia |]. split; [exact Hslot |]. eauto.
      * exists curr_key'. split; [exact Hlk |]. split; [| exact Hconf].
        rewrite Hnum. apply Z.ltb_ge in Hhits. exact Hhits.
Qed.

Lemma draft_created (map : common_ngram_map) (inp : llama_tokens)
    (sampled : llama_token) (draft : llama_tokens)
    (map' : common_ngram_map) (draft' : llama_tokens) :
  common_ngram_map_draft map inp sampled draft = Some (map', draft') ->
  last_draft_created map' = true ->
  key_only map = false /\
  2 * size_key map + size_value map <= size inp /\
  size_t (idx_last_check map + check_rate map) <= size inp /\
  (exists key_tokens mp,
     make_key_tokens inp (size_key map) sampled = Some key_tokens /\
     search_back inp key_tokens (size_key map)
       (Z.to_nat (size_t (size inp - size_key map - size_value map - 1)))
     = Some mp /\ mp <> 0) /\
  pending_valid map' /\
  exists key,
    keys map' !! Z.to_nat (last_draft_key_idx map') = Some key /\
    min_hits map <= key_num key /\
    confident_in key (last_draft_value_idx map').
Proof.
  unfold common_ngram_map_draft.
  cbn [size_key size_value idx_last_check check_rate set_last_draft
       set_idx_last_check].
  intros H Hyes.
  destruct (Z.ltb_spec (size inp) (2 * size_key map + size_value map));
    [injection H as <- _; discriminate |].
  rewrite Z.gtb_ltb in H.
  destruct (Z.ltb_spec (size inp)
              (size_t (idx_last_check map + check_rate map)));
    [injection H as <- _; discriminate |].
  destruct (make_key_tokens _ _ _) as [key_tokens |]; [| discriminate].
  destruct (search_back _ _ _ _) as [mp |] eqn:Hs; [| discriminate].
  destruct (Z.eqb_spec mp 0); [injection H as <- _; discriminate |].
  apply draft_at_match_created in H; [| reflexivity | exact Hyes].
  destruct H as (Hko & Hpend & Hkey).
  split; [exact Hko |]. split; [assumption |]. split; [assumption |].
  split; [eauto |]. split; assumption.
Qed.

(** *** Accepted lengths and empty drafts *)


Lemma value_loop_accepted (inp : llama_tokens) (m vkey : Z) (cnt : nat) :
  forall (vals : list common_ngram_map_value) (v : nat)
         (vals' : list common_ngram_map_value) (idx_value : Z),
    value_loop inp m vkey vals v cnt = Some (vals', idx_value) ->
    0 <= m ->
    Forall (value_accepted_ok m) vals -> Forall (value_accepted_ok m) vals'.
Proof.
  induction cnt as [| cnt IH]; intros vals v vals' idx_value H Hm Hok;
    cbn in H.
  - injection H as <- _. exact Hok.
  - destruct (vals !! v) as [val |]; [| discriminate].
    destruct (value_idx val =? 0).
    + injection H as <- _. apply Forall_insert; [exact Hok |].
      unfold value_accepted_ok. cbn. lia.
    + destruct (ngram_eq _ _ _ _ _) as [[|] |]; [| | discriminate].
      * injection H as <- _. exact Hok.
      * eapply IH; eauto.
Qed.

Lemma stat_step_accepted (inp key_tokens : llama_tokens) (n m i : Z)
    (k k' : common_ngram_map_key) :
  stat_step inp key_tokens n m i k = Some k' -> 0 <= m ->
  key_accepted_ok m k -> key_accepted_ok m k'.
Proof.
  unfold stat_step, key_accepted_ok. intros H Hm Hok.
  destruct (ngram_eq _ _ _ _ _) as [[|] |]; cbn [negb] in H;
    [| injection H as <-; exact Hok | discriminate].
  destruct (value_loop _ _ _ _ _ _) as [[vals idx_value] |] eqn:Hloop;
    [| discriminate].
  apply value_loop_accepted in Hloop; [| exact Hm | exact Hok].
  destruct (0 <=? idx_value).
  - destruct (vals !! _) as [val |] eqn:Hval; [| discriminate].
    injection H as <-. cbn. apply Forall_insert; [exact Hloop |].
    exact (Forall_lookup_1 _ _ _ _ Hloop Hval).
  - injection H as <-. exact Hloop.
Qed.

Lemma stat_loop_accepted (inp key_tokens : llama_tokens) (n m : Z)
    (cnt : nat) :
  forall (i : Z) (k k' : common_ngram_map_key),
    stat_loop inp key_tokens n m i cnt k = Some k' -> 0 <= m ->
    key_accepted_ok m k -> key_accepted_ok m k'.
Proof.
  induction cnt as [| cnt IH]; intros i k k' H Hm Hok; cbn in H.
  - injection H as <-. exact Hok.
  - destruct (stat_step _ _ _ _ _ _) as [k1 |] eqn:Hstep; [| discriminate].
    eapply IH; [exact H | exact Hm |]. eapply stat_step_accepted; eauto.
Qed.

Lemma update_stats_accepted (inp key_tokens : llama_tokens)
    (n m match_pos : Z) (k k' : common_ngram_map_key) :
  update_stats inp key_tokens n m match_pos k = Some k' -> 0 <= m ->
  key_accepted_ok m k -> key_accepted_ok m k'.
Proof.
  unfold update_stats. intros H Hm Hok.
  destruct (match_pos =? SIZE_MAX); [discriminate |].
  destruct (stat_loop _ _ _ _ _ _ _) as [k1 |] eqn:Hloop; [| discriminate].
  injection H as <-. apply stat_loop_accepted in Hloop; assumption.
Qed.

Lemma with_key_accepted (map : common_ngram_map) (key_offset match_pos : Z) :
  0 <= size_value map -> accepted_ok map ->
  accepted_ok (with_key map key_offset match_pos).
Proof.
  unfold with_key, accepted_ok. intros Hm Hok.
  destruct (key_offset =? size (keys map)); [| exact Hok].
  cbn. apply Forall_app_2; [exact Hok |].
  constructor; [| constructor].
  unfold key_accepted_ok, value_accepted_ok. cbn.
  repeat constructor; cbn; lia.
Qed.



Lemma set_values_same (k : common_ngram_map_key) :
  set_values k (values k) = k.
Proof. destruct k. reflexivity. Qed.





Lemma draft_at_match_accepted (map : common_ngram_map) (inp : llama_tokens)
    (key_tokens : llama_tokens) (match_pos : Z) (draft : llama_tokens)
    (map' : common_ngram_map) (draft' : llama_tokens) :
  draft_at_match map inp key_tokens match_pos draft = Some (map', draft') ->
  0 <= size_value map -> accepted_ok map -> accepted_ok map'.
Proof.
  intros H Hm Hok.
  pose proof (draft_at_match_config _ _ _ _ _ _ _ H) as (_ & Em' & _).
  unfold draft_at_match in H.
  destruct (find_key _ _ _ _ _) as [key_offset |]; [| discriminate].
  fold (with_key map key_offset match_pos) in H.
  apply (with_key_accepted map key_offset match_pos Hm) in Hok.
  destruct (with_key_config map key_offset match_pos)
    as [(_ & Em & _) _].
  set (map1 := with_key map key_offset match_pos) in *.
  destruct (keys map1 !! _) as [curr_key |] eqn:Hkey; [| discriminate].
  pose proof (Forall_lookup_1 _ _ _ _ Hok Hkey) as Hcurr.
  unfold accepted_ok in *. rewrite Em'. rewrite Em in Hok, Hcurr.
  destruct (key_only map1).
  - repeat case_match; simplify_eq. cbn. apply Forall_insert; assumption.
  - destruct (_ <? min_hits map1).
    + simplify_eq. cbn. apply Forall_insert; assumption.
    + destruct (update_stats _ _ _ _ _ _) as [curr_key' |] eqn:Hstat;
        [| discriminate].
      apply update_stats_accepted in Hstat; [| exact Hm | exact Hcurr].
      apply draft_select_keys in H. rewrite H. cbn.
      apply Forall_insert; assumption.
Qed.

(** The accepted lengths stay between 0 and [size_value] across the draft
    calls, and across the accept calls that report at most [size_value]
    tokens. *)
Lemma draft_accepted (map : common_ngram_map) (inp : llama_tokens)
    (sampled : llama_token) (draft : llama_tokens)
    (map' : common_ngram_map) (draft' : llama_tokens) :
  common_ngram_map_draft map inp sampled draft = Some (map', draft') ->
  0 <= size_value map -> accepted_ok map -> accepted_ok map'.
Proof.
  unfold common_ngram_map_draft. intros H Hm Hok.
  destruct (_ <? _); [injection H as <- _; exact Hok |].
  destruct (_ >? _); [injection H as <- _; exact Hok |].
  destruct (make_key_tokens _ _ _) as [key_tokens |]; [| discriminate].
  destruct (search_back _ _ _ _) as [mp |]; [| discriminate].
  destruct (mp =? 0); [injection H as <- _; exact Hok |].
  eapply draft_at_match_accepted; [exact H | exact Hm | exact Hok].
Qed.

Lemma accept_accepted (map : common_ngram_map) (n_acc : Z)
    (map' : common_ngram_map) :
  common_ngram_map_accept map n_acc = Some map' ->
  0 <= n_acc <= size_value map -> accepted_ok map -> accepted_ok map'.
Proof.
  unfold common_ngram_map_accept. intros H Hn Hok.
  destruct (negb _); [injection H as <-; exact Hok |].
  destruct (keys map !! _) as [curr_key |] eqn:Hkey; [| discriminate].
  destruct (values curr_key !! _) as [curr_value |] eqn:Hval;
    [| discriminate].
  injection H as <-. unfold accepted_ok. cbn.
  apply Forall_insert; [exact Hok |].
  pose proof (Forall_lookup_1 _ _ _ _ Hok Hkey) as Hvals.
  unfold key_accepted_ok. cbn. apply Forall_insert; [exact Hvals |].
  unfold value_accepted_ok. cbn. exact Hn.
Qed.





(** *** The statistics of a key *)

Lemma count_up_range (x : Z) :
  0 <= x -> count_up x = Z.min (x + 1) COMMON_NGRAM_MAX_VALUE_COUNT.
Proof.
  intros Hx. unfold count_up, uint16_t, COMMON_NGRAM_MAX_VALUE_COUNT.
  apply Z.mod_small. lia.
Qed.

(** The value loop claims the first empty slot when the slots before it
    are in use for other m-grams. *)
Lemma value_loop_claims (inp : llama_tokens) (m vkey : Z)
    (vals : list common_ngram_map_value) (v0 : nat) (cnt : nat) :
  forall v : nat,
    (v <= v0 < v + cnt)%nat ->
    (exists val0, vals !! v0 = Some val0 /\ value_idx val0 = 0) ->
    (forall u val, (u < v0)%nat -> vals !! u = Some val ->
       value_idx val <> 0 /\
       ngram_eq inp vkey inp (value_idx val) m = Some false) ->
    value_loop inp m vkey vals v cnt
    = Some (<[v0 := {| value_idx := vkey; value_num := 0;
                       n_accepted := m |}]> vals, Z.of_nat v0).
Proof.
  induction cnt as [| cnt IH]; intros v Hv [val0 [Hval0 Hfree]] Hbefore;
    [lia |].
  cbn [value_loop].
  destruct (decide (v = v0)) as [-> | Hne].
  - rewrite Hval0, Hfree. reflexivity.
  - destruct (lookup_lt_is_Some_2 vals v) as [val Hval].
    { apply lookup_lt_Some in Hval0. lia. }
    rewrite Hval. destruct (Hbefore v val) as [Hused Hdiff]; [lia | exact Hval |].
    destruct (Z.eqb_spec (value_idx val) 0); [contradiction |].
    rewrite Hdiff. apply IH; [lia | eauto | exact Hbefore].
Qed.

(** The claim as the design document words it fails on a new key: the
    occurrence at position 1 claims slot 0, and the slot counts 1. *)
Lemma establishing_occurrence_is_tallied :
  ngram_eq [9; 1; 2; 3; 4] 1 [1] 0 1 = Some true /\
  (exists val0, values (new_key 1 1) !! 0%nat = Some val0 /\
                value_idx val0 = 0) /\
  exists key' val,
    stat_step [9; 1; 2; 3; 4] [1] 1 1 1 (new_key 1 1) = Some key' /\
    values key' !! 0%nat = Some val /\
    value_idx val = 2 /\ value_num val <> 0.
Proof.
  split; [reflexivity |]. split; [eexists; split; reflexivity |].
  eexists _, _. split; [reflexivity |]. split; [reflexivity |].
  split; [reflexivity | discriminate].
Qed.

(** C1, amended. In the statistics refresh, when the key occurs at
    position [i], the m-gram that follows matches none of the slots in use
    and a slot is free, the first free slot is claimed for that m-gram: its
    [value_idx] becomes [i + n], its [n_accepted] becomes [m], and, once the
    step has processed the occurrence, its [value_num] is 1: the slot is
    set to 0 and the occurrence that claims it is counted by the same
    increment as every other occurrence. *)
Theorem claimed_slot_counts_one (inp key_tokens : llama_tokens) (n m i : Z)
    (curr_key : common_ngram_map_key) (v0 : nat) :
  ngram_eq inp i key_tokens 0 n = Some true ->
  (v0 < COMMON_NGRAM_MAX_VALUES)%nat ->
  (exists val0, values curr_key !! v0 = Some val0 /\ value_idx val0 = 0) ->
  (forall u val, (u < v0)%nat -> values curr_key !! u = Some val ->
     value_idx val <> 0 /\
     ngram_eq inp (size_t (i + n)) inp (value_idx val) m = Some false) ->
  stat_step inp key_tokens n m i curr_key
  = Some (set_values curr_key
            (<[v0 := {| value_idx := size_t (i + n); value_num := 1;
                        n_accepted := m |}]> (values curr_key))).
Proof.
  intros Hkey Hv0 Hfree Hbefore. unfold stat_step. rewrite Hkey.
  cbn [negb].
  rewrite (value_loop_claims inp m (size_t (i + n)) (values curr_key) v0)
    by (lia || assumption).
  replace (0 <=? Z.of_nat v0) with true by (symmetry; apply Z.leb_le; lia).
  rewrite Nat2Z.id.
  destruct Hfree as [val0 [Hval0 _]]. apply lookup_lt_Some in Hval0.
  rewrite list_lookup_insert_eq by exact Hval0.
  rewrite list_insert_insert_eq. reflexivity.
Qed.

Lemma claimed_slot_counts_one_witness :
  stat_step ex_history_two [1] 1 1 4 ex_key_one_slot
  = Some (set_values ex_key_one_slot
            [ ex_slot 2 1;
              {| value_idx := 5; value_num := 1; n_accepted := 1 |};
              ex_slot 0 0; ex_slot 0 0 ]).
Proof.
  refine (claimed_slot_counts_one ex_history_two [1] 1 1 4 ex_key_one_slot
            1%nat eq_refl _ _ _).
  - unfold COMMON_NGRAM_MAX_VALUES. lia.
  - eexists. split; reflexivity.
  - intros u val Hu Hval. destruct u as [| u]; [| lia].
    injection Hval as <-. split; [discriminate | reflexivity].
Defined.

(** *** Saturating counters *)

Lemma count_up_ok (x : Z) : 0 <= x -> counter_ok (count_up x).
Proof.
  intros Hx. rewrite count_up_range by exact Hx.
  unfold counter_ok, COMMON_NGRAM_MAX_VALUE_COUNT. lia.
Qed.

Lemma value_loop_ok (inp : llama_tokens) (m vkey : Z) (cnt : nat) :
  forall (vals : list common_ngram_map_value) (v : nat)
         (vals' : list common_ngram_map_value) (idx_value : Z),
    value_loop inp m vkey vals v cnt = Some (vals', idx_value) ->
    Forall (fun v => counter_ok (value_num v)) vals ->
    Forall (fun v => counter_ok (value_num v)) vals'.
Proof.
  induction cnt as [| cnt IH]; intros vals v vals' idx_value H Hok;
    cbn in H.
  - injection H as <- _. exact Hok.
  - destruct (vals !! v) as [val |]; [| discriminate].
    destruct (value_idx val =? 0).
    + injection H as <- _. apply Forall_insert; [exact Hok |].
      unfold counter_ok, COMMON_NGRAM_MAX_VALUE_COUNT. cbn. lia.
    + destruct (ngram_eq _ _ _ _ _) as [[|] |]; [| | discriminate].
      * injection H as <- _. exact Hok.
      * eapply IH; eauto.
Qed.

Lemma stat_step_ok (inp key_tokens : llama_tokens) (n m i : Z)
    (k k' : common_ngram_map_key) :
  stat_step inp key_tokens n m i k = Some k' ->
  key_counters_ok k -> key_counters_ok k'.
Proof.
  intros H [Hnum Hvals].
  pose proof (stat_step_frame _ _ _ _ _ _ _ H) as (_ & Hn & _).
  split; [rewrite Hn; exact Hnum |].
  unfold stat_step in H.
  destruct (ngram_eq _ _ _ _ _) as [[|] |]; cbn [negb] in H;
    [| injection H as <-; exact Hvals | discriminate].
  destruct (value_loop _ _ _ _ _ _) as [[vals idx_value] |] eqn:Hloop;
    [| discriminate].
  apply value_loop_ok in Hloop; [| exact Hvals].
  destruct (0 <=? idx_value).
  - destruct (vals !! _) as [val |] eqn:Hval; [| discriminate].
    injection H as <-. cbn. apply Forall_insert; [exact Hloop |].
    cbn. apply count_up_ok.
    apply (Forall_lookup_1 _ _ _ _ Hloop Hval).
  - injection H as <-. exact Hloop.
Qed.

Lemma stat_loop_ok (inp key_tokens : llama_tokens) (n m : Z) (cnt : nat) :
  forall (i : Z) (k k' : common_ngram_map_key),
    stat_loop inp key_tokens n m i cnt k = Some k' ->
    key_counters_ok k -> key_counters_ok k'.
Proof.
  induction cnt as [| cnt IH]; intros i k k' H Hok; cbn in H.
  - injection H as <-. exact Hok.
  - destruct (stat_step _ _ _ _ _ _) as [k1 |] eqn:Hstep; [| discriminate].
    eapply IH; [exact H |]. eapply stat_step_ok; eauto.
Qed.

Lemma update_stats_ok (inp key_tokens : llama_tokens) (n m match_pos : Z)
    (k k' : common_ngram_map_key) :
  update_stats inp key_tokens n m match_pos k = Some k' ->
  key_counters_ok k -> key_counters_ok k'.
Proof.
  unfold update_stats. intros H Hok.
  destruct (match_pos =? SIZE_MAX); [discriminate |].
  destruct (stat_loop _ _ _ _ _ _ _) as [k1 |] eqn:Hloop; [| discriminate].
  injection H as <-. apply stat_loop_ok in Hloop; [| exact Hok].
  exact Hloop.
Qed.

Lemma new_key_ok (match_pos m : Z) : key_counters_ok (new_key match_pos m).
Proof.
  unfold key_counters_ok, counter_ok, COMMON_NGRAM_MAX_VALUE_COUNT. cbn.
  split; [lia |]. repeat constructor; cbn; lia.
Qed.

Lemma with_key_ok (map : common_ngram_map) (key_offset match_pos : Z) :
  counters_ok map -> counters_ok (with_key map key_offset match_pos).
Proof.
  unfold with_key, counters_ok. intros Hok.
  destruct (key_offset =? size (keys map)); [| exact Hok].
  cbn. apply Forall_app_2; [exact Hok |].
  constructor; [apply new_key_ok | constructor].
Qed.

Lemma draft_at_match_ok (map : common_ngram_map) (inp : llama_tokens)
    (key_tokens : llama_tokens) (match_pos : Z) (draft : llama_tokens)
    (map' : common_ngram_map) (draft' : llama_tokens) :
  draft_at_match map inp key_tokens match_pos draft = Some (map', draft') ->
  counters_ok map -> counters_ok map'.
Proof.
  unfold draft_at_match. intros H Hok.
  destruct (find_key _ _ _ _ _) as [key_offset |]; [| discriminate].
  fold (with_key map key_offset match_pos) in H.
  apply (with_key_ok map key_offset match_pos) in Hok.
  set (map1 := with_key map key_offset match_pos) in *.
  destruct (keys map1 !! _) as [curr_key |] eqn:Hkey; [| discriminate].
  pose proof (Forall_lookup_1 _ _ _ _ Hok Hkey) as [Hnum Hvals].
  assert (Hcurr : key_counters_ok
            (set_key_num curr_key (count_up (key_num curr_key))))
    by (split; [apply count_up_ok, Hnum | exact Hvals]).
  destruct (key_only map1).
  - repeat case_match; simplify_eq.
    unfold counters_ok. cbn. apply Forall_insert; assumption.
  - destruct (_ <? min_hits map1).
    + simplify_eq. unfold counters_ok. cbn. apply Forall_insert; assumption.
    + destruct (update_stats _ _ _ _ _ _) as [curr_key' |] eqn:Hstat;
        [| discriminate].
      apply update_stats_ok in Hstat; [| exact Hcurr].
      apply draft_select_keys in H. unfold counters_ok. rewrite H. cbn.
      apply Forall_insert; assumption.
Qed.

Lemma draft_ok (map : common_ngram_map) (inp : llama_tokens)
    (sampled : llama_token) (draft : llama_tokens)
    (map' : common_ngram_map) (draft' : llama_tokens) :
  common_ngram_map_draft map inp sampled draft = Some (map', draft') ->
  counters_ok map -> counters_ok map'.
Proof.
  unfold common_ngram_map_draft. intros H Hok.
  destruct (_ <? _); [injection H as <- _; exact Hok |].
  destruct (_ >? _); [injection H as <- _; exact Hok |].
  destruct (make_key_tokens _ _ _) as [key_tokens |]; [| discriminate].
  destruct (search_back _ _ _ _) as [mp |]; [| discriminate].
  destruct (mp =? 0); [injection H as <- _; exact Hok |].
  eapply draft_at_match_ok; [exact H | exact Hok].
Qed.

Lemma accept_ok (map : common_ngram_map) (n_acc : Z)
    (map' : common_ngram_map) :
  common_ngram_map_accept map n_acc = Some map' ->
  counters_ok map -> counters_ok map'.
Proof.
  unfold common_ngram_map_accept. intros H Hok.
  destruct (negb _); [injection H as <-; exact Hok |].
  destruct (keys map !! _) as [curr_key |] eqn:Hkey; [| discriminate].
  destruct (values curr_key !! _) as [curr_value |] eqn:Hval;
    [| discriminate].
  injection H as <-. unfold counters_ok. cbn.
  apply Forall_insert; [exact Hok |].
  pose proof (Forall_lookup_1 _ _ _ _ Hok Hkey) as [Hnum Hvals].
  split; [exact Hnum |]. cbn. apply Forall_insert; [exact Hvals |].
  cbn. apply (Forall_lookup_1 _ _ _ _ Hvals Hval).
Qed.

Lemma do_call_ok (map : common_ngram_map) (c : call)
    (map' : common_ngram_map) :
  do_call map c = Some map' -> counters_ok map -> counters_ok map'.
Proof.
  destruct c as [inp sampled | n_acc]; cbn; intros H Hok.
  - destruct (common_ngram_map_draft _ _ _ _) as [[map1 draft'] |] eqn:Hd;
      [| discriminate].
    injection H as <-. eapply draft_ok; eauto.
  - eapply accept_ok; eauto.
Qed.

Lemma run_ok (calls : list call) :
  forall map map' : common_ngram_map,
    run map calls = Some map' -> counters_ok map -> counters_ok map'.
Proof.
  induction calls as [| c calls IH]; intros map map' H Hok; cbn in H.
  - injection H as <-. exact Hok.
  - destruct (do_call map c) as [map1 |] eqn:Hc; [| discriminate].
    eapply IH; [exact H |]. eapply do_call_ok; eauto.
Qed.

Lemma count_up_iter (x : Z) (k : nat) :
  counter_ok x ->
  Nat.iter k count_up x
  = Z.min (x + Z.of_nat k) COMMON_NGRAM_MAX_VALUE_COUNT.
Proof.
  unfold counter_ok. intros Hx. induction k as [| k IH].
  - cbn. lia.
  - rewrite Nat.iter_succ, IH. rewrite count_up_range by lia. lia.
Qed.

(** The value loop stops at the first slot that holds the m-gram. *)
Lemma value_loop_finds (inp : llama_tokens) (m vkey : Z)
    (vals : list common_ngram_map_value) (v0 : nat) (cnt : nat) :
  forall v : nat,
    (v <= v0 < v + cnt)%nat ->
    (exists val0, vals !! v0 = Some val0 /\ value_idx val0 <> 0 /\
       ngram_eq inp vkey inp (value_idx val0) m = Some true) ->
    (forall u val, (u < v0)%nat -> vals !! u = Some val ->
       value_idx val <> 0 /\
       ngram_eq inp vkey inp (value_idx val) m = Some false) ->
    value_loop inp m vkey vals v cnt = Some (vals, Z.of_nat v0).
Proof.
  induction cnt as [| cnt IH];
    intros v Hv (val0 & Hval0 & Hused0 & Hsame) Hbefore; [lia |].
  cbn [value_loop].
  destruct (decide (v = v0)) as [-> | Hne].
  - rewrite Hval0. destruct (Z.eqb_spec (value_idx val0) 0); [contradiction |].
    rewrite Hsame. reflexivity.
  - destruct (lookup_lt_is_Some_2 vals v) as [val Hval].
    { apply lookup_lt_Some in Hval0. lia. }
    rewrite Hval. destruct (Hbefore v val) as [Hused Hdiff];
      [lia | exact Hval |].
    destruct (Z.eqb_spec (value_idx val) 0); [contradiction |].
    rewrite Hdiff. apply IH; [lia | eauto | exact Hbefore].
Qed.

(** An occurrence of the key followed by the m-gram of a slot in use
    counts that slot up. *)
Lemma stat_step_counts (inp key_tokens : llama_tokens) (n m i : Z)
    (curr_key : common_ngram_map_key) (v0 : nat)
    (val0 : common_ngram_map_value) :
  ngram_eq inp i key_tokens 0 n = Some true ->
  (v0 < COMMON_NGRAM_MAX_VALUES)%nat ->
  values curr_key !! v0 = Some val0 -> value_idx val0 <> 0 ->
  ngram_eq inp (size_t (i + n)) inp (value_idx val0) m = Some true ->
  (forall u val, (u < v0)%nat -> values curr_key !! u = Some val ->
     value_idx val <> 0 /\
     ngram_eq inp (size_t (i + n)) inp (value_idx val) m = Some false) ->
  stat_step inp key_tokens n m i curr_key
  = Some (set_values curr_key
            (<[v0 := set_value_num val0 (count_up (value_num val0))]>
               (values curr_key))).
Proof.
  intros Hkey Hv0 Hval0 Hused Hsame Hbefore. unfold stat_step. rewrite Hkey.
  cbn [negb].
  rewrite (value_loop_finds inp m (size_t (i + n)) (values curr_key) v0)
    by (lia || eauto).
  replace (0 <=? Z.of_nat v0) with true by (symmetry; apply Z.leb_le; lia).
  rewrite Nat2Z.id, Hval0. reflexivity.
Qed.

(** Every call that finds a match counts the key up. *)
Lemma draft_at_match_hit (map : common_ngram_map) (inp : llama_tokens)
    (key_tokens : llama_tokens) (match_pos : Z) (draft : llama_tokens)
    (map' : common_ngram_map) (draft' : llama_tokens) (key_offset : Z)
    (k : common_ngram_map_key) :
  find_key inp key_tokens (size_key map) (keys map) 0 = Some key_offset ->
  keys (with_key map key_offset match_pos) !! Z.to_nat key_offset = Some k ->
  draft_at_match map inp key_tokens match_pos draft = Some (map', draft') ->
  exists k', keys map' !! Z.to_nat key_offset = Some k' /\
             key_num k' = count_up (key_num k).
Proof.
  unfold draft_at_match. intros Hfind Hkey H. rewrite Hfind in H.
  fold (with_key map key_offset match_pos) in H.
  set (map1 := with_key map key_offset match_pos) in *.
  rewrite Hkey in H. pose proof (lookup_lt_Some _ _ _ Hkey) as Hlt.
  destruct (key_only map1).
  - repeat case_match; simplify_eq. eexists. cbn.
    split; [apply list_lookup_insert_eq; exact Hlt | reflexivity].
  - destruct (_ <? min_hits map1).
    + simplify_eq. eexists. cbn.
      split; [apply list_lookup_insert_eq; exact Hlt | reflexivity].
    + destruct (update_stats _ _ _ _ _ _) as [curr_key' |] eqn:Hstat;
        [| discriminate].
      apply update_stats_frame in Hstat. destruct Hstat as (_ & Hnum & _).
      apply draft_select_keys in H. rewrite H. exists curr_key'. cbn.
      split; [apply list_lookup_insert_eq; exact Hlt | exact Hnum].
Qed.

(** *** Reads inside the history *)

Lemma search_back_range (inp pattern : llama_tokens) (len : Z) (start : nat) :
  forall mp, search_back inp pattern len start = Some mp ->
             0 <= mp <= Z.of_nat start.
Proof.
  induction start as [| start IH]; intros mp H; cbn [search_back] in H.
  - injection H as <-. lia.
  - destruct (ngram_eq _ _ _ _ _) as [[|] |]; [| | discriminate].
    + injection H as <-. lia.
    + apply IH in H. lia.
Qed.

Section Anchors.

Variables (inp key_tokens : llama_tokens) (n m len : Z).
Hypothesis Hn : 1 <= n.
Hypothesis Hm : 0 <= m.
Hypothesis Hlen : len < SIZE_MAX.

(** Preservation: what a step records lies inside the first [len]
    tokens when the position it works at does. *)

Lemma value_loop_anchors (vkey : Z) (cnt : nat) :
  forall (vals : list common_ngram_map_value) (v : nat)
         (vals' : list common_ngram_map_value) (idx_value : Z),
    value_loop inp m vkey vals v cnt = Some (vals', idx_value) ->
    0 <= vkey -> vkey + m <= len ->
    Forall (value_anchor_ok m len) vals ->
    Forall (value_anchor_ok m len) vals' /\
    length vals' = length vals /\
    (idx_value = -1 \/ 0 <= idx_value < size vals).
Proof.
  induction cnt as [| cnt IH]; intros vals v vals' idx_value H Hk Hkm Hok;
    cbn in H.
  - injection H as <- <-. auto.
  - destruct (vals !! v) as [val |] eqn:Hval; [| discriminate].
    apply lookup_lt_Some in Hval.
    destruct (value_idx val =? 0).
    + injection H as <- <-. split; [| split].
      * apply Forall_insert; [exact Hok |]. split; cbn; lia.
      * apply length_insert.
      * right. unfold size. lia.
    + destruct (ngram_eq _ _ _ _ _) as [[|] |]; [| | discriminate].
      * injection H as <- <-. split; [exact Hok |]. split; [reflexivity |].
        right. unfold size. lia.
      * eapply IH; eauto.
Qed.

Lemma stat_step_anchors (i : Z) (k k' : common_ngram_map_key) :
  stat_step inp key_tokens n m i k = Some k' ->
  0 <= i -> i + n + m <= len ->
  key_anchor_ok n m len k -> key_anchor_ok n m len k'.
Proof.
  intros H Hi Hb (Hk1 & Hk2 & Hk3 & Hk4 & Hk5).
  pose proof (stat_step_frame _ _ _ _ _ _ _ H) as (E1 & _ & E3).
  unfold key_anchor_ok. rewrite E1, E3.
  split; [exact Hk1 |]. split; [exact Hk2 |]. split; [exact Hk3 |].
  unfold stat_step in H.
  destruct (ngram_eq _ _ _ _ _) as [[|] |]; cbn [negb] in H;
    [| injection H as <-; split; assumption | discriminate].
  destruct (value_loop _ _ _ _ _ _) as [[vals idx_value] |] eqn:Hloop;
    [| discriminate].
  unfold SIZE_MAX in Hlen. rewrite size_t_small in Hloop by lia.
  apply value_loop_anchors in Hloop; [| lia | lia | exact Hk5].
  destruct Hloop as (Hok & Hlength & _).
  destruct (0 <=? idx_value).
  - destruct (vals !! _) as [val |] eqn:Hval; [| discriminate].
    injection H as <-. cbn. rewrite length_insert. split; [congruence |].
    apply Forall_insert; [exact Hok |].
    exact (Forall_lookup_1 _ _ _ _ Hok Hval).
  - injection H as <-. cbn. split; [congruence | exact Hok].
Qed.

Lemma stat_loop_anchors (cnt : nat) :
  forall (i : Z) (k k' : common_ngram_map_key),
    stat_loop inp key_tokens n m i cnt k = Some k' ->
    0 <= i -> ((0 < cnt)%nat -> i + Z.of_nat cnt - 1 + n + m <= len) ->
    key_anchor_ok n m len k -> key_anchor_ok n m len k'.
Proof.
  induction cnt as [| cnt IH]; intros i k k' H Hi Hb Hok; cbn in H.
  - injection H as <-. exact Hok.
  - destruct (stat_step _ _ _ _ _ _) as [k1 |] eqn:Hstep; [| discriminate].
    apply stat_step_anchors in Hstep; [| lia | lia | exact Hok].
    eapply IH; [exact H | lia | lia | exact Hstep].
Qed.

Lemma update_stats_anchors (match_pos : Z) (k k' : common_ngram_map_key) :
  update_stats inp key_tokens n m match_pos k = Some k' ->
  0 <= match_pos -> match_pos + n + m <= len ->
  key_anchor_ok n m len k -> key_anchor_ok n m len k'.
Proof.
  unfold update_stats. intros H Hp Hb Hok.
  destruct (match_pos =? SIZE_MAX); [discriminate |].
  destruct (stat_loop _ _ _ _ _ _ _) as [k1 |] eqn:Hloop; [| discriminate].
  injection H as <-.
  assert (Hs : 0 <= stat_idx k) by apply Hok.
  apply stat_loop_anchors in Hloop; [| lia | lia | exact Hok].
  destruct Hloop as (H1 & H2 & H3 & H4 & H5).
  unfold key_anchor_ok. cbn. auto.
Qed.

End Anchors.

Section Reads.

Variables (inp key_tokens : llama_tokens) (n m : Z).
Hypothesis Hn : 1 <= n.
Hypothesis Hm : 0 <= m.
Hypothesis Hlen : size inp < SIZE_MAX.
Hypothesis Hkey : size key_tokens = n.

(** Totality: with the anchors inside the history, every read of a step
    is inside the history. *)

Lemma value_loop_total (vkey : Z) (cnt : nat) :
  forall (vals : list common_ngram_map_value) (v : nat),
    0 <= vkey -> vkey + m <= size inp ->
    Forall (value_anchor_ok m (size inp)) vals ->
    (v + cnt <= length vals)%nat ->
    is_Some (value_loop inp m vkey vals v cnt).
Proof.
  unfold SIZE_MAX in Hlen.
  induction cnt as [| cnt IH]; intros vals v Hk Hkm Hok Hv;
    cbn [value_loop]; [eauto |].
  destruct (lookup_lt_is_Some_2 vals v) as [val Hval]; [lia |].
  rewrite Hval. destruct (Z.eqb_spec (value_idx val) 0) as [Hz | Hnz];
    [eauto |].
  destruct (Forall_lookup_1 _ _ _ _ Hok Hval) as [Hpos Hin].
  specialize (Hin Hnz).
  destruct (ngram_eq_spec inp vkey inp (value_idx val) m) as [r [Hr _]];
    try lia.
  rewrite Hr. destruct r; [eauto |]. apply IH; try assumption. lia.
Qed.

Lemma stat_step_total (i : Z) (k : common_ngram_map_key) :
  0 <= i -> i + n + m <= size inp ->
  key_anchor_ok n m (size inp) k ->
  is_Some (stat_step inp key_tokens n m i k).
Proof.
  intros Hi Hb (Hk1 & Hk2 & Hk3 & Hk4 & Hk5). unfold stat_step.
  pose proof Hlen as Hlen'. unfold SIZE_MAX in Hlen'.
  destruct (ngram_eq_spec inp i key_tokens 0 n) as [r [Hr _]]; try lia.
  rewrite Hr. destruct r; cbn [negb]; [| eauto].
  rewrite size_t_small by lia.
  destruct (value_loop_total (i + n) COMMON_NGRAM_MAX_VALUES (values k) 0)
    as [[vals idx_value] Hloop]; try lia; [exact Hk5 |].
  rewrite Hloop.
  apply (value_loop_anchors inp m (size inp)) in Hloop;
    [| lia | lia | exact Hk5].
  destruct Hloop as (_ & Hlength & Hidx).
  destruct (Z.leb_spec 0 idx_value); [| eauto].
  destruct (lookup_lt_is_Some_2 vals (Z.to_nat idx_value)) as [val Hval].
  { unfold size in Hidx. lia. }
  rewrite Hval. eauto.
Qed.

Lemma stat_loop_total (cnt : nat) :
  forall (i : Z) (k : common_ngram_map_key),
    0 <= i -> ((0 < cnt)%nat -> i + Z.of_nat cnt - 1 + n + m <= size inp) ->
    key_anchor_ok n m (size inp) k ->
    is_Some (stat_loop inp key_tokens n m i cnt k).
Proof.
  induction cnt as [| cnt IH]; intros i k Hi Hb Hok; cbn [stat_loop];
    [eauto |].
  destruct (stat_step_total i k) as [k1 Hstep]; [lia | lia | exact Hok |].
  rewrite Hstep.
  apply (stat_step_anchors inp key_tokens n m (size inp) Hn Hm Hlen)
    in Hstep; [| lia | lia | exact Hok].
  apply IH; [lia | lia | exact Hstep].
Qed.

Lemma update_stats_total (match_pos : Z) (k : common_ngram_map_key) :
  0 <= match_pos -> match_pos + n + m <= size inp ->
  key_anchor_ok n m (size inp) k ->
  is_Some (update_stats inp key_tokens n m match_pos k).
Proof.
  intros Hp Hb Hok. unfold update_stats.
  destruct (Z.eqb_spec match_pos SIZE_MAX); [lia |].
  assert (Hs : 0 <= stat_idx k) by apply Hok.
  destruct (stat_loop_total (Z.to_nat (match_pos - stat_idx k + 1))
              (stat_idx k) k) as [k1 Hloop]; [lia | lia | exact Hok |].
  rewrite Hloop. eauto.
Qed.

Lemma find_key_total (ks : list common_ngram_map_key) :
  forall i : Z,
    Forall (key_anchor_ok n m (size inp)) ks ->
    is_Some (find_key inp key_tokens n ks i).
Proof.
  unfold SIZE_MAX in Hlen.
  induction ks as [| k ks IH]; intros i Hok; cbn [find_key]; [eauto |].
  apply Forall_cons in Hok. destruct Hok as [(Hk1 & Hk2 & _) Hrest].
  destruct (ngram_eq_spec inp (key_idx k) key_tokens 0 n) as [r [Hr _]];
    try lia.
  rewrite Hr. destruct r; [eauto | apply IH; exact Hrest].
Qed.

End Reads.

Lemma max_loop_total (vals : list common_ngram_map_value) (cnt : nat) :
  forall (v : nat) (mx sm : Z),
    (v + cnt <= length vals)%nat -> 0 <= sm < size vals ->
    exists mx' sm', max_loop vals v cnt mx sm = Some (mx', sm') /\
                    0 <= sm' < size vals.
Proof.
  induction cnt as [| cnt IH]; intros v mx sm Hv Hsm; cbn [max_loop];
    [eauto |].
  destruct (lookup_lt_is_Some_2 vals v) as [val Hval]; [lia |].
  rewrite Hval. destruct (value_num val >? mx); apply IH; try lia.
  unfold size. lia.
Qed.

Lemma sum_loop_total (vals : list common_ngram_map_value) (slot_max : Z)
    (cnt : nat) :
  forall (v : nat) (sum_occur : Z),
    (v + cnt <= length vals)%nat ->
    is_Some (sum_loop vals slot_max v cnt sum_occur).
Proof.
  induction cnt as [| cnt IH]; intros v sum_occur Hv; cbn [sum_loop];
    [eauto |].
  destruct (Z.of_nat v =? slot_max); [apply IH; lia |].
  destruct (lookup_lt_is_Some_2 vals v) as [val Hval]; [lia |].
  rewrite Hval. apply IH. lia.
Qed.

Lemma draft_copy_total (inp : llama_tokens) (n m match_pos n_acc : Z)
    (draft : llama_tokens) :
  0 <= n -> 0 <= m -> 0 <= match_pos -> match_pos + n + m <= size inp ->
  size inp < SIZE_MAX ->
  is_Some (copy_loop inp (match_pos + n) 0 (Z.to_nat (Z.min m n_acc)) draft).
Proof.
  intros Hn Hm Hp Hb Hlen. unfold SIZE_MAX in Hlen.
  rewrite copy_loop_spec by lia. eauto.
Qed.

Lemma draft_select_total (map : common_ngram_map) (inp : llama_tokens)
    (match_pos key_offset : Z) (curr_key : common_ngram_map_key)
    (draft : llama_tokens) :
  0 <= size_key map -> 0 <= size_value map -> 0 <= match_pos ->
  match_pos + size_key map + size_value map <= size inp ->
  size inp < SIZE_MAX ->
  length (values curr_key) = COMMON_NGRAM_MAX_VALUES ->
  is_Some (draft_select map inp match_pos key_offset curr_key draft).
Proof.
  intros Hn Hm Hp Hb Hlen Hfour. unfold draft_select.
  destruct (max_loop_total (values curr_key) COMMON_NGRAM_MAX_VALUES 0 0 0)
    as (max_occur & slot_max & Hmax & Hslot).
  { rewrite Hfour. lia. }
  { unfold size. rewrite Hfour. unfold COMMON_NGRAM_MAX_VALUES. lia. }
  rewrite Hmax.
  destruct (sum_loop_total (values curr_key) slot_max
              COMMON_NGRAM_MAX_VALUES 0 0) as [sum_occur Hsum];
    [rewrite Hfour; lia |].
  rewrite Hsum. destruct (not_confident _ _); [eauto |].
  destruct (lookup_lt_is_Some_2 (values curr_key) (Z.to_nat slot_max))
    as [val Hval]; [unfold size in Hslot; lia |].
  rewrite Hval.
  destruct (draft_copy_total inp (size_key map) (size_value map) match_pos
              (n_accepted val) draft) as [draft' Hcopy]; try assumption.
  rewrite Hcopy. eauto.
Qed.

Lemma new_key_anchors (n m len match_pos : Z) :
  0 <= match_pos -> match_pos + n <= len ->
  key_anchor_ok n m len (new_key match_pos m).
Proof.
  intros Hp Hb. unfold key_anchor_ok, new_key. cbn.
  split; [exact Hp |]. split; [exact Hb |]. split; [lia |].
  split; [reflexivity |].
  repeat constructor; cbn; lia.
Qed.

Lemma with_key_anchors (map : common_ngram_map) (key_offset match_pos len : Z) :
  anchors_ok map len -> 0 <= match_pos -> match_pos + size_key map <= len ->
  anchors_ok (with_key map key_offset match_pos) len.
Proof.
  unfold with_key, anchors_ok. intros Hok Hp Hb.
  destruct (key_offset =? size (keys map)); [| exact Hok].
  cbn. apply Forall_app_2; [exact Hok |].
  constructor; [apply new_key_anchors; assumption | constructor].
Qed.

Lemma store_key_anchors (map : common_ngram_map) (key_offset len : Z)
    (k : common_ngram_map_key) :
  anchors_ok map len ->
  key_anchor_ok (size_key map) (size_value map) len k ->
  anchors_ok (store_key map key_offset k) len.
Proof.
  unfold anchors_ok. intros Hok Hk. cbn. apply Forall_insert; assumption.
Qed.

Lemma set_key_num_anchors (n m len x : Z) (k : common_ngram_map_key) :
  key_anchor_ok n m len k -> key_anchor_ok n m len (set_key_num k x).
Proof. unfold key_anchor_ok. cbn. tauto. Qed.

(** The anchors stay inside the first [len] tokens across the part of the
    draft call that follows a match. *)
Lemma draft_at_match_anchors (map : common_ngram_map) (inp : llama_tokens)
    (key_tokens : llama_tokens) (match_pos len : Z) (draft : llama_tokens)
    (map' : common_ngram_map) (draft' : llama_tokens) :
  draft_at_match map inp key_tokens match_pos draft = Some (map', draft') ->
  1 <= size_key map -> 0 <= size_value map -> len < SIZE_MAX ->
  0 <= match_pos -> match_pos + size_key map + size_value map <= len ->
  anchors_ok map len -> anchors_ok map' len.
Proof.
  intros H Hn Hm Hlen Hp Hb Hok.
  pose proof (draft_at_match_config _ _ _ _ _ _ _ H) as (En & Em & _).
  unfold draft_at_match in H.
  destruct (find_key _ _ _ _ _) as [key_offset |]; [| discriminate].
  fold (with_key map key_offset match_pos) in H.
  apply (with_key_anchors map key_offset match_pos) in Hok; [| lia | lia].
  destruct (with_key_config map key_offset match_pos)
    as [(En1 & Em1 & _) _].
  set (map1 := with_key map key_offset match_pos) in *.
  destruct (keys map1 !! _) as [curr_key |] eqn:Hkey; [| discriminate].
  pose proof (Forall_lookup_1 _ _ _ _ Hok Hkey) as Hcurr.
  apply (set_key_num_anchors _ _ _ (count_up (key_num curr_key))) in Hcurr.
  destruct (key_only map1).
  - repeat case_match; simplify_eq.
    apply (store_key_anchors map1 key_offset len) in Hcurr; [| exact Hok].
    exact Hcurr.
  - destruct (_ <? min_hits map1).
    + simplify_eq. apply store_key_anchors; assumption.
    + destruct (update_stats _ _ _ _ _ _) as [curr_key' |] eqn:Hstat;
        [| discriminate].
      rewrite <- En1, <- Em1 in Hstat.
      apply (update_stats_anchors inp key_tokens _ _ len) in Hstat;
        try lia; [| exact Hcurr].
      apply draft_select_keys in H.
      apply (store_key_anchors map1 key_offset len) in Hstat; [| exact Hok].
      unfold anchors_ok in *. rewrite H, En, Em, <- En1, <- Em1. exact Hstat.
Qed.

(** With the anchors inside the history, the part of the draft call that
    follows a match reads inside the history. *)
Lemma draft_at_match_total (map : common_ngram_map) (inp : llama_tokens)
    (key_tokens : llama_tokens) (match_pos : Z) (draft : llama_tokens) :
  1 <= size_key map -> 0 <= size_value map -> size inp < SIZE_MAX ->
  size key_tokens = size_key map ->
  0 <= match_pos -> match_pos + size_key map + size_value map <= size inp ->
  anchors_ok map (size inp) ->
  is_Some (draft_at_match map inp key_tokens match_pos draft).
Proof.
  intros Hn Hm Hlen Hkt Hp Hb Hok. unfold draft_at_match.
  assert (Hft : is_Some (find_key inp key_tokens (size_key map) (keys map) 0))
    by (apply find_key_total with (m := size_value map);
        (assumption || lia)).
  destruct Hft as [key_offset Hfind]. rewrite Hfind. apply find_key_range in Hfind.
  fold (with_key map key_offset match_pos).
  apply (with_key_anchors map key_offset match_pos) in Hok; [| lia | lia].
  destruct (with_key_config map key_offset match_pos)
    as [(En1 & Em1 & _) _].
  assert (Hlt : (Z.to_nat key_offset
                 < length (keys (with_key map key_offset match_pos)))%nat).
  { unfold with_key. destruct (Z.eqb_spec key_offset (size (keys map))).
    - cbn. rewrite length_app. cbn. unfold size in *. lia.
    - unfold size in *. lia. }
  set (map1 := with_key map key_offset match_pos) in *.
  destruct (lookup_lt_is_Some_2 _ _ Hlt) as [curr_key Hkey].
  rewrite Hkey.
  pose proof (Forall_lookup_1 _ _ _ _ Hok Hkey) as Hcurr.
  apply (set_key_num_anchors _ _ _ (count_up (key_num curr_key))) in Hcurr.
  rewrite En1, Em1 in Hcurr.
  destruct (key_only map1).
  - destruct (lookup_lt_is_Some_2
                (values (set_key_num curr_key (count_up (key_num curr_key))))
                0%nat) as [val0 Hval0].
    { destruct Hcurr as (_ & _ & _ & -> & _).
      unfold COMMON_NGRAM_MAX_VALUES. lia. }
    rewrite Hval0.
    destruct (draft_copy_total inp (size_key map) (size_value map) match_pos
                (n_accepted val0) draft) as [draft' Hcopy]; try lia.
    rewrite Hcopy. eauto.
  - destruct (_ <? min_hits map1); [eauto |].
    assert (Hst : is_Some (update_stats inp key_tokens (size_key map)
              (size_value map) match_pos
              (set_key_num curr_key (count_up (key_num curr_key)))))
      by (apply update_stats_total; (assumption || lia)).
    destruct Hst as [curr_key' Hstat]. rewrite Hstat.
    apply (update_stats_anchors inp key_tokens _ _ (size inp)) in Hstat;
      try lia; [| exact Hcurr].
    apply draft_select_total; cbn; try lia. apply Hstat.
Qed.

Lemma draft_sizes (map : common_ngram_map) (inp : llama_tokens)
    (sampled : llama_token) (draft : llama_tokens)
    (map' : common_ngram_map) (draft' : llama_tokens) :
  common_ngram_map_draft map inp sampled draft = Some (map', draft') ->
  size_key map' = size_key map /\ size_value map' = size_value map.
Proof.
  unfold common_ngram_map_draft. intros H.
  destruct (_ <? _); [injection H as <- _; auto |].
  destruct (_ >? _); [injection H as <- _; auto |].
  destruct (make_key_tokens _ _ _) as [key_tokens |]; [| discriminate].
  destruct (search_back _ _ _ _) as [mp |]; [| discriminate].
  destruct (mp =? 0); [injection H as <- _; auto |].
  apply draft_at_match_config in H. destruct H as (H1 & H2 & _). auto.
Qed.

Lemma accept_sizes (map : common_ngram_map) (n_acc : Z)
    (map' : common_ngram_map) :
  common_ngram_map_accept map n_acc = Some map' ->
  size_key map' = size_key map /\ size_value map' = size_value map.
Proof.
  unfold common_ngram_map_accept. intros H.
  repeat case_match; simplify_eq; auto.
Qed.

(** A draft call on a history of at most [len] tokens keeps the anchors
    inside the first [len] tokens. *)
Lemma draft_anchors (map : common_ngram_map) (inp : llama_tokens)
    (sampled : llama_token) (draft : llama_tokens)
    (map' : common_ngram_map) (draft' : llama_tokens) (len : Z) :
  common_ngram_map_draft map inp sampled draft = Some (map', draft') ->
  1 <= size_key map -> 0 <= size_value map ->
  size inp <= len -> len < SIZE_MAX ->
  anchors_ok map len -> anchors_ok map' len.
Proof.
  unfold common_ngram_map_draft.
  cbn [size_key size_value idx_last_check check_rate set_last_draft].
  intros H Hn Hm Hle Hlen Hok.
  destruct (Z.ltb_spec (size inp) (2 * size_key map + size_value map));
    [injection H as <- _; exact Hok |].
  destruct (_ >? _); [injection H as <- _; exact Hok |].
  destruct (make_key_tokens _ _ _) as [key_tokens |]; [| discriminate].
  destruct (search_back _ _ _ _) as [mp |] eqn:Hs; [| discriminate].
  destruct (mp =? 0); [injection H as <- _; exact Hok |].
  apply search_back_range in Hs.
  rewrite map_search_start in Hs by lia.
  apply (draft_at_match_anchors _ _ _ _ len) in H; cbn; try lia;
    first [exact H | exact Hok].
Qed.

Lemma accept_anchors (map : common_ngram_map) (n_acc : Z)
    (map' : common_ngram_map) (len : Z) :
  common_ngram_map_accept map n_acc = Some map' ->
  anchors_ok map len -> anchors_ok map' len.
Proof.
  unfold common_ngram_map_accept. intros H Hok.
  destruct (negb _); [injection H as <-; exact Hok |].
  destruct (keys map !! _) as [curr_key |] eqn:Hkey; [| discriminate].
  destruct (values curr_key !! _) as [curr_value |] eqn:Hval;
    [| discriminate].
  injection H as <-. unfold anchors_ok. cbn.
  apply Forall_insert; [exact Hok |].
  destruct (Forall_lookup_1 _ _ _ _ Hok Hkey) as (H1 & H2 & H3 & H4 & H5).
  unfold key_anchor_ok. cbn. rewrite length_insert.
  repeat (split; [assumption |]).
  apply Forall_insert; [exact H5 |].
  exact (Forall_lookup_1 _ _ _ _ H5 Hval).
Qed.

(** What was recorded on prefixes of [hist] lies inside [hist]. *)
Lemma recorded_on_anchors (hist : llama_tokens) (map : common_ngram_map) :
  recorded_on hist map ->
  1 <= size_key map -> 0 <= size_value map -> size hist < SIZE_MAX ->
  anchors_ok map (size hist).
Proof.
  induction 1 as [map Hnew | map map' inp sampled draft draft' Hrec IH Hpre Hd
                  | map map' n_acc Hrec IH Ha]; intros Hn Hm Hlen.
  - unfold anchors_ok. rewrite Hnew. constructor.
  - destruct (draft_sizes _ _ _ _ _ _ Hd) as [En Em]. rewrite En in Hn.
    rewrite Em in Hm.
    apply (draft_anchors _ _ _ _ _ _ (size hist) Hd); try assumption.
    + apply prefix_length in Hpre. unfold size. lia.
    + apply IH; assumption.
  - destruct (accept_sizes _ _ _ Ha) as [En Em]. rewrite En in Hn.
    rewrite Em in Hm.
    apply (accept_anchors _ _ _ _ Ha). apply IH; assumption.
Qed.

(** With the anchors inside the history, a draft call that passes the
    guard reads inside the history. *)
Lemma draft_total (map : common_ngram_map) (inp : llama_tokens)
    (sampled : llama_token) (draft : llama_tokens) :
  1 <= size_key map -> 0 <= size_value map -> size inp < SIZE_MAX ->
  2 * size_key map + size_value map <= size inp ->
  anchors_ok map (size inp) ->
  is_Some (common_ngram_map_draft map inp sampled draft).
Proof.
  intros Hn Hm Hlen Hguard Hok.
  destruct (Z.le_gt_cases (size_t (idx_last_check map + check_rate map))
              (size inp)) as [Hthr | Hthr].
  - destruct (map_draft_run map inp sampled draft) as (mp & Hs & Hlm & Hrun);
      try lia.
    rewrite Hrun. destruct (mp =? 0); [eauto |].
    destruct Hlm as [Hrange _]. rewrite map_search_start in Hrange by lia.
    apply draft_at_match_total; cbn; try lia.
    + rewrite simple_pattern_size by lia. lia.
    + exact Hok.
  - unfold common_ngram_map_draft.
    cbn [size_key size_value idx_last_check check_rate set_last_draft].
    destruct (_ <? _); [eauto |].
    replace (_ >? size inp) with true
      by (symmetry; rewrite Z.gtb_ltb; apply Z.ltb_lt; lia).
    eauto.
Qed.

(** C10. On a draft call of the cache with a key of at least one token
    that passes the guard [len >= 2 * n + m], when every key and every
    value of the cache was recorded by earlier draft calls on prefixes of
    the same history, no read of the history leaves it: the key search,
    the comparison with the stored keys, the statistics and the copy of
    the draft only read indices below the length of the history, so the
    call returns, and what it records lies inside the history again. *)
Theorem draft_reads_inside_history (hist : llama_tokens)
    (map : common_ngram_map) (sampled : llama_token)
    (draft : llama_tokens) :
  recorded_on hist map ->
  1 <= size_key map -> 0 <= size_value map -> size hist < SIZE_MAX ->
  2 * size_key map + size_value map <= size hist ->
  exists (map' : common_ngram_map) (draft' : llama_tokens),
    common_ngram_map_draft map hist sampled draft = Some (map', draft') /\
    anchors_ok map' (size hist) /\ recorded_on hist map'.
Proof.
  intros Hrec Hn Hm Hlen Hguard.
  pose proof (recorded_on_anchors hist map Hrec Hn Hm Hlen) as Hok.
  destruct (draft_total map hist sampled draft Hn Hm Hlen Hguard Hok)
    as [[map' draft'] Hd].
  exists map', draft'. split; [exact Hd |]. split.
  - apply (draft_anchors _ _ _ _ _ _ (size hist) Hd); (assumption || lia).
  - apply (recorded_draft hist map map' hist sampled draft draft' Hrec);
      [reflexivity | exact Hd].
Qed.

Lemma draft_reads_inside_history_witness :
  exists (map' : common_ngram_map) (draft' : llama_tokens),
    common_ngram_map_draft ex_map_drafted ex_history_grown 1 []
    = Some (map', draft') /\
    anchors_ok map' (size ex_history_grown) /\
    recorded_on ex_history_grown map'.
Proof.
  apply draft_reads_inside_history.
  - apply (recorded_draft ex_history_grown ex_map ex_map_drafted
             [9; 1; 2; 3; 4] 1 [] [2]).
    + apply recorded_new. reflexivity.
    + exists [1; 2; 3; 4]. reflexivity.
    + vm_compute. reflexivity.
  - cbn. lia.
  - cbn. lia.
  - vm_compute. reflexivity.
  - vm_compute. congruence.
Defined.

(** *** The occurrence that is used *)

(** C6. Both the drafter and the cache scan backward for the key pattern,
    the drafter from [len - key_len - 1] and the cache from
    [len - n - m - 1], down to 1, and go on with the first match found:
    the position used is the largest one of the range where the pattern
    occurs, so of two occurrences in the range the later one is used, and
    0 is only returned when the pattern occurs nowhere in the range. The
    drafter replays the tokens after that position. The cache, on a state
    whose anchors lie inside the history, returns and uses that position
    and no other: the key it works on holds the n-gram that stands there,
    a key it creates is anchored there, the statistics are brought up to
    it and the tokens it appends are the ones that follow it. *)
Theorem search_uses_latest_occurrence :
  (forall (state : NgramSimple.common_ngram_simple_state)
          (tokens : llama_tokens) (sampled : llama_token),
     let n := NgramSimple.size_ngram (NgramSimple.config state) in
     let m := NgramSimple.size_mgram (NgramSimple.config state) in
     let cur_len := size tokens in
     let pattern := simple_pattern tokens n sampled in
     let start := cur_len - n - 1 in
     0 <= n -> 0 <= m -> cur_len < SIZE_MAX ->
     size_t (NgramSimple.idx_last_check state
             + NgramSimple.check_rate (NgramSimple.config state))
       <= cur_len ->
     n + m + 1 < cur_len ->
     exists mp : Z,
       search_back tokens pattern (size pattern)
         (Z.to_nat (size_t (cur_len - n - 1))) = Some mp /\
       NgramSimple.common_ngram_simple_draft state tokens sampled
       = Some (NgramSimple.set_idx_last_check state cur_len,
               if mp =? 0 then [] else simple_replay tokens n m mp) /\
       latest_match tokens pattern (size pattern) start mp /\
       (forall j1 j2, 1 <= j1 -> j1 < j2 -> j2 <= start ->
          occurs_at tokens pattern (size pattern) j1 ->
          occurs_at tokens pattern (size pattern) j2 ->
          j1 < mp /\ j2 <= mp /\ occurs_at tokens pattern (size pattern) mp))
  /\
  (forall (map : common_ngram_map) (inp : llama_tokens)
          (sampled : llama_token) (draft : llama_tokens),
     let n := size_key map in
     let m := size_value map in
     let cur_len := size inp in
     let key_tokens := simple_pattern inp n sampled in
     let start := size_t (cur_len - n - m - 1) in
     0 <= n -> 0 <= m -> cur_len < SIZE_MAX ->
     2 * n + m <= cur_len ->
     size_t (idx_last_check map + check_rate map) <= cur_len ->
     exists mp : Z,
       search_back inp key_tokens n (Z.to_nat start) = Some mp /\
       common_ngram_map_draft map inp sampled draft
       = (if mp =? 0 then Some (map_checked map cur_len, draft)
          else draft_at_match (map_checked map cur_len) inp key_tokens mp
                 draft) /\
       (1 <= n -> start = cur_len - n - m - 1) /\
       latest_match inp key_tokens n start mp /\
       (forall j1 j2, 1 <= j1 -> j1 < j2 -> j2 <= start ->
          occurs_at inp key_tokens n j1 -> occurs_at inp key_tokens n j2 ->
          j1 < mp /\ j2 <= mp /\ occurs_at inp key_tokens n mp) /\
       (mp <> 0 -> 1 <= n -> anchors_ok map cur_len ->
        exists map' draft' key_offset k1 k',
          common_ngram_map_draft map inp sampled draft
          = Some (map', draft') /\
          match_used (map_checked map cur_len) inp key_tokens mp draft
            key_offset k1 k' map' draft' /\
          window inp (key_idx k') n = window inp mp n)).
Proof.
  split.
  - intros state tokens sampled n m cur_len pattern start Hn Hm Hlen Hthr Hg.
    destruct (simple_draft_run state tokens sampled Hn Hm Hlen Hthr Hg)
      as [mp [Hs [Hlm Hrun]]].
    exists mp. split; [exact Hs |]. split; [exact Hrun |].
    split; [exact Hlm |]. apply (latest_match_later _ _ _ _ _ Hlm).
  - intros map inp sampled draft n m cur_len key_tokens start
      Hn Hm Hlen Hg Hthr.
    destruct (map_draft_run map inp sampled draft Hn Hm Hlen Hg Hthr)
      as [mp [Hs [Hlm Hrun]]].
    exists mp. split; [exact Hs |]. split; [exact Hrun |].
    split; [intros H1; apply map_search_start; assumption |].
    split; [exact Hlm |].
    split; [apply (latest_match_later _ _ _ _ _ Hlm) |].
    intros Hnz Hn1 Hok. rewrite Hrun.
    replace (mp =? 0) with false by (symmetry; apply Z.eqb_neq; exact Hnz).
    pose proof Hlm as (Hrange & Hocc & _). specialize (Hocc Hnz).
    unfold start in Hrange. rewrite map_search_start in Hrange by assumption.
    assert (Hks : size key_tokens = n).
    { unfold key_tokens. rewrite simple_pattern_size by (fold cur_len; lia).
      lia. }
    pose proof Hlen as Hlen'. unfold SIZE_MAX in Hlen'.
    assert (Htot : is_Some (draft_at_match (map_checked map cur_len) inp
                              key_tokens mp draft)).
    { apply draft_at_match_total; try exact Hok;
        cbn; fold n m cur_len; lia. }
    destruct Htot as [[map' draft'] Hd].
    assert (Huse : exists key_offset k1 k',
              match_used (map_checked map cur_len) inp key_tokens mp draft
                key_offset k1 k' map' draft').
    { apply draft_at_match_uses; try exact Hd; try reflexivity;
        cbn; fold n m cur_len; lia. }
    destruct Huse as (key_offset & k1 & k' & Hused).
    exists map', draft', key_offset, k1, k'.
    split; [exact Hd |]. split; [exact Hused |].
    destruct Hused as (Hfind & Hk1 & _ & Eidx & _ & Hnew & _).
    cbn [size_key keys map_checked set_idx_last_check set_last_draft]
      in Hfind, Hnew. fold n in Hfind.
    destruct (Z.eq_dec key_offset (size (keys map))) as [E | Hold];
      [rewrite (Hnew E); reflexivity |].
    pose proof (find_key_range _ _ _ _ _ _ Hfind) as Hr.
    destruct (find_key_found _ _ _ _ _ _ Hfind) as (k & Hk & Ecmp); [lia |].
    rewrite Z.sub_0_r in Hk.
    unfold with_key in Hk1.
    cbn [keys map_checked set_idx_last_check set_last_draft] in Hk1.
    replace (key_offset =? size (keys map)) with false in Hk1
      by (symmetry; apply Z.eqb_neq; exact Hold).
    cbn [keys map_checked set_idx_last_check set_last_draft] in Hk1.
    assert (k = k1) by congruence. subst k.
    pose proof (Forall_lookup_1 _ _ _ _ Hok Hk) as (Ha1 & Ha2 & _).
    fold n cur_len in Ha2.
    destruct (ngram_eq_spec inp (key_idx k1) key_tokens 0 n)
      as [r [Hr' Hiff]]; try (fold cur_len; lia).
    rewrite Ecmp in Hr'. injection Hr' as <-.
    assert (Hw : window inp (key_idx k1) n = window key_tokens 0 n)
      by (apply Hiff; reflexivity).
    rewrite Eidx, Hw. symmetry. exact Hocc.
Qed.

Lemma search_uses_latest_occurrence_witness :
  (exists mp : Z,
     search_back ex_history (simple_pattern ex_history 2 2) 2 9%nat = Some mp /\
     NgramSimple.common_ngram_simple_draft ex_simple_state ex_history 2
     = Some (NgramSimple.set_idx_last_check ex_simple_state 12,
             if mp =? 0 then [] else simple_replay ex_history 2 3 mp) /\
     latest_match ex_history (simple_pattern ex_history 2 2) 2 9 mp /\
     (1 < mp /\ 5 <= mp /\
      occurs_at ex_history (simple_pattern ex_history 2 2) 2 mp))
  /\
  (exists mp : Z,
     search_back ex_history (simple_pattern ex_history 1 1) 1 9%nat = Some mp /\
     (1 < mp /\ 5 <= mp /\
      occurs_at ex_history (simple_pattern ex_history 1 1) 1 mp) /\
     exists map' draft' key_offset k1 k',
       common_ngram_map_draft ex_map ex_history 1 [] = Some (map', draft') /\
       match_used (map_checked ex_map 12) ex_history
         (simple_pattern ex_history 1 1) mp [] key_offset k1 k' map' draft' /\
       window ex_history (key_idx k') 1 = window ex_history mp 1).
Proof.
  destruct search_uses_latest_occurrence as [Hsimple Hmap]. split.
  - destruct (Hsimple ex_simple_state ex_history 2) as [mp [Hs [Hd [Hl Htwo]]]];
      try (vm_compute; congruence).
    exists mp. split; [exact Hs |]. split; [exact Hd |]. split; [exact Hl |].
    apply (Htwo 1 5); vm_compute; congruence.
  - destruct (Hmap ex_map ex_history 1 [])
      as [mp [Hs [Hd [Hstart [Hl [Htwo Huse]]]]]];
      try (vm_compute; congruence).
    assert (Hlater : 1 < mp /\ 5 <= mp /\
              occurs_at ex_history (simple_pattern ex_history 1 1) 1 mp)
      by (apply (Htwo 1 5); vm_compute; congruence).
    exists mp. split; [exact Hs |]. split; [exact Hlater |].
    apply Huse; [lia | cbn; lia | constructor].
Defined.

(** *** Sequences of calls on a growing history *)

Lemma anchors_mono (map : common_ngram_map) (len len' : Z) :
  len <= len' -> anchors_ok map len -> anchors_ok map len'.
Proof.
  unfold anchors_ok. intros Hle Hok.
  eapply Forall_impl; [exact Hok |].
  intros k (H1 & H2 & H3 & H4 & H5). unfold key_anchor_ok.
  split; [exact H1 |]. split; [lia |]. split; [exact H3 |].
  split; [exact H4 |].
  eapply Forall_impl; [exact H5 |]. intros val [Hv1 Hv2].
  split; [exact Hv1 |]. intros Hnz. specialize (Hv2 Hnz). lia.
Qed.

Lemma accept_pending (map : common_ngram_map) (n_acc : Z)
    (map' : common_ngram_map) :
  common_ngram_map_accept map n_acc = Some map' ->
  (last_draft_created map = true -> pending_valid map) ->
  last_draft_created map' = true -> pending_valid map'.
Proof.
  unfold common_ngram_map_accept. intros H Hpend Hyes.
  destruct (last_draft_created map) eqn:Hc; cbn [negb] in H;
    [| injection H as <-; congruence].
  destruct (Hpend eq_refl) as (Hk & Hv & _).
  destruct (keys map !! _) as [curr_key |] eqn:Hkey; [| discriminate].
  destruct (values curr_key !! _) as [curr_value |] eqn:Hval;
    [| discriminate].
  injection H as <-. unfold pending_valid. cbn.
  split; [exact Hk |]. split; [exact Hv |].
  eexists _, _. split.
  - apply list_lookup_insert_eq. eapply lookup_lt_Some; eauto.
  - cbn. apply list_lookup_insert_eq. eapply lookup_lt_Some; eauto.
Qed.

(** A call of the decoding loop on a state of the cache that is in order
    returns, and leaves the cache in order. *)
Lemma do_call_total (map : common_ngram_map) (len : Z) (c : call) :
  cache_ok map len -> grows len [c] ->
  exists map', do_call map c = Some map' /\ cache_ok map' (call_length len c).
Proof.
  intros (Hn & Hm & Hok & Hpend) Hgrow.
  destruct c as [inp sampled | n_acc]; cbn in Hgrow |- *.
  - destruct Hgrow as [[Hle Hlen] _].
    apply (anchors_mono map len (size inp) Hle) in Hok.
    assert (Hsome : is_Some (common_ngram_map_draft map inp sampled [])).
    { destruct (Z.lt_ge_cases (size inp) (2 * size_key map + size_value map))
        as [Hshort | Hlong].
      - unfold common_ngram_map_draft.
        cbn [size_key size_value set_last_draft].
        replace (size inp <? _) with true
          by (symmetry; apply Z.ltb_lt; exact Hshort).
        eauto.
      - apply draft_total; assumption. }
    destruct Hsome as [[map' draft'] Hd]. rewrite Hd.
    exists map'. split; [reflexivity |].
    destruct (draft_sizes _ _ _ _ _ _ Hd) as [En Em].
    unfold cache_ok. rewrite En, Em.
    split; [exact Hn |]. split; [exact Hm |]. split.
    + apply (draft_anchors _ _ _ _ _ _ (size inp) Hd); (assumption || lia).
    + intros Hyes. apply (draft_created _ _ _ _ _ _ Hd Hyes).
  - assert (Hsome : is_Some (common_ngram_map_accept map n_acc)).
    { unfold common_ngram_map_accept.
      destruct (last_draft_created map) eqn:Hc; cbn [negb]; [| eauto].
      destruct (Hpend eq_refl) as (_ & _ & key & val & Hkey & Hval).
      rewrite Hkey, Hval. eauto. }
    destruct Hsome as [map' Ha]. exists map'. split; [exact Ha |].
    destruct (accept_sizes _ _ _ Ha) as [En Em].
    unfold cache_ok. rewrite En, Em.
    split; [exact Hn |]. split; [exact Hm |]. split.
    + apply (accept_anchors _ _ _ _ Ha Hok).
    + apply (accept_pending _ _ _ Ha Hpend).
Qed.

Lemma run_total (calls : list call) :
  forall (map : common_ngram_map) (len : Z),
    cache_ok map len -> grows len calls ->
    exists map', run map calls = Some map'.
Proof.
  induction calls as [| c calls IH]; intros map len Hok Hgrow;
    cbn [run]; [eauto |].
  destruct (do_call_total map len c Hok) as (map1 & Hc & Hok1).
  { destruct c; cbn in Hgrow |- *; tauto. }
  rewrite Hc. apply (IH map1 (call_length len c) Hok1).
  destruct c; cbn in Hgrow |- *; tauto.
Qed.

Lemma init_cache_ok (sz_key sz_value : Z) (only_keys : bool) (rate hits : Z) :
  1 <= sz_key -> 0 <= sz_value ->
  cache_ok (common_ngram_map_init sz_key sz_value only_keys rate hits) 0 /\
  counters_ok (common_ngram_map_init sz_key sz_value only_keys rate hits).
Proof.
  intros Hn Hm. unfold cache_ok, counters_ok, anchors_ok. cbn.
  split; [| constructor].
  split; [exact Hn |]. split; [exact Hm |]. split; [constructor |].
  discriminate.
Qed.

(** C9. The counters of the cache, the [key_num] of every key and the
    [value_num] of every value, saturate at 16380. From a state where all
    counters are at most 16380, every sequence of draft and accept calls
    leads to a state where all counters are at most 16380: the calls of a
    decoding loop, on a history that only grows, from a cache in order
    (a new cache is) all return and keep the bound, and so does every
    sequence of calls that returns, from any state. A counter counted up
    [k] times stands at [min (x + k) 16380], so at the cap itself once it
    got there; and the two increments of the draft call, of the key that
    was hit and of the slot whose m-gram follows an occurrence, are this
    counting up. *)
Theorem counters_saturate :
  (forall (map : common_ngram_map) (calls : list call) (len : Z),
     cache_ok map len -> counters_ok map -> grows len calls ->
     exists map', run map calls = Some map' /\ counters_ok map')
  /\
  (forall (sz_key sz_value : Z) (only_keys : bool) (rate hits : Z)
          (calls : list call),
     1 <= sz_key -> 0 <= sz_value -> grows 0 calls ->
     exists map',
       run (common_ngram_map_init sz_key sz_value only_keys rate hits) calls
       = Some map' /\ counters_ok map')
  /\
  (forall (map : common_ngram_map) (calls : list call)
          (map' : common_ngram_map),
     counters_ok map -> run map calls = Some map' -> counters_ok map')
  /\
  (forall (x : Z) (k : nat),
     counter_ok x ->
     Nat.iter k count_up x
     = Z.min (x + Z.of_nat k) COMMON_NGRAM_MAX_VALUE_COUNT)
  /\
  (forall (map : common_ngram_map) (inp key_tokens : llama_tokens)
          (match_pos : Z) (draft : llama_tokens)
          (map' : common_ngram_map) (draft' : llama_tokens) (key_offset : Z)
          (k : common_ngram_map_key),
     find_key inp key_tokens (size_key map) (keys map) 0 = Some key_offset ->
     keys (with_key map key_offset match_pos) !! Z.to_nat key_offset
     = Some k ->
     draft_at_match map inp key_tokens match_pos draft
     = Some (map', draft') ->
     exists k', keys map' !! Z.to_nat key_offset = Some k' /\
                key_num k' = count_up (key_num k))
  /\
  (forall (inp key_tokens : llama_tokens) (n m i : Z)
          (curr_key : common_ngram_map_key) (v0 : nat)
          (val0 : common_ngram_map_value),
     ngram_eq inp i key_tokens 0 n = Some true ->
     (v0 < COMMON_NGRAM_MAX_VALUES)%nat ->
     values curr_key !! v0 = Some val0 -> value_idx val0 <> 0 ->
     ngram_eq inp (size_t (i + n)) inp (value_idx val0) m = Some true ->
     (forall u val, (u < v0)%nat -> values curr_key !! u = Some val ->
        value_idx val <> 0 /\
        ngram_eq inp (size_t (i + n)) inp (value_idx val) m = Some false) ->
     stat_step inp key_tokens n m i curr_key
     = Some (set_values curr_key
               (<[v0 := set_value_num val0 (count_up (value_num val0))]>
                  (values curr_key)))).
Proof.
  assert (Htotal : forall (map : common_ngram_map) (calls : list call)
            (len : Z),
            cache_ok map len -> counters_ok map -> grows len calls ->
            exists map', run map calls = Some map' /\ counters_ok map').
  { intros map calls len Hcache Hok Hgrow.
    destruct (run_total calls map len Hcache Hgrow) as [map' Hrun].
    exists map'. split; [exact Hrun | eapply run_ok; eauto]. }
  split; [exact Htotal |]. split; [| split; [| split; [| split]]].
  - intros sz_key sz_value only_keys rate hits calls Hn Hm Hgrow.
    destruct (init_cache_ok sz_key sz_value only_keys rate hits Hn Hm)
      as [Hcache Hok].
    apply (Htotal _ calls 0 Hcache Hok Hgrow).
  - intros map calls map' Hok Hrun. eapply run_ok; eauto.
  - apply count_up_iter.
  - apply draft_at_match_hit.
  - apply stat_step_counts.
Qed.

Lemma counters_saturate_witness :
  (exists map',
     run (common_ngram_map_init 1 1 false 1 1) ex_calls_new = Some map' /\
     counters_ok map')
  /\
  (exists map',
     run ex_map_full ex_calls = Some map' /\ counters_ok map' /\
     keys map'
     = [ {| key_idx := 1; stat_idx := 9; key_num := 16380;
            values := [ex_slot 2 16380; ex_slot 0 0; ex_slot 0 0;
                       ex_slot 0 0] |} ])
  /\ Nat.iter 5 count_up 16378 = 16380.
Proof.
  destruct counters_saturate as (_ & Hnew & Hrun & Hiter & _).
  split; [| split].
  - apply (Hnew 1 1 false 1 1 ex_calls_new); [lia | lia |].
    cbn. unfold SIZE_MAX, SIZE_MOD, size. cbn. lia.
  - eexists. split; [vm_compute; reflexivity |].
    split; [| reflexivity].
    apply (Hrun ex_map_full ex_calls); [| vm_compute; reflexivity].
    repeat constructor;
      unfold counter_ok, COMMON_NGRAM_MAX_VALUE_COUNT; cbn; lia.
  - apply (Hiter 16378 5%nat).
    unfold counter_ok, COMMON_NGRAM_MAX_VALUE_COUNT. lia.
Defined.

(** *** The ranges of the statistics *)

(** A key whose statistics were brought up to [mp0] (so that
    [stat_idx = mp0], see [update_stats_frame]) has the position [mp0]
    processed once more by the next refresh, before the new positions. *)
Lemma update_stats_rescans (inp key_tokens : llama_tokens) (n m mp0 mp : Z)
    (k : common_ngram_map_key) :
  stat_idx k = mp0 -> mp0 <= mp -> mp <> SIZE_MAX ->
  update_stats inp key_tokens n m mp k
  = (k1 <- stat_step inp key_tokens n m mp0 k ;;
     k2 <- stat_loop inp key_tokens n m (mp0 + 1) (Z.to_nat (mp - mp0)) k1 ;;
     Some (set_stat_idx k2 mp)).
Proof.
  intros Hs Hle Hmax. unfold update_stats. rewrite Hs.
  destruct (Z.eqb_spec mp SIZE_MAX); [contradiction |].
  replace (Z.to_nat (mp - mp0 + 1)) with (S (Z.to_nat (mp - mp0))) by lia.
  cbn [stat_loop]. destruct (stat_step _ _ _ _ _ _); reflexivity.
Qed.

(** C2. The ranges of two successive statistics refreshes of a key
    overlap in the position of the earlier match: the first refresh runs
    from [stat_idx = 0] through [match_pos = 1] and sets [stat_idx = 1], the
    second one runs from 1 through 5. The token 1 followed by the token 2
    stands twice in the positions 0 to 5 of the grown history, at 1 and
    at 5, and after the two draft calls the slot of that m-gram counts 3:
    the occurrence at position 1 was counted by both refreshes. *)
Theorem statistics_count_boundary_twice :
  run ex_map [CallDraft [9; 1; 2; 3; 4] 1] = Some ex_map_drafted /\
  stat_idx <$> keys ex_map_drafted !! 0%nat = Some 1 /\
  (exists map',
     run ex_map_drafted [CallDraft ex_history_grown 1] = Some map' /\
     keys map'
     = [ {| key_idx := 1; stat_idx := 5; key_num := 2;
            values := [ex_slot 2 3; ex_slot 0 0; ex_slot 0 0;
                       ex_slot 0 0] |} ]) /\
  occurrences ex_history_grown [1; 2] 5 = 2%nat.
Proof.
  split; [vm_compute; reflexivity |]. split; [reflexivity |].
  split; [eexists; split; vm_compute; reflexivity |].
  vm_compute. reflexivity.
Qed.

(** * Further properties of the two drafters *)

(** ** The pattern-replay drafter on every input *)

(** X1. The drafter returns on every history: no read leaves the history.
    It keeps its configuration, leaves the cursor where it was or moves it
    to the end of the history, and its draft is empty or made of at least
    [size_ngram] and at most [size_mgram] consecutive tokens of the history
    that follow an occurrence of the pattern at a position of at least 1;
    so it never drafts when [size_mgram < size_ngram]. *)
Theorem simple_draft_shape (state : NgramSimple.common_ngram_simple_state)
    (tokens : llama_tokens) (sampled : llama_token) :
  let n := NgramSimple.size_ngram (NgramSimple.config state) in
  let m := NgramSimple.size_mgram (NgramSimple.config state) in
  let pattern := simple_pattern tokens n sampled in
  is_uint16 n -> is_uint16 m -> size tokens < SIZE_MAX ->
  exists (state' : NgramSimple.common_ngram_simple_state)
         (draft : llama_tokens),
    NgramSimple.common_ngram_simple_draft state tokens sampled
    = Some (state', draft) /\
    NgramSimple.config state' = NgramSimple.config state /\
    (NgramSimple.idx_last_check state' = NgramSimple.idx_last_check state \/
     NgramSimple.idx_last_check state' = size tokens) /\
    (draft = [] \/
     (n <= size draft <= m /\
      exists mp, 1 <= mp /\ mp + n + size draft <= size tokens /\
        occurs_at tokens pattern (size pattern) mp /\
        draft = window tokens (mp + n) (size draft))) /\
    (m < n -> draft = []).
Proof.
  intros n m pattern [Hn Hn'] [Hm Hm'] Hlen.
  destruct (Z.le_gt_cases
              (size_t (NgramSimple.idx_last_check state
                       + NgramSimple.check_rate (NgramSimple.config state)))
              (size tokens)) as [Hthr | Hthr];
    [destruct (Z.lt_ge_cases (n + m + 1) (size tokens)) as [Hg | Hg] |].
  - destruct (simple_draft_run state tokens sampled Hn Hm Hlen Hthr Hg)
      as (mp & _ & (Hrange & Hocc & _) & Hrun).
    fold n m pattern in Hrun, Hocc, Hrange.
    eexists _, _. split; [exact Hrun |]. split; [reflexivity |].
    split; [right; reflexivity |].
    destruct (Z.eqb_spec mp 0) as [Hz | Hnz]; [auto |].
    unfold simple_replay.
    destruct (Z.ltb_spec (Z.min m (size tokens - (mp + n))) n) as [Hs | Hs];
      [auto |].
    split; [| intros Hmn; lia].
    right.
    assert (Hw : size (window tokens (mp + n)
                         (Z.min m (size tokens - (mp + n))))
                 = Z.min m (size tokens - (mp + n)))
      by (apply window_length; lia).
    rewrite Hw. split; [lia |].
    exists mp. split; [lia |]. split; [lia |]. split; [auto | reflexivity].
  - unfold NgramSimple.common_ngram_simple_draft. fold n m.
    unfold SIZE_MAX, SIZE_MOD in *.
    replace (size_t _ >? size tokens) with false
      by (symmetry; rewrite Z.gtb_ltb; apply Z.ltb_ge; exact Hthr).
    rewrite (size_t_small (n + m + 1)) by (unfold SIZE_MOD; lia).
    replace (size tokens <=? n + m + 1) with true
      by (symmetry; apply Z.leb_le; lia).
    eexists _, _. split; [reflexivity |]. auto.
  - unfold NgramSimple.common_ngram_simple_draft.
    replace (size_t _ >? size tokens) with true
      by (symmetry; rewrite Z.gtb_ltb; apply Z.ltb_lt; lia).
    eexists _, _. split; [reflexivity |]. auto.
Qed.

Lemma simple_draft_shape_witness :
  exists state' draft,
    NgramSimple.common_ngram_simple_draft ex_simple_state ex_history 2
    = Some (state', draft) /\
    NgramSimple.config state' = NgramSimple.config ex_simple_state /\
    (NgramSimple.idx_last_check state' = 0 \/
     NgramSimple.idx_last_check state' = 12) /\
    (draft = [] \/
     (2 <= size draft <= 3 /\
      exists mp, 1 <= mp /\ mp + 2 + size draft <= 12 /\
        occurs_at ex_history (simple_pattern ex_history 2 2) 2 mp /\
        draft = window ex_history (mp + 2) (size draft))) /\
    (3 < 2 -> draft = []).
Proof.
  apply (simple_draft_shape ex_simple_state ex_history 2);
    try (unfold is_uint16; cbn; lia); vm_compute; congruence.
Defined.

(** Inside the throttle window the drafter does nothing. *)
Lemma simple_draft_throttled
    (state : NgramSimple.common_ngram_simple_state)
    (tokens : llama_tokens) (sampled : llama_token) :
  let rate := NgramSimple.check_rate (NgramSimple.config state) in
  0 <= NgramSimple.idx_last_check state + rate < SIZE_MOD ->
  size tokens - NgramSimple.idx_last_check state < rate ->
  NgramSimple.common_ngram_simple_draft state tokens sampled
  = Some (state, []).
Proof.
  intros rate Hsum Hcase.
  unfold NgramSimple.common_ngram_simple_draft. fold rate.
  rewrite (size_t_small (_ + rate)) by exact Hsum.
  replace (_ >? size tokens) with true
    by (symmetry; rewrite Z.gtb_ltb; apply Z.ltb_lt; lia).
  reflexivity.
Qed.

(** X2. A call of the drafter inside the throttle window
    ([len - idx_last_check < check_rate]) or on a history of at most
    [size_ngram + size_mgram + 1] tokens returns the empty draft and leaves
    the state as it was, cursor included. *)
Theorem simple_draft_throttled_or_short
    (state : NgramSimple.common_ngram_simple_state)
    (tokens : llama_tokens) (sampled : llama_token) :
  let n := NgramSimple.size_ngram (NgramSimple.config state) in
  let m := NgramSimple.size_mgram (NgramSimple.config state) in
  let rate := NgramSimple.check_rate (NgramSimple.config state) in
  is_uint16 n -> is_uint16 m ->
  0 <= NgramSimple.idx_last_check state + rate < SIZE_MOD ->
  size tokens - NgramSimple.idx_last_check state < rate \/
  size tokens <= n + m + 1 ->
  NgramSimple.common_ngram_simple_draft state tokens sampled
  = Some (state, []).
Proof.
  intros n m rate [Hn Hn'] [Hm Hm'] Hsum Hcase.
  destruct (Z.lt_ge_cases (size tokens)
              (NgramSimple.idx_last_check state + rate)) as [Hthr | Hthr];
    [apply simple_draft_throttled; fold rate; [exact Hsum | lia] |].
  unfold NgramSimple.common_ngram_simple_draft. fold n m rate.
  rewrite (size_t_small (_ + rate)) by exact Hsum.
  replace (_ >? size tokens) with false
    by (symmetry; rewrite Z.gtb_ltb; apply Z.ltb_ge; exact Hthr).
  destruct Hcase as [Hcase | Hcase]; [lia |].
  rewrite (size_t_small (n + m + 1)) by (unfold SIZE_MOD; lia).
  replace (size tokens <=? n + m + 1) with true
    by (symmetry; apply Z.leb_le; exact Hcase).
  reflexivity.
Qed.

Lemma simple_draft_throttled_or_short_witness :
  NgramSimple.common_ngram_simple_draft
    (NgramSimple.set_idx_last_check ex_simple_state 12) ex_history 2
  = Some (NgramSimple.set_idx_last_check ex_simple_state 12, []) /\
  NgramSimple.common_ngram_simple_draft ex_simple_state [1; 2; 1; 2; 1; 2] 1
  = Some (ex_simple_state, []).
Proof.
  split.
  - apply (simple_draft_throttled_or_short
             (NgramSimple.set_idx_last_check ex_simple_state 12)
             ex_history 2);
      try (unfold is_uint16, SIZE_MOD; cbn; lia).
    left. vm_compute. reflexivity.
  - apply (simple_draft_throttled_or_short ex_simple_state
             [1; 2; 1; 2; 1; 2] 1);
      try (unfold is_uint16, SIZE_MOD; cbn; lia).
    right. vm_compute. congruence.
Defined.

(** ** Repeated calls on one history *)

(** The cursor and the configuration after a draft call of the cache that
    passed the guard and the throttle. *)
Lemma draft_cursor (map : common_ngram_map) (inp : llama_tokens)
    (sampled : llama_token) (draft : llama_tokens)
    (map' : common_ngram_map) (draft' : llama_tokens) :
  0 <= size_key map -> 0 <= size_value map -> size inp < SIZE_MAX ->
  2 * size_key map + size_value map <= size inp ->
  size_t (idx_last_check map + check_rate map) <= size inp ->
  common_ngram_map_draft map inp sampled draft = Some (map', draft') ->
  idx_last_check map' = size inp /\ check_rate map' = check_rate map /\
  size_key map' = size_key map /\ size_value map' = size_value map.
Proof.
  intros Hn Hm Hlen Hg Hthr Hd.
  destruct (map_draft_run map inp sampled draft Hn Hm Hlen Hg Hthr)
    as (mp & _ & _ & Hrun).
  rewrite Hrun in Hd. destruct (mp =? 0).
  - injection Hd as <- _. auto.
  - apply draft_at_match_config in Hd.
    destruct Hd as (E1 & E2 & _ & E4 & _ & E6). cbn in *. auto.
Qed.

(** X3. A second draft call on the same history is throttled when the
    first one passed the checks and [check_rate] is at least 1: the drafter
    returns the empty draft and keeps its state; the cache appends nothing,
    keeps its keys and its cursor, and forgets the draft that the first
    call recorded, so that an accept call after it changes nothing. *)
Theorem repeated_draft_is_throttled :
  (forall (state state' : NgramSimple.common_ngram_simple_state)
          (tokens draft : llama_tokens) (sampled sampled' : llama_token),
     let n := NgramSimple.size_ngram (NgramSimple.config state) in
     let m := NgramSimple.size_mgram (NgramSimple.config state) in
     let rate := NgramSimple.check_rate (NgramSimple.config state) in
     is_uint16 n -> is_uint16 m -> 1 <= rate ->
     size tokens + rate < SIZE_MOD ->
     size_t (NgramSimple.idx_last_check state + rate) <= size tokens ->
     n + m + 1 < size tokens ->
     NgramSimple.common_ngram_simple_draft state tokens sampled
     = Some (state', draft) ->
     NgramSimple.common_ngram_simple_draft state' tokens sampled'
     = Some (state', []))
  /\
  (forall (map map' : common_ngram_map) (inp draft draft' draft2 : llama_tokens)
          (sampled sampled' : llama_token) (n_acc : Z),
     0 <= size_key map -> 0 <= size_value map -> 1 <= check_rate map ->
     size inp + check_rate map < SIZE_MOD ->
     2 * size_key map + size_value map <= size inp ->
     size_t (idx_last_check map + check_rate map) <= size inp ->
     common_ngram_map_draft map inp sampled draft = Some (map', draft') ->
     common_ngram_map_draft map' inp sampled' draft2
     = Some (set_last_draft map' false 0 0, draft2) /\
     common_ngram_map_accept (set_last_draft map' false 0 0) n_acc
     = Some (set_last_draft map' false 0 0)).
Proof.
  split.
  - intros state state' tokens draft sampled sampled' n m rate
      Hn Hm Hrate Hsum Hthr Hg Hd.
    assert (Hlen : size tokens < SIZE_MAX) by (unfold SIZE_MAX; lia).
    destruct (simple_draft_run state tokens sampled (proj1 Hn) (proj1 Hm)
                Hlen Hthr Hg) as (mp & _ & _ & Hrun).
    rewrite Hrun in Hd. injection Hd as <- _.
    apply simple_draft_throttled; cbn; fold rate.
    + pose proof (size_nonneg tokens). lia.
    + lia.
  - intros map map' inp draft draft' draft2 sampled sampled' n_acc
      Hn Hm Hrate Hsum Hg Hthr Hd.
    assert (Hlen : size inp < SIZE_MAX) by (unfold SIZE_MAX; lia).
    destruct (draft_cursor _ _ _ _ _ _ Hn Hm Hlen Hg Hthr Hd)
      as (Ec & Er & En & Em).
    split; [| reflexivity].
    unfold common_ngram_map_draft.
    cbn [size_key size_value idx_last_check check_rate set_last_draft].
    rewrite Ec, Er, En, Em.
    destruct (_ <? _); [reflexivity |].
    pose proof (size_nonneg inp).
    rewrite size_t_small by lia.
    replace (_ >? size inp) with true
      by (symmetry; rewrite Z.gtb_ltb; apply Z.ltb_lt; lia).
    reflexivity.
Qed.

Lemma repeated_draft_is_throttled_witness :
  NgramSimple.common_ngram_simple_draft
    (NgramSimple.set_idx_last_check ex_simple_state 12) ex_history 7
  = Some (NgramSimple.set_idx_last_check ex_simple_state 12, []) /\
  common_ngram_map_draft ex_map_drafted [9; 1; 2; 3; 4] 1 []
  = Some (set_last_draft ex_map_drafted false 0 0, []) /\
  common_ngram_map_accept (set_last_draft ex_map_drafted false 0 0) 1
  = Some (set_last_draft ex_map_drafted false 0 0).
Proof.
  destruct repeated_draft_is_throttled as [Hsimple Hmap]. split.
  - apply (Hsimple ex_simple_state _ ex_history [7; 8; 9] 2 7);
      try (unfold is_uint16, SIZE_MOD; cbn; lia);
      vm_compute; congruence.
  - apply (Hmap ex_map ex_map_drafted [9; 1; 2; 3; 4] [] [2] [] 1 1 1);
      try (unfold SIZE_MOD; cbn; lia); vm_compute; congruence.
Defined.

(** ** Key-only mode *)







(** ** Complex mode appends only recorded drafts *)

Lemma draft_at_match_quiet (map : common_ngram_map) (inp : llama_tokens)
    (key_tokens : llama_tokens) (match_pos : Z) (draft : llama_tokens)
    (map' : common_ngram_map) (draft' : llama_tokens) :
  key_only map = false ->
  draft_at_match map inp key_tokens match_pos draft = Some (map', draft') ->
  last_draft_created map' = false -> draft' = draft.
Proof.
  unfold draft_at_match. intros Hko H Hno.
  destruct (find_key _ _ _ _ _) as [key_offset |]; [| discriminate].
  fold (with_key map key_offset match_pos) in H.
  destruct (with_key_config map key_offset match_pos)
    as [(_ & _ & Ek & _) _].
  set (map1 := with_key map key_offset match_pos) in *.
  destruct (keys map1 !! _) as [curr_key |]; [| discriminate].
  rewrite Ek, Hko in H.
  destruct (_ <? min_hits map1); [injection H as _ <-; reflexivity |].
  destruct (update_stats _ _ _ _ _ _) as [curr_key' |]; [| discriminate].
  unfold draft_select in H.
  destruct (max_loop _ _ _ _ _) as [[max_occur slot_max] |]; [| discriminate].
  destruct (sum_loop _ _ _ _ _) as [sum_occur |]; [| discriminate].
  destruct (not_confident _ _); [injection H as _ <-; reflexivity |].
  destruct (values curr_key' !! _) as [val |]; [| discriminate].
  destruct (copy_loop _ _ _ _ _); [| discriminate].
  injection H as <- _. cbn in Hno. discriminate.
Qed.

(** X5. In complex mode a draft call appends tokens only together with
    the record of the draft, and so only after all its checks: the key was
    hit at least [min_hits] times, the hit of this call counted, and the
    cache was confident in the value it selected. *)
Theorem complex_mode_appends_only_recorded (map map' : common_ngram_map)
    (inp draft draft' : llama_tokens) (sampled : llama_token) :
  key_only map = false ->
  common_ngram_map_draft map inp sampled draft = Some (map', draft') ->
  draft' <> draft ->
  last_draft_created map' = true /\ pending_valid map' /\
  exists key,
    keys map' !! Z.to_nat (last_draft_key_idx map') = Some key /\
    min_hits map <= key_num key /\
    confident_in key (last_draft_value_idx map').
Proof.
  intros Hko Hd Hne.
  assert (Hyes : last_draft_created map' = true).
  { destruct (last_draft_created map') eqn:Hc; [reflexivity |].
    exfalso. apply Hne. clear Hne.
    unfold common_ngram_map_draft in Hd.
    destruct (_ <? _); [injection Hd as _ <-; reflexivity |].
    destruct (_ >? _); [injection Hd as _ <-; reflexivity |].
    destruct (make_key_tokens _ _ _) as [key_tokens |]; [| discriminate].
    destruct (search_back _ _ _ _) as [mp |]; [| discriminate].
    destruct (mp =? 0); [injection Hd as _ <-; reflexivity |].
    revert Hd Hc. apply draft_at_match_quiet. exact Hko. }
  split; [exact Hyes |].
  destruct (draft_created _ _ _ _ _ _ Hd Hyes) as (_ & _ & _ & _ & Hp & Hk).
  split; assumption.
Qed.

Lemma complex_mode_appends_only_recorded_witness :
  last_draft_created ex_map_drafted = true /\ pending_valid ex_map_drafted /\
  exists key,
    keys ex_map_drafted !! Z.to_nat (last_draft_key_idx ex_map_drafted)
    = Some key /\
    min_hits ex_map <= key_num key /\
    confident_in key (last_draft_value_idx ex_map_drafted).
Proof.
  apply (complex_mode_appends_only_recorded ex_map ex_map_drafted
           [9; 1; 2; 3; 4] [] [2] 1); [reflexivity | reflexivity |].
  discriminate.
Defined.

(** ** Nothing is evicted *)

Lemma value_kept_refl (val : common_ngram_map_value) : value_kept val val.
Proof. unfold value_kept. intros _ Hok. split; [reflexivity |]. split; [lia | exact Hok]. Qed.

Lemma value_kept_trans (a b c : common_ngram_map_value) :
  value_kept a b -> value_kept b c -> value_kept a c.
Proof.
  unfold value_kept. intros Hab Hbc Hused Hok.
  destruct (Hab Hused Hok) as (E1 & L1 & Hokb).
  destruct Hbc as (E2 & L2 & Hokc); [congruence | exact Hokb |].
  split; [congruence |]. split; [lia | exact Hokc].
Qed.

Lemma values_kept_refl (vals : list common_ngram_map_value) :
  values_kept vals vals.
Proof.
  split; [reflexivity |]. intros v val Hval. exists val.
  split; [exact Hval | apply value_kept_refl].
Qed.

Lemma values_kept_trans (a b c : list common_ngram_map_value) :
  values_kept a b -> values_kept b c -> values_kept a c.
Proof.
  intros [La Hab] [Lb Hbc]. split; [congruence |].
  intros v val Hval. destruct (Hab v val Hval) as (valb & Hb & Kb).
  destruct (Hbc v valb Hb) as (valc & Hc & Kc).
  exists valc. split; [exact Hc | eapply value_kept_trans; eauto].
Qed.

Lemma values_kept_insert (vals : list common_ngram_map_value) (v0 : nat)
    (val0 new : common_ngram_map_value) :
  vals !! v0 = Some val0 -> value_kept val0 new ->
  values_kept vals (<[v0 := new]> vals).
Proof.
  intros Hval0 Hkept. split; [apply length_insert |].
  intros v val Hval. destruct (decide (v = v0)) as [-> | Hne].
  - exists new. split.
    + apply list_lookup_insert_eq. eapply lookup_lt_Some; eauto.
    + rewrite Hval0 in Hval. injection Hval as <-. exact Hkept.
  - exists val. split.
    + rewrite list_lookup_insert_ne by congruence. exact Hval.
    + apply value_kept_refl.
Qed.

Lemma value_loop_kept (inp : llama_tokens) (m vkey : Z) (cnt : nat) :
  forall (vals : list common_ngram_map_value) (v : nat)
         (vals' : list common_ngram_map_value) (idx_value : Z),
    value_loop inp m vkey vals v cnt = Some (vals', idx_value) ->
    values_kept vals vals'.
Proof.
  induction cnt as [| cnt IH]; intros vals v vals' idx_value H; cbn in H.
  - injection H as <- _. apply values_kept_refl.
  - destruct (vals !! v) as [val |] eqn:Hval; [| discriminate].
    destruct (Z.eqb_spec (value_idx val) 0) as [Hfree | Hused].
    + injection H as <- _. apply (values_kept_insert _ _ val); [exact Hval |].
      intros Hne. contradiction.
    + destruct (ngram_eq _ _ _ _ _) as [[|] |]; [| | discriminate].
      * injection H as <- _. apply values_kept_refl.
      * eapply IH; eauto.
Qed.

Lemma count_up_kept (val : common_ngram_map_value) :
  value_kept val (set_value_num val (count_up (value_num val))).
Proof.
  unfold value_kept, counter_ok. intros _ Hok. cbn.
  rewrite count_up_range by lia.
  unfold COMMON_NGRAM_MAX_VALUE_COUNT in *. lia.
Qed.

Lemma stat_step_kept (inp key_tokens : llama_tokens) (n m i : Z)
    (k k' : common_ngram_map_key) :
  stat_step inp key_tokens n m i k = Some k' ->
  values_kept (values k) (values k').
Proof.
  unfold stat_step. intros H.
  destruct (ngram_eq _ _ _ _ _) as [[|] |]; cbn [negb] in H;
    [| injection H as <-; apply values_kept_refl | discriminate].
  destruct (value_loop _ _ _ _ _ _) as [[vals idx_value] |] eqn:Hloop;
    [| discriminate].
  apply value_loop_kept in Hloop.
  destruct (0 <=? idx_value).
  - destruct (vals !! _) as [val |] eqn:Hval; [| discriminate].
    injection H as <-. cbn.
    eapply values_kept_trans; [exact Hloop |].
    apply (values_kept_insert _ _ val); [exact Hval | apply count_up_kept].
  - injection H as <-. exact Hloop.
Qed.

Lemma stat_loop_kept (inp key_tokens : llama_tokens) (n m : Z) (cnt : nat) :
  forall (i : Z) (k k' : common_ngram_map_key),
    stat_loop inp key_tokens n m i cnt k = Some k' ->
    values_kept (values k) (values k').
Proof.
  induction cnt as [| cnt IH]; intros i k k' H; cbn in H.
  - injection H as <-. apply values_kept_refl.
  - destruct (stat_step _ _ _ _ _ _) as [k1 |] eqn:Hstep; [| discriminate].
    eapply values_kept_trans;
      [eapply stat_step_kept; eauto | eapply IH; eauto].
Qed.

Lemma update_stats_kept (inp key_tokens : llama_tokens) (n m match_pos : Z)
    (k k' : common_ngram_map_key) :
  update_stats inp key_tokens n m match_pos k = Some k' ->
  values_kept (values k) (values k').
Proof.
  unfold update_stats. intros H.
  destruct (match_pos =? SIZE_MAX); [discriminate |].
  destruct (stat_loop _ _ _ _ _ _ _) as [k1 |] eqn:Hloop; [| discriminate].
  injection H as <-. cbn. eapply stat_loop_kept; eauto.
Qed.

Lemma key_kept_refl (k : common_ngram_map_key) : key_kept k k.
Proof.
  split; [reflexivity |]. split; [apply values_kept_refl |].
  intros Hok. split; [lia | exact Hok].
Qed.

Lemma key_kept_trans (a b c : common_ngram_map_key) :
  key_kept a b -> key_kept b c -> key_kept a c.
Proof.
  intros (E1 & V1 & N1) (E2 & V2 & N2).
  split; [congruence |]. split; [eapply values_kept_trans; eauto |].
  intros Hok. destruct (N1 Hok) as [L1 Hokb].
  destruct (N2 Hokb) as [L2 Hokc]. split; [lia | exact Hokc].
Qed.

Lemma keys_kept_refl (map : common_ngram_map) : keys_kept map map.
Proof.
  split; [lia |]. intros i k Hk. exists k.
  split; [exact Hk | apply key_kept_refl].
Qed.

Lemma keys_kept_same (map map' : common_ngram_map) :
  keys map' = keys map -> keys_kept map map'.
Proof.
  intros E. unfold keys_kept. rewrite E. apply keys_kept_refl.
Qed.

Lemma keys_kept_trans (a b c : common_ngram_map) :
  keys_kept a b -> keys_kept b c -> keys_kept a c.
Proof.
  intros [La Hab] [Lb Hbc]. split; [lia |].
  intros i k Hk. destruct (Hab i k Hk) as (kb & Hb & Kb).
  destruct (Hbc i kb Hb) as (kc & Hc & Kc).
  exists kc. split; [exact Hc | eapply key_kept_trans; eauto].
Qed.

(** Storing a later state of the key at [key_offset] keeps the keys. *)
Lemma store_key_kept (map map1 : common_ngram_map) (key_offset : Z)
    (curr_key k' : common_ngram_map_key) :
  keys map1 !! Z.to_nat key_offset = Some curr_key ->
  (length (keys map) <= length (keys map1))%nat ->
  (forall i k, keys map !! i = Some k -> keys map1 !! i = Some k) ->
  key_kept curr_key k' ->
  forall i k, keys map !! i = Some k ->
    exists k2, <[Z.to_nat key_offset := k']> (keys map1) !! i = Some k2 /\
               key_kept k k2.
Proof.
  intros Hcurr Hlen Hsub Hkept i k Hk. apply Hsub in Hk.
  destruct (decide (i = Z.to_nat key_offset)) as [-> | Hne].
  - exists k'. split.
    + apply list_lookup_insert_eq. eapply lookup_lt_Some; eauto.
    + rewrite Hcurr in Hk. injection Hk as <-. exact Hkept.
  - exists k. split.
    + rewrite list_lookup_insert_ne by congruence. exact Hk.
    + apply key_kept_refl.
Qed.

Lemma with_key_sub (map : common_ngram_map) (key_offset match_pos : Z) :
  (length (keys map)
   <= length (keys (with_key map key_offset match_pos))
   <= length (keys map) + 1)%nat /\
  forall i k, keys map !! i = Some k ->
    keys (with_key map key_offset match_pos) !! i = Some k.
Proof.
  unfold with_key. destruct (key_offset =? size (keys map)); cbn.
  - rewrite length_app. cbn. split; [lia |].
    intros i k Hk. apply lookup_app_l_Some. exact Hk.
  - split; [lia | auto].
Qed.

Lemma draft_at_match_kept (map : common_ngram_map) (inp : llama_tokens)
    (key_tokens : llama_tokens) (match_pos : Z) (draft : llama_tokens)
    (map' : common_ngram_map) (draft' : llama_tokens) :
  draft_at_match map inp key_tokens match_pos draft = Some (map', draft') ->
  keys_kept map map' /\
  (length (keys map') <= length (keys map) + 1)%nat.
Proof.
  unfold draft_at_match. intros H.
  destruct (find_key _ _ _ _ _) as [key_offset |]; [| discriminate].
  fold (with_key map key_offset match_pos) in H.
  destruct (with_key_sub map key_offset match_pos) as [Hlen Hsub].
  set (map1 := with_key map key_offset match_pos) in *.
  destruct (keys map1 !! _) as [curr_key |] eqn:Hkey; [| discriminate].
  assert (Hhit : key_kept curr_key
            (set_key_num curr_key (count_up (key_num curr_key)))).
  { split; [reflexivity |]. split; [apply values_kept_refl |].
    unfold counter_ok. intros Hok. cbn. rewrite count_up_range by lia.
    unfold COMMON_NGRAM_MAX_VALUE_COUNT in *. lia. }
  assert (Hstore : forall k', key_kept curr_key k' ->
            keys_kept map (store_key map1 key_offset k') /\
            (length (keys (store_key map1 key_offset k'))
             <= length (keys map) + 1)%nat).
  { intros k' Hk'. unfold keys_kept, store_key. cbn [keys set_keys].
    rewrite !length_insert. split; [| lia]. split; [lia |].
    apply (store_key_kept map map1 key_offset curr_key k');
      (assumption || lia). }
  destruct (key_only map1).
  - repeat case_match; simplify_eq. apply (Hstore _ Hhit).
  - destruct (_ <? min_hits map1).
    + simplify_eq. apply (Hstore _ Hhit).
    + destruct (update_stats _ _ _ _ _ _) as [curr_key' |] eqn:Hstat;
        [| discriminate].
      pose proof (update_stats_frame _ _ _ _ _ _ _ Hstat) as (E1 & E2 & _).
      apply update_stats_kept in Hstat.
      apply draft_select_keys in H.
      assert (Hk' : key_kept curr_key curr_key').
      { eapply key_kept_trans; [exact Hhit |].
        split; [exact E1 |]. split; [exact Hstat |].
        rewrite E2. intros Hok. split; [lia | exact Hok]. }
      destruct (Hstore _ Hk') as [[Hl Hkeep] Hle].
      unfold keys_kept. rewrite H. auto.
Qed.

Lemma do_call_kept (map : common_ngram_map) (c : call)
    (map' : common_ngram_map) :
  do_call map c = Some map' ->
  keys_kept map map' /\ (length (keys map') <= length (keys map) + 1)%nat.
Proof.
  destruct c as [inp sampled | n_acc]; cbn; intros H.
  - destruct (common_ngram_map_draft _ _ _ _) as [[map1 draft'] |] eqn:Hd;
      [| discriminate].
    injection H as <-. unfold common_ngram_map_draft in Hd.
    assert (Hsame : forall map2, keys map2 = keys map ->
              keys_kept map map2 /\
              (length (keys map2) <= length (keys map) + 1)%nat)
      by (intros map2 E; split; [apply keys_kept_same; exact E
                                | rewrite E; lia]).
    destruct (_ <? _); [injection Hd as <- _; apply Hsame; reflexivity |].
    destruct (_ >? _); [injection Hd as <- _; apply Hsame; reflexivity |].
    destruct (make_key_tokens _ _ _) as [key_tokens |]; [| discriminate].
    destruct (search_back _ _ _ _) as [mp |]; [| discriminate].
    destruct (mp =? 0); [injection Hd as <- _; apply Hsame; reflexivity |].
    apply draft_at_match_kept in Hd. destruct Hd as [Hk Hl].
    split; [| exact Hl].
    eapply keys_kept_trans; [| exact Hk]. apply keys_kept_same. reflexivity.
  - unfold common_ngram_map_accept in H.
    destruct (negb _);
      [injection H as <-; split; [apply keys_kept_refl | lia] |].
    destruct (keys map !! _) as [curr_key |] eqn:Hkey; [| discriminate].
    destruct (values curr_key !! _) as [curr_value |] eqn:Hval;
      [| discriminate].
    injection H as <-. unfold keys_kept, store_key. cbn [keys set_keys].
    rewrite !length_insert. split; [| lia]. split; [lia |].
    apply (store_key_kept map map _ curr_key); auto.
    split; [reflexivity |].
    split; [| cbn; intros Hok; split; [lia | exact Hok]].
    cbn. apply (values_kept_insert _ _ curr_value); [exact Hval |].
    intros Hused Hok. cbn. split; [reflexivity |]. split; [lia | exact Hok].
Qed.

(** X6. The cache never evicts: across every sequence of draft and accept
    calls each key stays at its offset with its [key_idx], each value slot
    in use stays in use for the m-gram at its [value_idx], and the counts
    of hits and of occurrences, when within the cap, do not decrease and
    stay within the cap; each call adds at most one key. *)
Theorem nothing_is_evicted (calls : list call) :
  forall map map' : common_ngram_map,
    run map calls = Some map' ->
    keys_kept map map' /\
    (length (keys map') <= length (keys map) + length calls)%nat.
Proof.
  induction calls as [| c calls IH]; intros map map' Hrun; cbn in Hrun.
  - injection Hrun as <-. split; [apply keys_kept_refl | lia].
  - destruct (do_call map c) as [map1 |] eqn:Hc; [| discriminate].
    apply do_call_kept in Hc. destruct Hc as [Hk1 Hl1].
    destruct (IH map1 map' Hrun) as [Hk2 Hl2].
    split; [eapply keys_kept_trans; eauto | cbn; lia].
Qed.

Lemma nothing_is_evicted_witness :
  exists map',
    run ex_map_drafted ex_calls = Some map' /\ keys_kept ex_map_drafted map' /\
    (length (keys map') <= 1 + 3)%nat.
Proof.
  assert (Hr : exists map', run ex_map_drafted ex_calls = Some map')
    by (eexists; vm_compute; reflexivity).
  destruct Hr as [map' Hr]. exists map'. split; [exact Hr |].
  apply (nothing_is_evicted ex_calls ex_map_drafted map' Hr).
Defined.

(** ** Full slots *)

Lemma value_loop_full (inp : llama_tokens) (m vkey : Z)
    (vals : list common_ngram_map_value) (cnt : nat) :
  forall v : nat,
    (v + cnt <= length vals)%nat ->
    (forall u val, vals !! u = Some val ->
       value_idx val <> 0 /\
       ngram_eq inp vkey inp (value_idx val) m = Some false) ->
    value_loop inp m vkey vals v cnt = Some (vals, -1).
Proof.
  induction cnt as [| cnt IH]; intros v Hv Hall; cbn [value_loop];
    [reflexivity |].
  destruct (lookup_lt_is_Some_2 vals v) as [val Hval]; [lia |].
  rewrite Hval. destruct (Hall v val Hval) as [Hused Hdiff].
  destruct (Z.eqb_spec (value_idx val) 0); [contradiction |].
  rewrite Hdiff. apply IH; [lia | exact Hall].
Qed.

(** X7. When every slot of the key is in use and the m-gram that follows
    an occurrence of the key is none of theirs, the statistics step drops
    the occurrence: the key is left exactly as it was. *)
Theorem full_slots_drop_occurrence (inp key_tokens : llama_tokens)
    (n m i : Z) (curr_key : common_ngram_map_key) :
  ngram_eq inp i key_tokens 0 n = Some true ->
  length (values curr_key) = COMMON_NGRAM_MAX_VALUES ->
  (forall u val, values curr_key !! u = Some val ->
     value_idx val <> 0 /\
     ngram_eq inp (size_t (i + n)) inp (value_idx val) m = Some false) ->
  stat_step inp key_tokens n m i curr_key = Some curr_key.
Proof.
  intros Hkey Hfour Hall. unfold stat_step. rewrite Hkey. cbn [negb].
  rewrite value_loop_full; [| lia | exact Hall].
  cbn. rewrite set_values_same. reflexivity.
Qed.

Lemma full_slots_drop_occurrence_witness :
  stat_step ex_history_five [1] 1 1 9 ex_key_full = Some ex_key_full.
Proof.
  apply full_slots_drop_occurrence; [reflexivity | reflexivity |].
  intros [| [| [| [| u]]]] val Hval; cbn in Hval; simplify_eq;
    (split; [discriminate | reflexivity]).
Defined.

(** ** Accept overwrites *)

(** X8. The accept operation overwrites and does not merge: it leaves the
    record of the draft in place, and a second accept call takes the
    place of the first. *)
Theorem accept_overwrites (map map1 : common_ngram_map) (a b : Z) :
  common_ngram_map_accept map a = Some map1 ->
  last_draft_created map1 = last_draft_created map /\
  last_draft_key_idx map1 = last_draft_key_idx map /\
  last_draft_value_idx map1 = last_draft_value_idx map /\
  common_ngram_map_accept map1 b = common_ngram_map_accept map b.
Proof.
  unfold common_ngram_map_accept. intros H.
  destruct (last_draft_created map) eqn:Hc; cbn [negb] in *;
    [| injection H as <-; rewrite Hc; auto].
  destruct (keys map !! _) as [curr_key |] eqn:Hkey; [| discriminate].
  destruct (values curr_key !! _) as [curr_value |] eqn:Hval;
    [| discriminate].
  injection H as <-. unfold store_key.
  cbn [last_draft_created last_draft_key_idx last_draft_value_idx set_keys
       keys].
  rewrite Hc. cbn [negb].
  rewrite list_lookup_insert_eq by (eapply lookup_lt_Some; eauto).
  cbn [values set_values].
  rewrite list_lookup_insert_eq by (eapply lookup_lt_Some; eauto).
  rewrite !list_insert_insert_eq. auto.
Qed.

Lemma accept_overwrites_witness :
  last_draft_created ex_map_zero = last_draft_created ex_map_drafted /\
  last_draft_key_idx ex_map_zero = last_draft_key_idx ex_map_drafted /\
  last_draft_value_idx ex_map_zero = last_draft_value_idx ex_map_drafted /\
  common_ngram_map_accept ex_map_zero 1
  = common_ngram_map_accept ex_map_drafted 1.
Proof.
  apply (accept_overwrites ex_map_drafted ex_map_zero 0 1). reflexivity.
Defined.

(** ** What a draft of the cache is made of *)

Lemma draft_at_match_extends (map : common_ngram_map) (inp : llama_tokens)
    (key_tokens : llama_tokens) (match_pos : Z) (draft : llama_tokens)
    (map' : common_ngram_map) (draft' : llama_tokens) :
  0 <= size_key map -> 0 <= size_value map -> size inp < SIZE_MAX ->
  0 <= match_pos -> match_pos + size_key map + size_value map <= size inp ->
  draft_at_match map inp key_tokens match_pos draft = Some (map', draft') ->
  exists c, 0 <= c <= size_value map /\
            draft' = draft ++ window inp (match_pos + size_key map) c.
Proof.
  intros Hn Hm Hlen Hp Hb H.
  assert (Hnone : exists c, 0 <= c <= size_value map /\
            draft = draft ++ window inp (match_pos + size_key map) c).
  { exists 0. split; [lia |]. unfold window. cbn. rewrite app_nil_r.
    reflexivity. }
  unfold draft_at_match in H.
  destruct (find_key _ _ _ _ _) as [key_offset |]; [| discriminate].
  fold (with_key map key_offset match_pos) in H.
  set (map1 := with_key map key_offset match_pos) in *.
  destruct (keys map1 !! _) as [curr_key |]; [| discriminate].
  destruct (key_only map1).
  - destruct (values _ !! 0%nat) as [val0 |]; [| discriminate].
    destruct (copy_loop _ _ _ _ _) as [d |] eqn:Hcopy; [| discriminate].
    injection H as _ <-.
    apply draft_copy_window in Hcopy; try assumption.
    destruct Hcopy as (c & Hc & _ & ->). eauto.
  - destruct (_ <? min_hits map1); [injection H as _ <-; exact Hnone |].
    destruct (update_stats _ _ _ _ _ _) as [curr_key' |]; [| discriminate].
    unfold draft_select in H.
    destruct (max_loop _ _ _ _ _) as [[max_occur slot_max] |];
      [| discriminate].
    destruct (sum_loop _ _ _ _ _) as [sum_occur |]; [| discriminate].
    destruct (not_confident _ _); [injection H as _ <-; exact Hnone |].
    destruct (values curr_key' !! _) as [val |]; [| discriminate].
    cbn [size_key size_value store_key set_keys] in H.
    destruct (with_key_config map key_offset match_pos)
      as [(En & Em & _) _]. fold map1 in En, Em. rewrite En, Em in H.
    destruct (copy_loop _ _ _ _ _) as [d |] eqn:Hcopy; [| discriminate].
    injection H as _ <-.
    apply draft_copy_window in Hcopy; try assumption.
    destruct Hcopy as (c & Hc & _ & ->). eauto.
Qed.

(** X9. Whatever the draft call of the cache appends, in key-only mode as
    in complex mode, is the run of at most [size_value] tokens of the
    history that follows the latest occurrence of the key tokens among the
    positions 1 to [len - n - m - 1]: the selected value decides whether
    and how many tokens are drafted, the tokens themselves are those after
    the latest match. The tokens the draft held before stay in front. *)
Theorem cache_draft_follows_latest_match (map map' : common_ngram_map)
    (inp draft draft' : llama_tokens) (sampled : llama_token) :
  let n := size_key map in
  let m := size_value map in
  let key_tokens := simple_pattern inp n sampled in
  1 <= n -> 0 <= m -> size inp < SIZE_MAX ->
  common_ngram_map_draft map inp sampled draft = Some (map', draft') ->
  draft' = draft \/
  exists c mp,
    1 <= c <= m /\ 1 <= mp /\ mp + n + m < size inp /\
    latest_match inp key_tokens n (size inp - n - m - 1) mp /\
    draft' = draft ++ window inp (mp + n) c /\
    size draft' = size draft + c.
Proof.
  intros n m key_tokens Hn Hm Hlen Hd.
  destruct (Z.lt_ge_cases (size inp) (2 * n + m)) as [Hshort | Hg];
    [| destruct (Z.le_gt_cases
                   (size_t (idx_last_check map + check_rate map)) (size inp))
         as [Hthr | Hthr]].
  - unfold common_ngram_map_draft in Hd.
    cbn [size_key size_value set_last_draft] in Hd. fold n m in Hd.
    replace (size inp <? _) with true in Hd
      by (symmetry; apply Z.ltb_lt; exact Hshort).
    injection Hd as _ <-. left. reflexivity.
  - destruct (map_draft_run map inp sampled draft) as (mp & _ & Hlm & Hrun);
      try (fold n m; lia).
    fold n m key_tokens in Hlm, Hrun. rewrite Hrun in Hd.
    rewrite map_search_start in Hlm by lia. pose proof Hlm as (Hrange & _).
    destruct (Z.eqb_spec mp 0) as [Hz | Hnz];
      [injection Hd as _ <-; left; reflexivity |].
    apply draft_at_match_extends in Hd; cbn; try (fold n m; lia).
    destruct Hd as (c & Hc & ->). cbn in Hc |- *. fold n m in Hc |- *.
    destruct (Z.eq_dec c 0) as [-> | Hcz].
    + left. unfold window. cbn. rewrite app_nil_r. reflexivity.
    + right. exists c, mp. split; [lia |]. split; [lia |]. split; [lia |].
      split; [exact Hlm |]. split; [reflexivity |].
      rewrite size_app, window_length by lia. reflexivity.
  - unfold common_ngram_map_draft in Hd.
    cbn [size_key size_value idx_last_check check_rate set_last_draft] in Hd.
    destruct (_ <? _); [injection Hd as _ <-; left; reflexivity |].
    replace (_ >? size inp) with true in Hd
      by (symmetry; rewrite Z.gtb_ltb; apply Z.ltb_lt; lia).
    injection Hd as _ <-. left. reflexivity.
Qed.

Lemma cache_draft_follows_latest_match_witness :
  [2] = [] \/
  exists c mp,
    1 <= c <= 1 /\ 1 <= mp /\ mp + 1 + 1 < 5 /\
    latest_match [9; 1; 2; 3; 4] (simple_pattern [9; 1; 2; 3; 4] 1 1) 1
      (5 - 1 - 1 - 1) mp /\
    [2] = [] ++ window [9; 1; 2; 3; 4] (mp + 1) c /\
    size [2] = size (@nil Z) + c.
Proof.
  apply (cache_draft_follows_latest_match ex_map ex_map_drafted
           [9; 1; 2; 3; 4] [] [2] 1);
    try (cbn; lia); vm_compute; congruence.
Defined.

(** ** The first statistics of a key are exact *)

Lemma tally_nonneg (inp key_tokens : llama_tokens) (n m : Z)
    (c : llama_tokens) (upto : Z) : 0 <= tally inp key_tokens n m c upto.
Proof. unfold tally. lia. Qed.

Lemma tally_step (inp key_tokens : llama_tokens) (n m : Z)
    (c : llama_tokens) (i : Z) :
  0 <= i ->
  tally inp key_tokens n m c (i + 1)
  = tally inp key_tokens n m c i
    + (if decide (window inp i n = key_tokens /\ window inp (i + n) m = c)
       then 1 else 0).
Proof.
  intros Hi. unfold tally.
  replace (Z.to_nat (i + 1)) with (S (Z.to_nat i)) by lia.
  rewrite seq_S, filter_app, length_app. cbn [Nat.add].
  rewrite filter_cons, filter_nil. rewrite Z2Nat.id by lia.
  destruct (decide _); cbn [length]; lia.
Qed.

Lemma tally_zero (inp key_tokens : llama_tokens) (n m : Z)
    (c : llama_tokens) (upto : Z) :
  (forall j, 0 <= j < upto -> window inp j n = key_tokens ->
             window inp (j + n) m <> c) ->
  tally inp key_tokens n m c upto = 0.
Proof.
  intros Hnone. unfold tally.
  assert (Hnil : forall (l : list nat),
            (forall j, j ∈ l -> (Z.of_nat j < upto)) ->
            filter (fun j : nat =>
                      window inp (Z.of_nat j) n = key_tokens /\
                      window inp (Z.of_nat j + n) m = c) l = []).
  { induction l as [| j l IH]; intros Hl; [reflexivity |].
    rewrite filter_cons_False.
    - apply IH. intros j' Hj'. apply Hl. right. exact Hj'.
    - intros [Hk Hc]. apply (Hnone (Z.of_nat j)); try assumption.
      split; [lia |]. apply Hl. left. }
  rewrite Hnil; [reflexivity |].
  intros j Hj. apply list_elem_of_In, in_seq in Hj. lia.
Qed.

Section ExactCounts.

Variables (inp key_tokens : llama_tokens) (n m : Z).
Hypothesis Hn : 1 <= n.
Hypothesis Hm : 0 <= m.
Hypothesis Hlen : size inp < SIZE_MAX.
Hypothesis Hkey : size key_tokens = n.

(** The slot [val] is in use for another m-gram than [c]. *)
Let other (c : llama_tokens) (val : common_ngram_map_value) : Prop :=
  value_idx val <> 0 /\ c <> window inp (value_idx val) m.

(** The three ways the value loop ends. *)
Lemma value_loop_outcome (vkey : Z) (vals : list common_ngram_map_value)
    (cnt : nat) :
  forall v : nat,
    (v + cnt <= length vals)%nat ->
    0 <= vkey -> vkey + m <= size inp ->
    (forall u val, vals !! u = Some val -> value_idx val <> 0 ->
       0 <= value_idx val /\ value_idx val + m <= size inp) ->
    (exists u val,
       (v <= u < v + cnt)%nat /\ vals !! u = Some val /\
       value_idx val <> 0 /\
       window inp vkey m = window inp (value_idx val) m /\
       (forall w valw, (v <= w < u)%nat -> vals !! w = Some valw ->
          other (window inp vkey m) valw) /\
       value_loop inp m vkey vals v cnt = Some (vals, Z.of_nat u))
    \/
    (exists u val,
       (v <= u < v + cnt)%nat /\ vals !! u = Some val /\
       value_idx val = 0 /\
       (forall w valw, (v <= w < u)%nat -> vals !! w = Some valw ->
          other (window inp vkey m) valw) /\
       value_loop inp m vkey vals v cnt
       = Some (<[u := {| value_idx := vkey; value_num := 0;
                         n_accepted := m |}]> vals, Z.of_nat u))
    \/
    ((forall w valw, (v <= w < v + cnt)%nat -> vals !! w = Some valw ->
        other (window inp vkey m) valw) /\
     value_loop inp m vkey vals v cnt = Some (vals, -1)).
Proof.
  pose proof Hlen as Hlen'. unfold SIZE_MAX in Hlen'.
  induction cnt as [| cnt IH]; intros v Hv Hk Hkm Hin.
  - right. right. split; [intros; lia | reflexivity].
  - cbn [value_loop].
    destruct (lookup_lt_is_Some_2 vals v) as [val Hval]; [lia |].
    rewrite Hval.
    destruct (Z.eqb_spec (value_idx val) 0) as [Hfree | Hused].
    + right. left. exists v, val.
      split; [lia |]. split; [exact Hval |]. split; [exact Hfree |].
      split; [intros; lia | reflexivity].
    + destruct (Hin v val Hval Hused) as [Hpos Hend].
      destruct (ngram_eq_spec inp vkey inp (value_idx val) m)
        as [r [Hr Hiff]]; try lia.
      rewrite Hr. destruct r.
      * left. exists v, val.
        split; [lia |]. split; [exact Hval |]. split; [exact Hused |].
        split; [apply Hiff; reflexivity |].
        split; [intros; lia | reflexivity].
      * assert (Hother : other (window inp vkey m) val).
        { split; [exact Hused |]. intros E. apply Hiff in E. discriminate. }
        assert (Hext : forall u, (forall w valw, (S v <= w < u)%nat ->
                    vals !! w = Some valw ->
                    other (window inp vkey m) valw) ->
                  forall w valw, (v <= w < u)%nat ->
                    vals !! w = Some valw ->
                    other (window inp vkey m) valw).
        { intros u Hrest w valw Hw Hvalw.
          destruct (decide (w = v)) as [-> | Hne].
          - rewrite Hval in Hvalw. injection Hvalw as <-. exact Hother.
          - apply (Hrest w); [lia | exact Hvalw]. }
        destruct (IH (S v)) as
          [(u & valu & Hu & Hvalu & Husedu & Hsame & Hbefore & Hres)
          | [(u & valu & Hu & Hvalu & Hfreeu & Hbefore & Hres)
            | (Hall & Hres)]]; try assumption; try lia.
        -- left. exists u, valu. split; [lia |]. split; [exact Hvalu |].
           split; [exact Husedu |]. split; [exact Hsame |].
           split; [apply Hext; exact Hbefore | exact Hres].
        -- right. left. exists u, valu. split; [lia |].
           split; [exact Hvalu |]. split; [exact Hfreeu |].
           split; [apply Hext; exact Hbefore | exact Hres].
        -- right. right. split; [| exact Hres].
           apply Hext. intros w valw Hw. apply Hall. lia.
Qed.

Lemma window_all (l : llama_tokens) (len : Z) :
  size l = len -> window l 0 len = l.
Proof.
  intros <-. unfold window, size. cbn. rewrite Nat2Z.id.
  apply take_ge. lia.
Qed.

Variable i : Z.
Hypothesis Hi : 0 <= i.
Hypothesis Hend : i + n + m <= size inp.

Lemma tally_other (c : llama_tokens) :
  window inp i n <> key_tokens \/ window inp (i + n) m <> c ->
  tally inp key_tokens n m c (i + 1) = tally inp key_tokens n m c i.
Proof.
  intros H. rewrite tally_step by exact Hi.
  destruct (decide _) as [[H1 H2] | _]; [tauto | lia].
Qed.

Lemma tally_same (c : llama_tokens) :
  window inp i n = key_tokens -> window inp (i + n) m = c ->
  tally inp key_tokens n m c (i + 1) = tally inp key_tokens n m c i + 1.
Proof.
  intros H1 H2. rewrite tally_step by exact Hi.
  destruct (decide _) as [_ | H]; [lia | tauto].
Qed.

(** The key does not stand at [i]. *)
Lemma exact_skip (vals : list common_ngram_map_value) :
  window inp i n <> key_tokens ->
  slots_exact inp key_tokens n m i vals ->
  slots_exact inp key_tokens n m (i + 1) vals.
Proof.
  intros Hno (S1 & S2 & S3). split; [| split].
  - intros v val Hval Hused. destruct (S1 v val Hval Hused) as (B1 & B2 & E).
    rewrite tally_other by (left; exact Hno). auto.
  - exact S2.
  - intros Hfree j Hj Hk. apply S3; [exact Hfree | | exact Hk].
    destruct (Z.eq_dec j i) as [-> | Hne]; [contradiction | lia].
Qed.

(** No slot holds the m-gram after [i], and no slot is free. *)
Lemma exact_none (vals : list common_ngram_map_value) :
  slots_exact inp key_tokens n m i vals ->
  (forall w valw, vals !! w = Some valw ->
     other (window inp (i + n) m) valw) ->
  slots_exact inp key_tokens n m (i + 1) vals.
Proof.
  intros (S1 & S2 & S3) Hall. split; [| split].
  - intros v val Hval Hused. destruct (S1 v val Hval Hused) as (B1 & B2 & E).
    destruct (Hall v val Hval) as [_ Hdiff].
    rewrite tally_other by (right; exact Hdiff). auto.
  - exact S2.
  - intros (v & val & Hval & Hfree). destruct (Hall v val Hval) as [Hused _].
    contradiction.
Qed.

(** The slot [u] holds the m-gram after [i]. *)
Lemma exact_found (vals : list common_ngram_map_value) (u : nat)
    (val : common_ngram_map_value) :
  window inp i n = key_tokens ->
  slots_exact inp key_tokens n m i vals ->
  vals !! u = Some val -> value_idx val <> 0 ->
  window inp (i + n) m = window inp (value_idx val) m ->
  (forall w valw, (w < u)%nat -> vals !! w = Some valw ->
     other (window inp (i + n) m) valw) ->
  slots_exact inp key_tokens n m (i + 1)
    (<[u := set_value_num val (count_up (value_num val))]> vals).
Proof.
  intros Hk (S1 & S2 & S3) Hval Hused Hsame Hbefore.
  assert (Hold : forall v val',
            <[u := set_value_num val (count_up (value_num val))]> vals !! v
            = Some val' ->
            exists val0, vals !! v = Some val0 /\
                         value_idx val0 = value_idx val' /\
                         (v <> u -> val' = val0) /\
                         (v = u -> val0 = val /\
                            value_num val' = count_up (value_num val))).
  { intros v val' Hv. apply list_lookup_insert_Some in Hv.
    destruct Hv as [(-> & <- & _) | (Hne & Hv)].
    - exists val. cbn. split; [exact Hval |]. split; [reflexivity |].
      split; [congruence | auto].
    - exists val'. split; [exact Hv |]. split; [reflexivity |].
      split; [auto | congruence]. }
  split; [| split].
  - intros v val' Hv Husedv.
    destruct (Hold v val' Hv) as (val0 & Hv0 & Eidx & Hne & Heq).
    rewrite <- Eidx in Husedv |- *.
    destruct (S1 v val0 Hv0 Husedv) as (B1 & B2 & E).
    split; [exact B1 |]. split; [exact B2 |].
    destruct (decide (v = u)) as [-> | Hvu].
    + destruct (Heq eq_refl) as [-> ->].
      rewrite tally_same by (assumption || (symmetry; assumption)).
      rewrite E. pose proof (tally_nonneg inp key_tokens n m
                               (window inp (value_idx val) m) i).
      rewrite count_up_range by (unfold COMMON_NGRAM_MAX_VALUE_COUNT; lia).
      lia.
    + rewrite (Hne Hvu). rewrite tally_other; [exact E |]. right.
      destruct (Nat.lt_total v u) as [Hlt | [Heq' | Hgt]];
        [| contradiction |].
      * apply (Hbefore v val0 Hlt Hv0).
      * destruct (S2 u v val val0 Hgt Hval Hv0 Husedv) as [_ Hdiff].
        rewrite Hsame. exact Hdiff.
  - intros v w val1 val2 Hvw Hv Hw Husedw.
    destruct (Hold v val1 Hv) as (val10 & Hv0 & E1 & _).
    destruct (Hold w val2 Hw) as (val20 & Hw0 & E2 & _).
    rewrite <- E1, <- E2 in *.
    apply (S2 v w val10 val20 Hvw Hv0 Hw0 Husedw).
  - intros (v & valf & Hv & Hfree) j Hj Hkj.
    destruct (Hold v valf Hv) as (valf0 & Hv0 & Ef & _).
    assert (Hnew : forall v0 val0, vals !! v0 = Some val0 ->
              exists val', <[u := set_value_num val
                                   (count_up (value_num val))]> vals !! v0
                           = Some val' /\
                           value_idx val' = value_idx val0).
    { intros v0 val0 Hv00. destruct (decide (v0 = u)) as [-> | Hne].
      - eexists. split.
        + apply list_lookup_insert_eq. eapply lookup_lt_Some; eauto.
        + cbn. congruence.
      - exists val0. split; [| reflexivity].
        rewrite list_lookup_insert_ne by congruence. exact Hv00. }
    destruct (Z.eq_dec j i) as [-> | Hne].
    + destruct (Hnew u val Hval) as (val' & Hu' & Eu).
      exists u, val'. split; [exact Hu' |]. rewrite Eu.
      split; [exact Hused | symmetry; exact Hsame].
    + assert (Hfree0 : exists v val,
                vals !! v = Some val /\ value_idx val = 0)
        by (exists v, valf0; split; [exact Hv0 | congruence]).
      assert (Hj0 : 0 <= j < i) by lia.
      destruct (S3 Hfree0 j Hj0 Hkj) as (v1 & val1 & Hv1 & Hused1 & Hw1).
      destruct (Hnew v1 val1 Hv1) as (val' & Hv' & Ev).
      exists v1, val'. split; [exact Hv' |]. rewrite Ev. auto.
Qed.

(** The free slot [u] is claimed for the m-gram after [i]. *)
Lemma exact_claimed (vals : list common_ngram_map_value) (u : nat)
    (val : common_ngram_map_value) :
  window inp i n = key_tokens ->
  slots_exact inp key_tokens n m i vals ->
  vals !! u = Some val -> value_idx val = 0 ->
  (forall w valw, (w < u)%nat -> vals !! w = Some valw ->
     other (window inp (i + n) m) valw) ->
  slots_exact inp key_tokens n m (i + 1)
    (<[u := {| value_idx := i + n; value_num := 1; n_accepted := m |}]> vals).
Proof.
  intros Hk (S1 & S2 & S3) Hval Hfree Hbefore.
  set (new := {| value_idx := i + n; value_num := 1; n_accepted := m |}).
  assert (Hfree0 : exists v val, vals !! v = Some val /\ value_idx val = 0)
    by (exists u, val; auto).
  assert (Hlater : forall w valw, (u < w)%nat -> vals !! w = Some valw ->
            value_idx valw = 0).
  { intros w valw Huw Hw. destruct (Z.eq_dec (value_idx valw) 0) as [E | E];
      [exact E |].
    destruct (S2 u w val valw Huw Hval Hw E) as [Hused _]. contradiction. }
  assert (Hzero : tally inp key_tokens n m (window inp (i + n) m) i = 0).
  { apply tally_zero. intros j Hj Hkj Hc.
    destruct (S3 Hfree0 j Hj Hkj) as (v1 & val1 & Hv1 & Hused1 & Hw1).
    destruct (Nat.lt_total v1 u) as [Hlt | [-> | Hgt]].
    - destruct (Hbefore v1 val1 Hlt Hv1) as [_ Hdiff]. congruence.
    - congruence.
    - apply (Hlater v1 val1 Hgt) in Hv1. contradiction. }
  assert (Hold : forall v val', <[u := new]> vals !! v = Some val' ->
            (v = u /\ val' = new) \/ (v <> u /\ vals !! v = Some val')).
  { intros v val' Hv. apply list_lookup_insert_Some in Hv.
    destruct Hv as [(-> & <- & _) | (Hne & Hv)]; auto. }
  assert (Hnewu : <[u := new]> vals !! u = Some new)
    by (apply list_lookup_insert_eq; eapply lookup_lt_Some; eauto).
  split; [| split].
  - intros v val' Hv Husedv.
    destruct (Hold v val' Hv) as [[-> ->] | [Hne Hv0]].
    + cbn. split; [lia |]. split; [lia |].
      rewrite tally_same by (assumption || reflexivity).
      rewrite Hzero. unfold COMMON_NGRAM_MAX_VALUE_COUNT. lia.
    + destruct (S1 v val' Hv0 Husedv) as (B1 & B2 & E).
      split; [exact B1 |]. split; [exact B2 |].
      rewrite tally_other; [exact E |]. right.
      destruct (Nat.lt_total v u) as [Hlt | [Heq' | Hgt]];
        [| contradiction |].
      * apply (Hbefore v val' Hlt Hv0).
      * apply (Hlater v val' Hgt) in Hv0. contradiction.
  - intros v w val1 val2 Hvw Hv Hw Husedw.
    destruct (Hold w val2 Hw) as [[-> ->] | [Hnew Hw0]].
    + destruct (Hold v val1 Hv) as [[-> _] | [_ Hv0]]; [lia |].
      destruct (Hbefore v val1 Hvw Hv0) as [Hu1 Hd1].
      split; [exact Hu1 |]. cbn. congruence.
    + destruct (Hold v val1 Hv) as [[-> ->] | [_ Hv0]].
      * apply (Hlater w val2 Hvw) in Hw0. contradiction.
      * apply (S2 v w val1 val2 Hvw Hv0 Hw0 Husedw).
  - intros _ j Hj Hkj.
    destruct (Z.eq_dec j i) as [-> | Hne].
    + exists u, new. split; [exact Hnewu |]. cbn. split; [lia | reflexivity].
    + assert (Hj0 : 0 <= j < i) by lia.
      destruct (S3 Hfree0 j Hj0 Hkj) as (v1 & val1 & Hv1 & Hused1 & Hw1).
      exists v1, val1. split; [| auto].
      rewrite list_lookup_insert_ne; [exact Hv1 |].
      intros ->. rewrite Hval in Hv1. injection Hv1 as <-. contradiction.
Qed.

(** One step of the statistics keeps them exact. *)
Lemma stat_step_exact (k : common_ngram_map_key) :
  length (values k) = COMMON_NGRAM_MAX_VALUES ->
  slots_exact inp key_tokens n m i (values k) ->
  exists k',
    stat_step inp key_tokens n m i k = Some k' /\
    length (values k') = COMMON_NGRAM_MAX_VALUES /\
    slots_exact inp key_tokens n m (i + 1) (values k').
Proof.
  intros Hfour Hex. pose proof Hlen as Hlen'. unfold SIZE_MAX in Hlen'.
  unfold stat_step.
  destruct (ngram_eq_spec inp i key_tokens 0 n) as [r [Hr Hiff]]; try lia.
  rewrite (window_all key_tokens n Hkey) in Hiff.
  rewrite Hr. destruct r; cbn [negb].
  - assert (Hk : window inp i n = key_tokens) by (apply Hiff; reflexivity).
    rewrite size_t_small by lia.
    destruct (value_loop_outcome (i + n) (values k) COMMON_NGRAM_MAX_VALUES
                0%nat) as
      [(u & valu & Hu & Hvalu & Husedu & Hsame & Hbefore & Hres)
      | [(u & valu & Hu & Hvalu & Hfreeu & Hbefore & Hres)
        | (Hall & Hres)]]; try lia.
    { intros u val Hval Hused.
      destruct Hex as (S1 & _). destruct (S1 u val Hval Hused) as (B1 & B2 & _).
      auto. }
    + rewrite Hres. replace (0 <=? Z.of_nat u) with true
        by (symmetry; apply Z.leb_le; lia).
      rewrite Nat2Z.id, Hvalu. eexists. split; [reflexivity |]. cbn.
      rewrite length_insert. split; [exact Hfour |].
      apply exact_found; try assumption.
      intros w valw Hw. apply Hbefore. lia.
    + rewrite Hres. replace (0 <=? Z.of_nat u) with true
        by (symmetry; apply Z.leb_le; lia).
      rewrite Nat2Z.id.
      rewrite list_lookup_insert_eq by (eapply lookup_lt_Some; eauto).
      eexists. split; [reflexivity |]. cbn.
      rewrite list_insert_insert_eq, length_insert. split; [exact Hfour |].
      apply (exact_claimed (values k) u valu); try assumption.
      intros w valw Hw. apply Hbefore. lia.
    + rewrite Hres. cbn. eexists. split; [reflexivity |]. cbn.
      split; [exact Hfour |]. apply exact_none; [exact Hex |].
      intros w valw Hw. apply (Hall w valw); [| exact Hw].
      apply lookup_lt_Some in Hw. lia.
  - eexists. split; [reflexivity |]. split; [exact Hfour |].
    apply exact_skip; [| exact Hex].
    intros E. apply Hiff in E. discriminate.
Qed.

End ExactCounts.

Lemma stat_loop_exact (inp key_tokens : llama_tokens) (n m : Z) (cnt : nat) :
  1 <= n -> 0 <= m -> size inp < SIZE_MAX -> size key_tokens = n ->
  forall (i : Z) (k : common_ngram_map_key),
    0 <= i -> i + Z.of_nat cnt - 1 + n + m <= size inp ->
    length (values k) = COMMON_NGRAM_MAX_VALUES ->
    slots_exact inp key_tokens n m i (values k) ->
    exists k',
      stat_loop inp key_tokens n m i cnt k = Some k' /\
      key_idx k' = key_idx k /\ key_num k' = key_num k /\
      length (values k') = COMMON_NGRAM_MAX_VALUES /\
      slots_exact inp key_tokens n m (i + Z.of_nat cnt) (values k').
Proof.
  intros Hn Hm Hlen Hkey.
  induction cnt as [| cnt IH]; intros i k Hi Hend Hfour Hex.
  - exists k. cbn [stat_loop]. rewrite Z.add_0_r. auto.
  - cbn [stat_loop].
    destruct (stat_step_exact inp key_tokens n m Hn Hm Hlen Hkey i Hi)
      with (k := k) as (k1 & Hstep & Hfour1 & Hex1); try assumption; [lia |].
    rewrite Hstep. cbn.
    destruct (stat_step_frame _ _ _ _ _ _ _ Hstep) as (Hidx & Hnum & _).
    destruct (IH (i + 1) k1) as (k' & Hloop & Hidx' & Hnum' & Hfour' & Hex');
      try assumption; try lia.
    exists k'. split; [exact Hloop |].
    split; [congruence |]. split; [congruence |]. split; [exact Hfour' |].
    replace (i + Z.of_nat (S cnt)) with (i + 1 + Z.of_nat cnt) by lia.
    exact Hex'.
Qed.

(** X10. The first statistics of a key are exact. For a key whose
    statistics were never brought up ([stat_idx = 0], the four slots free,
    as [new_key] makes it), keys of [n >= 1] tokens and a match position
    whose key and m-gram lie inside the history, the refresh returns, sets
    [stat_idx] to the match position, keeps [key_idx] and [key_num], and
    leaves slots that are exact for the positions [0 .. match_pos]: a slot
    in use holds, capped at 16380, the number of those positions where the
    key stands followed by the slot's m-gram; the slots in use come first
    and hold pairwise different m-grams; and while a slot is free, every
    m-gram that follows the key at one of those positions has a slot. *)
Theorem first_statistics_exact (inp key_tokens : llama_tokens)
    (n m match_pos : Z) (k : common_ngram_map_key) :
  1 <= n -> 0 <= m -> size inp < SIZE_MAX -> size key_tokens = n ->
  0 <= match_pos -> match_pos + n + m <= size inp ->
  stat_idx k = 0 ->
  length (values k) = COMMON_NGRAM_MAX_VALUES ->
  Forall (fun val => value_idx val = 0) (values k) ->
  exists k',
    update_stats inp key_tokens n m match_pos k = Some k' /\
    stat_idx k' = match_pos /\
    key_idx k' = key_idx k /\ key_num k' = key_num k /\
    length (values k') = COMMON_NGRAM_MAX_VALUES /\
    slots_exact inp key_tokens n m (match_pos + 1) (values k').
Proof.
  intros Hn Hm Hlen Hkey Hpos Hend Hstat Hfour Hfree.
  assert (Hstart : slots_exact inp key_tokens n m 0 (values k)).
  { split; [| split].
    - intros v val Hv Hused.
      apply (Forall_lookup_1 _ _ _ _ Hfree) in Hv. contradiction.
    - intros v w val val' _ _ Hw Hused.
      apply (Forall_lookup_1 _ _ _ _ Hfree) in Hw. contradiction.
    - intros _ j Hj. lia. }
  unfold update_stats. rewrite Hstat.
  destruct (Z.eqb_spec match_pos SIZE_MAX) as [E | _]; [lia |].
  destruct (stat_loop_exact inp key_tokens n m
              (Z.to_nat (match_pos - 0 + 1)) Hn Hm Hlen Hkey 0 k)
    as (k' & Hloop & Hidx & Hnum & Hfour' & Hex); try assumption; try lia.
  rewrite Hloop. cbn. eexists. split; [reflexivity |]. cbn.
  split; [reflexivity |]. split; [exact Hidx |]. split; [exact Hnum |].
  split; [exact Hfour' |].
  replace (match_pos + 1) with (0 + Z.of_nat (Z.to_nat (match_pos - 0 + 1)))
    by lia.
  exact Hex.
Qed.

Lemma first_statistics_exact_witness :
  exists k',
    update_stats ex_history_grown [1] 1 1 5 (new_key 5 1) = Some k' /\
    stat_idx k' = 5 /\
    key_idx k' = key_idx (new_key 5 1) /\
    key_num k' = key_num (new_key 5 1) /\
    length (values k') = COMMON_NGRAM_MAX_VALUES /\
    slots_exact ex_history_grown [1] 1 1 (5 + 1) (values k').
Proof.
  apply (first_statistics_exact ex_history_grown [1] 1 1 5 (new_key 5 1));
    try (vm_compute; congruence); try lia; try reflexivity.
  repeat constructor.
Defined.

(** ** The printed values *)

Lemma string_app_assoc (a b c : string) : (a +:+ b) +:+ c = a +:+ (b +:+ c).
Proof.
  induction a as [| x a IH]; [reflexivity |].
  change (String x ((a +:+ b) +:+ c) = String x (a +:+ (b +:+ c))).
  f_equal. exact IH.
Qed.

Lemma string_app_nil_r (a : string) : a +:+ "" = a.
Proof.
  induction a as [| x a IH]; [reflexivity |].
  change (String x (a +:+ "") = String x a).
  f_equal. exact IH.
Qed.

Lemma text_from_later (l : llama_tokens) :
  text_from false l
  = match l with
    | [] => ""
    | _ => ", " +:+ String.concat ", " (map token_to_str l)
    end.
Proof.
  induction l as [| t l IH]; [reflexivity |].
  cbn [text_from]. rewrite IH. destruct l as [| t' l].
  - cbn [map String.concat]. rewrite string_app_nil_r. reflexivity.
  - reflexivity.
Qed.

Lemma text_from_first (l : llama_tokens) :
  text_from true l = String.concat ", " (map token_to_str l).
Proof.
  destruct l as [| t l]; [reflexivity |].
  cbn [text_from]. rewrite text_from_later. destruct l as [| t' l].
  - cbn. rewrite string_app_nil_r. reflexivity.
  - reflexivity.
Qed.

Lemma tokens_to_str_loop_spec (inp : llama_tokens) (start : Z) (cnt : nat) :
  forall (i : Z) (oss : string),
    0 <= start -> 0 <= i -> start + i + Z.of_nat cnt <= size inp ->
    size inp <= SIZE_MOD ->
    tokens_to_str_loop inp start i cnt oss
    = Some (oss +:+ text_from (i =? 0)
                      (window inp (start + i) (Z.of_nat cnt))).
Proof.
  induction cnt as [| cnt IH]; intros i oss Hs Hi Hb Hm.
  - unfold window. cbn. rewrite string_app_nil_r. reflexivity.
  - cbn [tokens_to_str_loop]. rewrite size_t_small by lia.
    rewrite tok_lookup by lia.
    destruct (lookup_lt_is_Some_2 inp (Z.to_nat (start + i))) as [x Hx];
      [unfold size in *; lia |].
    rewrite Hx. rewrite IH by lia.
    rewrite (window_step inp (start + i) cnt x) by (lia || exact Hx).
    replace (start + (i + 1)) with (start + i + 1) by lia.
    cbn [text_from].
    replace (i + 1 =? 0) with false by (symmetry; apply Z.eqb_neq; lia).
    destruct (Z.eqb_spec i 0) as [-> | Hne].
    + cbn [Z.ltb Z.compare]. rewrite !string_app_assoc. reflexivity.
    + replace (0 <? i) with true by (symmetry; apply Z.ltb_lt; lia).
      rewrite !string_app_assoc. reflexivity.
Qed.

Lemma tokens_to_str_loop_outside (inp : llama_tokens) (start : Z)
    (cnt : nat) :
  forall (i : Z) (oss : string),
    0 <= start -> 0 <= i -> (0 < cnt)%nat ->
    size inp < start + i + Z.of_nat cnt ->
    start + i + Z.of_nat cnt <= SIZE_MOD ->
    tokens_to_str_loop inp start i cnt oss = None.
Proof.
  induction cnt as [| cnt IH]; intros i oss Hs Hi Hc Hout Hm; [lia |].
  cbn [tokens_to_str_loop]. rewrite size_t_small by lia.
  destruct (tok inp (start + i)) as [x |] eqn:Hx; [| reflexivity].
  assert (Hin : 0 <= start + i < size inp)
    by (apply tok_is_Some; rewrite Hx; eauto).
  apply IH; lia.
Qed.

Lemma tokens_to_str_inside (inp : llama_tokens) (start length : Z) :
  0 <= start -> 0 <= length -> size inp < SIZE_MOD ->
  start + length <= size inp ->
  common_tokens_to_str inp start length
  = Some (tokens_text (window inp start length)).
Proof.
  intros Hs Hl Hm Hin. unfold common_tokens_to_str.
  rewrite (tokens_to_str_loop_spec inp start (Z.to_nat length) 0 "[")
    by lia.
  rewrite Z2Nat.id by lia. rewrite Z.add_0_r. cbn [Z.eqb].
  rewrite text_from_first. unfold tokens_text.
  rewrite !string_app_assoc. reflexivity.
Qed.

(** X11. The printed form of a part of the history. For a start and a
    length that are not negative and a history that a [size_t] can index,
    [common_tokens_to_str] returns the text [[v0, v1, ...]] of the [length]
    tokens from [start] when they lie inside the history, with the decimal
    form of every token and [", "] between two of them; for a length of
    zero it returns the two brackets wherever [start] lies; and when the
    length is positive and the part ends behind the history, a token is
    read outside the vector. *)
Theorem tokens_to_str_format (inp : llama_tokens) (start length : Z) :
  0 <= start -> 0 <= length -> size inp < SIZE_MOD ->
  (start + length <= size inp ->
   common_tokens_to_str inp start length
   = Some (tokens_text (window inp start length))) /\
  (length = 0 -> common_tokens_to_str inp start length = Some "[]") /\
  (0 < length -> size inp < start + length -> start + length <= SIZE_MOD ->
   common_tokens_to_str inp start length = None).
Proof.
  intros Hs Hl Hm. split; [| split].
  - intros Hin. apply tokens_to_str_inside; assumption.
  - intros ->. reflexivity.
  - intros Hpos Hout Hwrap. unfold common_tokens_to_str.
    rewrite (tokens_to_str_loop_outside inp start (Z.to_nat length) 0 "[")
      by lia.
    reflexivity.
Qed.

Lemma tokens_to_str_format_witness :
  (1 + 3 <= size ex_history_plain ->
   common_tokens_to_str ex_history_plain 1 3
   = Some (tokens_text (window ex_history_plain 1 3))) /\
  (3 = 0 -> common_tokens_to_str ex_history_plain 1 3 = Some "[]") /\
  (0 < 3 -> size ex_history_plain < 1 + 3 -> 1 + 3 <= SIZE_MOD ->
   common_tokens_to_str ex_history_plain 1 3 = None).
Proof.
  apply (tokens_to_str_format ex_history_plain 1 3);
    [lia | lia | vm_compute; reflexivity].
Defined.

Lemma log_values_spec (inp : llama_tokens) (m len : Z)
    (vals : list common_ngram_map_value) (cnt : nat) :
  0 <= m -> len <= size inp -> size inp < SIZE_MOD ->
  Forall (value_anchor_ok m len) vals ->
  forall (v : nat) (log : list (Z * string)),
    (v + cnt <= length vals)%nat ->
    exists log',
      log_values inp m vals v cnt log = Some log' /\
      forall e, e ∈ log' <->
        e ∈ log \/
        exists (u : nat) (val : common_ngram_map_value),
          (v <= u < v + cnt)%nat /\ vals !! u = Some val /\
          value_idx val <> 0 /\
          e = (Z.of_nat u, tokens_text (window inp (value_idx val) m)).
Proof.
  intros Hm Hlen Hmod Hok.
  induction cnt as [| cnt IH]; intros v log Hv.
  - exists log. split; [reflexivity |]. intros e. split; [auto |].
    intros [He | (u & val & Hu & _)]; [exact He | lia].
  - cbn [log_values].
    destruct (lookup_lt_is_Some_2 vals v) as [val Hval]; [lia |].
    rewrite Hval.
    destruct (Z.eqb_spec (value_idx val) 0) as [Hfree | Hused]; cbn [negb].
    + destruct (IH (S v) log) as (log' & Hrun & Hmem); [lia |].
      exists log'. split; [exact Hrun |]. intros e. rewrite Hmem.
      split; (intros [He | (u & valu & Hu & Hvalu & Husedu & ->)];
              [left; exact He |]).
      * right. exists u, valu. split; [lia | auto].
      * right. exists u, valu. split; [| auto].
        destruct (decide (u = v)) as [-> | Hne]; [| lia].
        rewrite Hval in Hvalu. injection Hvalu as <-. contradiction.
    + destruct (Forall_lookup_1 _ _ _ _ Hok Hval) as [Hpos Hin].
      specialize (Hin Hused).
      rewrite tokens_to_str_inside by (assumption || lia).
      destruct (IH (S v) (log ++ [(Z.of_nat v,
                  tokens_text (window inp (value_idx val) m))]))
        as (log' & Hrun & Hmem); [lia |].
      exists log'. split; [exact Hrun |]. intros e. rewrite Hmem.
      rewrite elem_of_app, list_elem_of_singleton.
      split.
      * intros [[He | ->] | (u & valu & Hu & Hvalu & Husedu & ->)].
        -- left. exact He.
        -- right. exists v, val. split; [lia | auto].
        -- right. exists u, valu. split; [lia | auto].
      * intros [He | (u & valu & Hu & Hvalu & Husedu & ->)].
        -- left. left. exact He.
        -- destruct (decide (u = v)) as [-> | Hne].
           ++ rewrite Hval in Hvalu. injection Hvalu as <-. left. right.
              reflexivity.
           ++ right. exists u, valu. split; [lia | auto].
Qed.

(** The log loop writes the lines of the slots in use it runs over. *)
Lemma log_values_lines (inp : llama_tokens) (m len : Z)
    (vals : list common_ngram_map_value) (cnt : nat) :
  0 <= m -> len <= size inp -> size inp < SIZE_MOD ->
  Forall (value_anchor_ok m len) vals ->
  forall (v : nat) (log : list (Z * string)),
    (v + cnt <= length vals)%nat ->
    log_values inp m vals v cnt log
    = Some (log ++
            ((fun p : nat * common_ngram_map_value =>
                (Z.of_nat p.1, tokens_text (window inp (value_idx p.2) m)))
             <$> filter (fun p : nat * common_ngram_map_value =>
                           value_idx p.2 <> 0)
                        (zip (seq v cnt) (take cnt (drop v vals))))).
Proof.
  intros Hm Hlen Hmod Hok.
  induction cnt as [| cnt IH]; intros v log Hv.
  - cbn. rewrite app_nil_r. reflexivity.
  - cbn [log_values].
    destruct (lookup_lt_is_Some_2 vals v) as [val Hval]; [lia |].
    rewrite Hval. rewrite (drop_S _ _ _ Hval). cbn [take seq zip zip_with].
    rewrite filter_cons. cbn [snd fst].
    destruct (Z.eqb_spec (value_idx val) 0) as [Hfree | Hused]; cbn [negb].
    + destruct (decide (value_idx val <> 0)) as [Hne | _]; [contradiction |].
      apply IH. lia.
    + destruct (decide (value_idx val <> 0)) as [_ | Hne];
        [| contradiction].
      destruct (Forall_lookup_1 _ _ _ _ Hok Hval) as [Hpos Hin].
      specialize (Hin Hused).
      rewrite tokens_to_str_inside by (assumption || lia).
      rewrite IH by lia. rewrite fmap_cons. cbn [fst snd].
      rewrite <- app_assoc. reflexivity.
Qed.

(** X12. The reads of the value log are inside the history. For a key
    whose anchors lie inside the history (a key of the map or the key just
    created), keys of [n >= 1] tokens and a match position whose key and
    m-gram lie inside the history, the statistics are brought up and the
    log of the values that follows returns: no token is read outside the
    history. The log is the list [used_lines]: exactly one line for every
    slot in use, in the order of the slots, and no other line, each with
    the slot and the text of the [m] tokens at its anchor. *)
Theorem logged_values_inside_history (inp key_tokens : llama_tokens)
    (n m match_pos : Z) (k : common_ngram_map_key) :
  1 <= n -> 0 <= m -> size inp < SIZE_MAX -> size key_tokens = n ->
  0 <= match_pos -> match_pos + n + m <= size inp ->
  key_anchor_ok n m (size inp) k ->
  exists k' log,
    update_stats inp key_tokens n m match_pos k = Some k' /\
    log_values inp m (values k') 0 COMMON_NGRAM_MAX_VALUES [] = Some log /\
    log = used_lines inp m (values k') /\
    forall (v : Z) (s : string),
      (v, s) ∈ log <->
      exists val, 0 <= v /\ values k' !! Z.to_nat v = Some val /\
                  value_idx val <> 0 /\
                  s = tokens_text (window inp (value_idx val) m).
Proof.
  intros Hn Hm Hlen Hkey Hpos Hend Hok.
  destruct (update_stats_total inp key_tokens n m Hn Hm Hlen Hkey
              match_pos k Hpos Hend Hok) as [k' Hup].
  pose proof (update_stats_anchors inp key_tokens n m (size inp) Hn Hm Hlen
                match_pos k k' Hup Hpos Hend Hok)
    as (_ & _ & _ & Hfour & Hvals).
  destruct (log_values_spec inp m (size inp) (values k')
              COMMON_NGRAM_MAX_VALUES Hm) with (v := 0%nat) (log := @nil (Z * string))
    as (log & Hlog & Hmem);
    try assumption; try lia.
  { unfold SIZE_MAX in Hlen. lia. }
  exists k', log. split; [exact Hup |]. split; [exact Hlog |].
  split.
  { rewrite (log_values_lines inp m (size inp) (values k')
               COMMON_NGRAM_MAX_VALUES Hm) in Hlog;
      try assumption; try lia.
    - injection Hlog as <-. unfold used_lines. rewrite Hfour.
      rewrite drop_0, take_ge by lia. reflexivity.
    - unfold SIZE_MAX in Hlen. lia. }
  intros v s. rewrite Hmem. split.
  - intros [He | (u & val & Hu & Hval & Hused & E)].
    + apply elem_of_nil in He. contradiction.
    + injection E as -> ->. exists val. rewrite Nat2Z.id.
      split; [lia | auto].
  - intros (val & Hv & Hval & Hused & ->). right.
    exists (Z.to_nat v), val.
    split; [apply lookup_lt_Some in Hval; lia |].
    split; [exact Hval |]. split; [exact Hused |].
    rewrite Z2Nat.id by lia. reflexivity.
Qed.

Lemma logged_values_inside_history_witness :
  exists k' log,
    update_stats ex_history_grown [1] 1 1 5 (new_key 5 1) = Some k' /\
    log_values ex_history_grown 1 (values k') 0 COMMON_NGRAM_MAX_VALUES []
    = Some log /\
    log = used_lines ex_history_grown 1 (values k') /\
    forall (v : Z) (s : string),
      (v, s) ∈ log <->
      exists val, 0 <= v /\ values k' !! Z.to_nat v = Some val /\
                  value_idx val <> 0 /\
                  s = tokens_text (window ex_history_grown (value_idx val) 1).
Proof.
  apply (logged_values_inside_history ex_history_grown [1] 1 1 5
           (new_key 5 1));
    try lia; try reflexivity; try (vm_compute; congruence).
  unfold key_anchor_ok. cbn.
  repeat split; try lia; try (vm_compute; congruence).
  repeat constructor; cbn; try lia; try congruence.
Defined.

(** ** One key for an n-gram *)

Lemma tok_prefix (inp hist : llama_tokens) (i x : Z) :
  inp `prefix_of` hist -> tok inp i = Some x -> tok hist i = Some x.
Proof.
  unfold tok. intros Hpre H. destruct (i <? 0); [discriminate |].
  eapply prefix_lookup_Some; eauto.
Qed.

Lemma window_prefix (inp hist : llama_tokens) (j len : Z) :
  inp `prefix_of` hist -> 0 <= j -> 0 <= len -> j + len <= size inp ->
  window inp j len = window hist j len.
Proof.
  intros [rest ->] Hj Hl Hb. unfold window, size in *.
  rewrite drop_app_le by lia. rewrite take_app_le; [reflexivity |].
  rewrite length_drop. lia.
Qed.

(** A comparison that returns on a part of the history returns the same
    on the whole of it. *)
Lemma ngram_eq_from_prefix (inp hist : llama_tokens) (ia : Z)
    (b : llama_tokens) (ib : Z) (cnt : nat) :
  inp `prefix_of` hist ->
  forall (k : Z) (r : bool),
    ngram_eq_from inp ia b ib k cnt = Some r ->
    ngram_eq_from hist ia b ib k cnt = Some r.
Proof.
  intros Hpre. induction cnt as [| cnt IH]; intros k r H; cbn in H |- *;
    [exact H |].
  destruct (tok inp _) as [x |] eqn:Hx; [| discriminate].
  rewrite (tok_prefix inp hist _ x Hpre Hx).
  destruct (tok b _) as [y |]; [| discriminate].
  destruct (negb _); [exact H | apply IH; exact H].
Qed.

Lemma ngram_eq_prefix (inp hist key_tokens : llama_tokens) (i n : Z)
    (r : bool) :
  inp `prefix_of` hist -> 0 <= i -> 0 <= n -> i + n <= size hist ->
  size hist <= SIZE_MOD -> size key_tokens = n ->
  ngram_eq inp i key_tokens 0 n = Some r ->
  (r = true <-> window hist i n = key_tokens).
Proof.
  intros Hpre Hi Hn Hb Hm Hkey H. unfold ngram_eq in H.
  apply (ngram_eq_from_prefix inp hist _ _ _ _ Hpre) in H.
  destruct (ngram_eq_spec hist i key_tokens 0 n) as [r' [Hr Hiff]];
    try lia.
  unfold ngram_eq in Hr. rewrite H in Hr. injection Hr as <-.
  rewrite (window_all key_tokens n Hkey) in Hiff. exact Hiff.
Qed.

(** When no key is found, every key was compared and differs. *)
Lemma find_key_fresh (inp key_tokens : llama_tokens) (n : Z)
    (ks : list common_ngram_map_key) :
  forall i : Z,
    find_key inp key_tokens n ks i = Some (i + size ks) ->
    Forall (fun k => ngram_eq inp (key_idx k) key_tokens 0 n = Some false)
           ks.
Proof.
  induction ks as [| k ks IH]; intros i H; [constructor |].
  cbn [find_key] in H. unfold size in H. cbn [length] in H.
  destruct (ngram_eq _ _ _ _ _) as [[|] |] eqn:E; [| | discriminate].
  - injection H as H. lia.
  - constructor; [exact E |]. apply (IH (i + 1)).
    rewrite H. f_equal. unfold size. lia.
Qed.

Lemma key_ngrams_same (hist : llama_tokens) (map map' : common_ngram_map) :
  size_key map' = size_key map ->
  key_idx <$> keys map' = key_idx <$> keys map ->
  key_ngrams hist map' = key_ngrams hist map.
Proof.
  intros En E. unfold key_ngrams. rewrite En.
  change (fun k => window hist (key_idx k) (size_key map))
    with ((fun i => window hist i (size_key map)) ∘ key_idx).
  rewrite !list_fmap_compose. rewrite E. reflexivity.
Qed.

Lemma store_key_idxs (map : common_ngram_map) (key_offset : Z)
    (k k' : common_ngram_map_key) :
  keys map !! Z.to_nat key_offset = Some k -> key_idx k' = key_idx k ->
  key_idx <$> keys (store_key map key_offset k') = key_idx <$> keys map.
Proof.
  intros Hk E. unfold store_key. cbn [keys set_keys].
  rewrite list_fmap_insert. apply list_insert_id.
  rewrite list_lookup_fmap, Hk. cbn. congruence.
Qed.

(** After a match the call keeps the positions of the keys it works on. *)
Lemma draft_at_match_idxs (map : common_ngram_map) (inp : llama_tokens)
    (key_tokens : llama_tokens) (match_pos key_offset : Z)
    (draft : llama_tokens) (map' : common_ngram_map)
    (draft' : llama_tokens) :
  find_key inp key_tokens (size_key map) (keys map) 0 = Some key_offset ->
  draft_at_match map inp key_tokens match_pos draft = Some (map', draft') ->
  key_idx <$> keys map'
  = key_idx <$> keys (with_key map key_offset match_pos).
Proof.
  intros Hfind H. unfold draft_at_match in H. rewrite Hfind in H.
  fold (with_key map key_offset match_pos) in H.
  set (map1 := with_key map key_offset match_pos) in *.
  destruct (keys map1 !! _) as [curr_key |] eqn:Hkey; [| discriminate].
  destruct (key_only map1).
  - repeat case_match; simplify_eq. cbn [keys set_last_draft].
    apply (store_key_idxs map1 key_offset curr_key); [exact Hkey |].
    reflexivity.
  - destruct (_ <? min_hits map1).
    + simplify_eq.
      apply (store_key_idxs map1 key_offset curr_key); [exact Hkey |].
      reflexivity.
    + destruct (update_stats _ _ _ _ _ _) as [curr_key' |] eqn:Hstat;
        [| discriminate].
      apply update_stats_frame in Hstat. destruct Hstat as (Eidx & _).
      apply draft_select_keys in H. rewrite H.
      apply (store_key_idxs map1 key_offset curr_key); [exact Hkey |].
      exact Eidx.
Qed.

(** A draft call on a part of the history keeps the n-grams of the keys
    different from each other. *)
Lemma draft_distinct (hist : llama_tokens) (map : common_ngram_map)
    (inp : llama_tokens) (sampled : llama_token) (draft : llama_tokens)
    (map' : common_ngram_map) (draft' : llama_tokens) :
  inp `prefix_of` hist ->
  1 <= size_key map -> 0 <= size_value map -> size hist < SIZE_MAX ->
  anchors_ok map (size hist) ->
  common_ngram_map_draft map inp sampled draft = Some (map', draft') ->
  NoDup (key_ngrams hist map) -> NoDup (key_ngrams hist map').
Proof.
  intros Hpre Hn Hm Hlen Hok Hd Hnd.
  pose proof (prefix_length _ _ Hpre) as Hle.
  pose proof Hlen as Hlen'. unfold SIZE_MAX in Hlen'.
  assert (Hsame : forall map2, size_key map2 = size_key map ->
            keys map2 = keys map -> NoDup (key_ngrams hist map2)).
  { intros map2 En E. rewrite (key_ngrams_same hist map map2 En);
      [exact Hnd | rewrite E; reflexivity]. }
  destruct (Z.lt_ge_cases (size inp) (2 * size_key map + size_value map))
    as [Hshort | Hguard].
  { unfold common_ngram_map_draft in Hd.
    cbn [size_key size_value set_last_draft] in Hd.
    replace (size inp <? _) with true in Hd
      by (symmetry; apply Z.ltb_lt; exact Hshort).
    injection Hd as <- _. apply Hsame; reflexivity. }
  destruct (Z.lt_ge_cases (size inp)
              (size_t (idx_last_check map + check_rate map)))
    as [Hthr | Hthr].
  { unfold common_ngram_map_draft in Hd.
    cbn [size_key size_value set_last_draft idx_last_check check_rate]
      in Hd.
    replace (size inp <? _) with false in Hd
      by (symmetry; apply Z.ltb_ge; exact Hguard).
    replace (_ >? size inp) with true in Hd
      by (symmetry; rewrite Z.gtb_ltb; apply Z.ltb_lt; exact Hthr).
    injection Hd as <- _. apply Hsame; reflexivity. }
  destruct (map_draft_run map inp sampled draft) as (mp & Hs & Hlm & Hrun);
    try (unfold size in *; lia).
  rewrite Hrun in Hd. clear Hrun Hs.
  destruct (Z.eqb_spec mp 0) as [Hz | Hnz].
  { injection Hd as <- _. apply Hsame; reflexivity. }
  destruct Hlm as (Hrange & Hocc & _). specialize (Hocc Hnz).
  rewrite map_search_start in Hrange by (unfold size in *; lia).
  set (key_tokens := simple_pattern inp (size_key map) sampled) in *.
  assert (Hks : size key_tokens = size_key map).
  { unfold key_tokens. rewrite simple_pattern_size by lia. lia. }
  unfold occurs_at in Hocc. rewrite (window_all key_tokens _ Hks) in Hocc.
  set (map0 := map_checked map (size inp)) in *.
  destruct (find_key inp key_tokens (size_key map0) (keys map0) 0)
    as [key_offset |] eqn:Hfind;
    [| unfold draft_at_match in Hd; rewrite Hfind in Hd; discriminate].
  pose proof (draft_at_match_config _ _ _ _ _ _ _ Hd) as (En & _).
  pose proof (draft_at_match_idxs _ _ _ _ _ _ _ _ Hfind Hd) as Eidx.
  rewrite (key_ngrams_same hist (with_key map0 key_offset mp) map');
    [| destruct (with_key_config map0 key_offset mp) as [(E1 & _) _];
       congruence
     | exact Eidx].
  unfold with_key.
  destruct (Z.eqb_spec key_offset (size (keys map0))) as [Hnew | Hold];
    [| apply Hsame; reflexivity].
  subst key_offset. apply (find_key_fresh inp key_tokens _ _ 0) in Hfind.
  unfold key_ngrams. cbn [keys set_keys size_key map0 map_checked
    set_idx_last_check set_last_draft] in Hfind |- *.
  rewrite fmap_app. apply NoDup_app. split; [exact Hnd |]. split.
  - intros c Hc Hc'. apply list_elem_of_singleton in Hc'. subst c.
    apply list_elem_of_fmap in Hc. destruct Hc as (k & Ek & Hk).
    pose proof (proj1 (Forall_forall _ _) Hfind k Hk) as Hcmp.
    pose proof (proj1 (Forall_forall _ _) Hok k Hk) as (Hk1 & Hk2 & _).
    cbn [key_idx new_key] in Ek.
    rewrite <- (window_prefix inp hist mp (size_key map) Hpre) in Ek
      by (unfold size in *; lia).
    rewrite Hocc in Ek.
    apply (ngram_eq_prefix inp hist key_tokens (key_idx k) (size_key map)
             false Hpre) in Hcmp; try lia.
    symmetry in Ek. apply Hcmp in Ek. discriminate.
  - cbn. apply NoDup_singleton.
Qed.

Lemma accept_ngrams (hist : llama_tokens) (map : common_ngram_map)
    (n_acc : Z) (map' : common_ngram_map) :
  common_ngram_map_accept map n_acc = Some map' ->
  key_ngrams hist map' = key_ngrams hist map.
Proof.
  intros H. destruct (accept_sizes _ _ _ H) as [En _].
  apply key_ngrams_same; [exact En |].
  unfold common_ngram_map_accept in H.
  destruct (negb _); [injection H as <-; reflexivity |].
  destruct (keys map !! _) as [curr_key |] eqn:Hkey; [| discriminate].
  destruct (values curr_key !! _) as [curr_value |]; [| discriminate].
  injection H as <-.
  apply (store_key_idxs map _ curr_key); [exact Hkey | reflexivity].
Qed.

(** X13. One key for an n-gram. In a cache with keys of [n >= 1] tokens
    whose state was made, from a cache without keys, by draft calls on
    parts of one history (each a prefix of it) and by accept calls, the
    keys stand for pairwise different n-grams of the history: a draft call
    adds a key only for an n-gram that no key has, so the hits and the
    statistics of an n-gram are never split between two keys. *)
Theorem one_key_per_ngram (hist : llama_tokens) (map : common_ngram_map) :
  recorded_on hist map ->
  1 <= size_key map -> 0 <= size_value map -> size hist < SIZE_MAX ->
  NoDup (key_ngrams hist map).
Proof.
  induction 1 as [map Hnew | map map' inp sampled draft draft' Hrec IH Hpre Hd
                  | map map' n_acc Hrec IH Ha]; intros Hn Hm Hlen.
  - unfold key_ngrams. rewrite Hnew. constructor.
  - destruct (draft_sizes _ _ _ _ _ _ Hd) as [En Em]. rewrite En in Hn.
    rewrite Em in Hm.
    apply (draft_distinct hist map inp sampled draft map' draft');
      try assumption.
    + apply recorded_on_anchors; assumption.
    + apply IH; assumption.
  - destruct (accept_sizes _ _ _ Ha) as [En Em]. rewrite En in Hn.
    rewrite Em in Hm.
    rewrite (accept_ngrams hist map n_acc map' Ha). apply IH; assumption.
Qed.

Lemma one_key_per_ngram_witness :
  exists (map' : common_ngram_map) (draft' : llama_tokens),
    common_ngram_map_draft ex_map_drafted [9; 1; 2; 3; 4; 1] 2 []
    = Some (map', draft') /\
    length (keys map') = 2%nat /\
    NoDup (key_ngrams ex_history_grown map').
Proof.
  assert (Hd : exists map' draft',
            common_ngram_map_draft ex_map_drafted [9; 1; 2; 3; 4; 1] 2 []
            = Some (map', draft') /\ length (keys map') = 2%nat /\
            size_key map' = 1 /\ size_value map' = 1)
    by (eexists; eexists; vm_compute; repeat split; reflexivity).
  destruct Hd as (map' & draft' & Hd & Hlen & En & Em).
  exists map', draft'. split; [exact Hd |]. split; [exact Hlen |].
  apply (one_key_per_ngram ex_history_grown map').
  - apply (recorded_draft ex_history_grown ex_map_drafted map'
             [9; 1; 2; 3; 4; 1] 2 [] draft').
    + apply (recorded_draft ex_history_grown ex_map ex_map_drafted
               [9; 1; 2; 3; 4] 1 [] [2]).
      * apply recorded_new. reflexivity.
      * exists [1; 2; 3; 4]. reflexivity.
      * vm_compute. reflexivity.
    + exists [2; 3; 4]. reflexivity.
    + exact Hd.
  - lia.
  - lia.
  - vm_compute. reflexivity.
Defined.

(** ** The statistics mark of a key *)

(** The two ways a draft call of the cache goes: it leaves the keys
    alone, or it found the latest match of the key tokens and works on
    the key that [find_key] returns. *)
Lemma draft_cases (map : common_ngram_map) (inp : llama_tokens)
    (sampled : llama_token) (draft : llama_tokens)
    (map' : common_ngram_map) (draft' : llama_tokens) :
  let n := size_key map in
  let m := size_value map in
  let key_tokens := simple_pattern inp n sampled in
  1 <= n -> 0 <= m -> size inp < SIZE_MAX ->
  common_ngram_map_draft map inp sampled draft = Some (map', draft') ->
  keys map' = keys map \/
  exists mp key_offset,
    1 <= mp /\ mp + n + m + 1 <= size inp /\
    latest_match inp key_tokens n (size inp - n - m - 1) mp /\
    window inp mp n = key_tokens /\ size key_tokens = n /\
    find_key inp key_tokens n (keys map) 0 = Some key_offset /\
    draft_at_match (map_checked map (size inp)) inp key_tokens mp draft
    = Some (map', draft').
Proof.
  intros n m key_tokens Hn Hm Hlen Hd.
  destruct (Z.lt_ge_cases (size inp) (2 * n + m)) as [Hshort | Hguard].
  { left. unfold common_ngram_map_draft in Hd.
    cbn [size_key size_value set_last_draft] in Hd. fold n m in Hd.
    replace (size inp <? _) with true in Hd
      by (symmetry; apply Z.ltb_lt; exact Hshort).
    injection Hd as <- _. reflexivity. }
  destruct (Z.lt_ge_cases (size inp)
              (size_t (idx_last_check map + check_rate map)))
    as [Hthr | Hthr].
  { left. unfold common_ngram_map_draft in Hd.
    cbn [size_key size_value set_last_draft idx_last_check check_rate]
      in Hd. fold n m in Hd.
    replace (size inp <? _) with false in Hd
      by (symmetry; apply Z.ltb_ge; exact Hguard).
    replace (_ >? size inp) with true in Hd
      by (symmetry; rewrite Z.gtb_ltb; apply Z.ltb_lt; exact Hthr).
    injection Hd as <- _. reflexivity. }
  destruct (map_draft_run map inp sampled draft) as (mp & Hs & Hlm & Hrun);
    try (fold n m; lia).
  fold n m key_tokens in Hlm, Hrun. rewrite Hrun in Hd. clear Hrun Hs.
  destruct (Z.eqb_spec mp 0) as [Hz | Hnz].
  { left. injection Hd as <- _. reflexivity. }
  right. rewrite map_search_start in Hlm by lia.
  pose proof Hlm as (Hrange & Hocc & _). specialize (Hocc Hnz).
  assert (Hks : size key_tokens = n).
  { unfold key_tokens. rewrite simple_pattern_size by lia. lia. }
  unfold occurs_at in Hocc. rewrite (window_all key_tokens _ Hks) in Hocc.
  destruct (find_key inp key_tokens n (keys map) 0) as [key_offset |]
    eqn:Hfind.
  - exists mp, key_offset.
    repeat (split; [first [lia | assumption | reflexivity] |]).
    exact Hd.
  - unfold draft_at_match in Hd.
    cbn [size_key keys map_checked set_idx_last_check set_last_draft]
      in Hd. fold n in Hd. rewrite Hfind in Hd. discriminate.
Qed.

(** After a match the call rewrites one key, the one [find_key] returned,
    and leaves its mark or moves it to the match. *)
Lemma draft_at_match_mark (map : common_ngram_map) (inp : llama_tokens)
    (key_tokens : llama_tokens) (match_pos key_offset : Z)
    (draft : llama_tokens) (map' : common_ngram_map)
    (draft' : llama_tokens) :
  find_key inp key_tokens (size_key map) (keys map) 0 = Some key_offset ->
  draft_at_match map inp key_tokens match_pos draft = Some (map', draft') ->
  exists k1 k',
    keys (with_key map key_offset match_pos) !! Z.to_nat key_offset
    = Some k1 /\
    keys map'
    = <[Z.to_nat key_offset := k']>
        (keys (with_key map key_offset match_pos)) /\
    key_idx k' = key_idx k1 /\
    (stat_idx k' = stat_idx k1 \/ stat_idx k' = match_pos).
Proof.
  intros Hfind H. unfold draft_at_match in H. rewrite Hfind in H.
  fold (with_key map key_offset match_pos) in H.
  set (map1 := with_key map key_offset match_pos) in *.
  destruct (keys map1 !! _) as [curr_key |] eqn:Hkey; [| discriminate].
  exists curr_key.
  destruct (key_only map1).
  - repeat case_match; simplify_eq. eexists.
    split; [reflexivity |]. split; [reflexivity |]. cbn. auto.
  - destruct (_ <? min_hits map1).
    + simplify_eq. eexists.
      split; [reflexivity |]. split; [reflexivity |]. cbn. auto.
    + destruct (update_stats _ _ _ _ _ _) as [curr_key' |] eqn:Hstat;
        [| discriminate].
      apply update_stats_frame in Hstat. destruct Hstat as (Eidx & _ & Est).
      apply draft_select_keys in H. exists curr_key'.
      split; [reflexivity |]. split; [exact H |]. cbn in Eidx. auto.
Qed.

Lemma mark_ok_mono (hist : llama_tokens) (n m len len' : Z)
    (k : common_ngram_map_key) :
  len <= len' -> mark_ok hist n m len k -> mark_ok hist n m len' k.
Proof.
  unfold mark_ok. intros Hle [Hz | (H1 & H2 & H3)]; [auto | right].
  split; [lia | split; [lia | exact H3]].
Qed.

(** A draft call of the decoding loop keeps the marks in order and moves
    none of them back. *)
Lemma draft_marks (hist : llama_tokens) (map : common_ngram_map)
    (inp : llama_tokens) (sampled : llama_token) (draft : llama_tokens)
    (map' : common_ngram_map) (draft' : llama_tokens) (len : Z) :
  inp `prefix_of` hist ->
  1 <= size_key map -> 0 <= size_value map -> size hist < SIZE_MAX ->
  len <= size inp ->
  anchors_ok map len -> marks_ok hist map len ->
  common_ngram_map_draft map inp sampled draft = Some (map', draft') ->
  marks_ok hist map' (size inp) /\ marks_kept map map'.
Proof.
  intros Hpre Hn Hm Hlen Hle Hok Hmarks Hd.
  pose proof (prefix_length _ _ Hpre) as Hpl.
  pose proof Hlen as Hlen'. unfold SIZE_MAX in Hlen'.
  assert (Hsz : size inp <= size hist) by (unfold size; lia).
  destruct (draft_sizes _ _ _ _ _ _ Hd) as [En Em].
  assert (Hmono : Forall (mark_ok hist (size_key map) (size_value map)
                            (size inp)) (keys map)).
  { eapply Forall_impl; [exact Hmarks |]. intros k.
    apply mark_ok_mono. exact Hle. }
  destruct (draft_cases map inp sampled draft map' draft')
    as [Esame | (mp & key_offset & Hmp & Hend & Hlm & Hocc & Hks & Hfind
                 & Hat)];
    try assumption; [lia | |].
  { split.
    - unfold marks_ok. rewrite En, Em, Esame. exact Hmono.
    - intros i k Hk. exists k. rewrite Esame. split; [exact Hk | lia]. }
  set (n := size_key map) in *. set (m := size_value map) in *.
  set (key_tokens := simple_pattern inp n sampled) in *.
  set (map0 := map_checked map (size inp)) in *.
  destruct (draft_at_match_mark map0 inp key_tokens mp key_offset draft
              map' draft' Hfind Hat)
    as (k1 & k' & Hk1 & Ekeys & Eidx & Est).
  pose proof (find_key_range _ _ _ _ _ _ Hfind) as Hrange.
  assert (Hwin : window hist mp n = key_tokens).
  { rewrite <- (window_prefix inp hist mp n Hpre) by lia. exact Hocc. }
  (* the key worked on stands for the key tokens *)
  assert (Hk1_ngram : window hist (key_idx k1) n = key_tokens).
  { unfold with_key in Hk1.
    destruct (Z.eqb_spec key_offset (size (keys map0))) as [Hnew | Hold].
    - cbn [keys set_keys] in Hk1. subst key_offset.
      rewrite lookup_app_r in Hk1 by (unfold size; lia).
      replace (Z.to_nat (size (keys map0)) - length (keys map0))%nat
        with 0%nat in Hk1 by (unfold size; lia).
      injection Hk1 as <-. exact Hwin.
    - destruct (find_key_found _ _ _ _ _ _ Hfind) as (k & Hk & Ecmp);
        [cbn in Hold |- *; lia |].
      rewrite Z.sub_0_r in Hk.
      assert (k = k1) by (cbn in Hk1; congruence). subst k.
      pose proof (Forall_lookup_1 _ _ _ _ Hok Hk) as (Ha1 & Ha2 & _).
      fold n in Ha2.
      apply (ngram_eq_prefix inp hist key_tokens (key_idx k1) n true Hpre)
        in Ecmp; try lia.
      apply Ecmp. reflexivity. }
  (* the keys before the rewrite have their marks in order *)
  assert (Hmarks1 : Forall (mark_ok hist n m (size inp))
                      (keys (with_key map0 key_offset mp))).
  { unfold with_key. destruct (key_offset =? size (keys map0));
      [| exact Hmono].
    cbn [keys set_keys]. apply Forall_app_2; [exact Hmono |].
    constructor; [| constructor]. left. reflexivity. }
  assert (Hmark' : mark_ok hist n m (size inp) k').
  { destruct Est as [Est | Est].
    - pose proof (Forall_lookup_1 _ _ _ _ Hmarks1 Hk1) as Hm1.
      unfold mark_ok in *. rewrite Est, Eidx. exact Hm1.
    - right. rewrite Est, Eidx. split; [lia |]. split; [lia |].
      congruence. }
  split.
  - unfold marks_ok. rewrite En, Em, Ekeys. fold n m.
    apply Forall_insert; assumption.
  - intros i k Hk.
    assert (Hk1' : keys (with_key map0 key_offset mp) !! i = Some k).
    { unfold with_key. destruct (key_offset =? size (keys map0));
        [| exact Hk].
      cbn [keys set_keys]. apply lookup_app_l_Some. exact Hk. }
    rewrite Ekeys.
    destruct (decide (i = Z.to_nat key_offset)) as [-> | Hne].
    + exists k'. split.
      * apply list_lookup_insert_eq. eapply lookup_lt_Some; eauto.
      * assert (k = k1) by congruence. subst k.
        destruct Est as [-> | ->]; [lia |].
        pose proof (Forall_lookup_1 _ _ _ _ Hmarks Hk) as Hm1.
        fold n m in Hm1.
        destruct Hm1 as [-> | (Hs1 & Hs2 & Hs3)]; [lia |].
        destruct Hlm as (_ & _ & Hlatest).
        destruct (Hlatest (stat_idx k1)) as [_ Hle']; [lia | | exact Hle'].
        unfold occurs_at. rewrite (window_all key_tokens n Hks).
        rewrite (window_prefix inp hist (stat_idx k1) n Hpre) by lia.
        congruence.
    + exists k. split; [| lia].
      rewrite list_lookup_insert_ne by congruence. exact Hk1'.
Qed.

Lemma accept_marks (hist : llama_tokens) (map : common_ngram_map)
    (n_acc : Z) (map' : common_ngram_map) (len : Z) :
  common_ngram_map_accept map n_acc = Some map' ->
  marks_ok hist map len ->
  marks_ok hist map' len /\ marks_kept map map'.
Proof.
  intros H Hmarks. destruct (accept_sizes _ _ _ H) as [En Em].
  unfold marks_ok. rewrite En, Em.
  unfold common_ngram_map_accept in H.
  destruct (negb _).
  { injection H as <-. split; [exact Hmarks |].
    intros i k Hk. exists k. split; [exact Hk | lia]. }
  destruct (keys map !! _) as [curr_key |] eqn:Hkey; [| discriminate].
  destruct (values curr_key !! _) as [curr_value |]; [| discriminate].
  injection H as <-. cbn [keys store_key set_keys]. split.
  - apply Forall_insert; [exact Hmarks |].
    exact (Forall_lookup_1 _ _ _ _ Hmarks Hkey).
  - intros i k Hk. cbn [keys store_key set_keys].
    destruct (decide (i = Z.to_nat (last_draft_key_idx map))) as [-> | Hne].
    + eexists. split.
      * apply list_lookup_insert_eq. eapply lookup_lt_Some; eauto.
      * cbn. assert (k = curr_key) by congruence. subst k. lia.
    + exists k. split; [| lia].
      rewrite list_lookup_insert_ne by congruence. exact Hk.
Qed.

Lemma marks_kept_trans (a b c : common_ngram_map) :
  marks_kept a b -> marks_kept b c -> marks_kept a c.
Proof.
  intros Hab Hbc i k Hk. destruct (Hab i k Hk) as (kb & Hb & Lb).
  destruct (Hbc i kb Hb) as (kc & Hc & Lc). exists kc. split; [exact Hc | lia].
Qed.

Lemma run_marks (hist : llama_tokens) (calls : list call) :
  size hist < SIZE_MAX ->
  forall (map : common_ngram_map) (len : Z),
    cache_ok map len -> marks_ok hist map len ->
    grows len calls -> calls_on hist calls ->
    exists map' len',
      run map calls = Some map' /\ cache_ok map' len' /\
      marks_ok hist map' len' /\ marks_kept map map'.
Proof.
  intros Hlen. induction calls as [| c calls IH];
    intros map len Hok Hmarks Hgrow Hon.
  - exists map, len. split; [reflexivity |]. split; [exact Hok |].
    split; [exact Hmarks |]. intros i k Hk. exists k. split; [exact Hk | lia].
  - cbn [run]. apply Forall_cons in Hon. destruct Hon as [Hc Hon].
    destruct (do_call_total map len c Hok) as (map1 & Hcall & Hok1).
    { destruct c; cbn in Hgrow |- *; tauto. }
    rewrite Hcall.
    assert (Hstep : marks_ok hist map1 (call_length len c) /\
                    marks_kept map map1).
    { destruct Hok as (Hn & Hm & Hanch & _).
      destruct c as [inp sampled | n_acc]; cbn in Hcall, Hgrow |- *.
      - destruct (common_ngram_map_draft _ _ _ _) as [[map2 draft'] |]
          eqn:Hd; [| discriminate].
        injection Hcall as <-.
        apply (draft_marks hist map inp sampled [] map2 draft' len);
          (assumption || lia).
      - apply (accept_marks hist map n_acc map1 len); assumption. }
    destruct Hstep as [Hmarks1 Hkept1].
    destruct (IH map1 (call_length len c) Hok1 Hmarks1)
      as (map' & len' & Hrun & Hok' & Hmarks' & Hkept'); [| exact Hon |].
    { destruct c; cbn in Hgrow |- *; tauto. }
    exists map', len'. split; [exact Hrun |]. split; [exact Hok' |].
    split; [exact Hmarks' |]. eapply marks_kept_trans; eauto.
Qed.

(** X14. The statistics mark of a key. In a decoding loop, draft calls on
    histories that are parts of one history from its start and do not
    shrink, with accept calls between them, from a cache in order whose
    marks are in order (a new cache is): every call returns; the
    [stat_idx] of a key never moves back; and it is 0, the statistics
    never brought up, or a position of at least 1 where the n-gram of the
    key stands. So every refresh of a key runs over at least one position,
    the match position of an earlier call included. *)
Theorem stat_idx_marks_occurrence (hist : llama_tokens) (calls : list call)
    (map : common_ngram_map) (len : Z) :
  size hist < SIZE_MAX ->
  cache_ok map len -> marks_ok hist map len ->
  grows len calls -> calls_on hist calls ->
  exists map',
    run map calls = Some map' /\ marks_kept map map' /\
    Forall (fun k =>
              stat_idx k = 0 \/
              (1 <= stat_idx k /\
               window hist (stat_idx k) (size_key map')
               = window hist (key_idx k) (size_key map')))
           (keys map').
Proof.
  intros Hlen Hok Hmarks Hgrow Hon.
  destruct (run_marks hist calls Hlen map len Hok Hmarks Hgrow Hon)
    as (map' & len' & Hrun & _ & Hmarks' & Hkept).
  exists map'. split; [exact Hrun |]. split; [exact Hkept |].
  eapply Forall_impl; [exact Hmarks' |].
  intros k [Hz | (H1 & _ & H3)]; [left; exact Hz | right; auto].
Qed.

Lemma stat_idx_marks_occurrence_witness :
  exists map',
    run ex_map ex_calls_new = Some map' /\ marks_kept ex_map map' /\
    Forall (fun k =>
              stat_idx k = 0 \/
              (1 <= stat_idx k /\
               window ex_history_grown (stat_idx k) (size_key map')
               = window ex_history_grown (key_idx k) (size_key map')))
           (keys map').
Proof.
  apply (stat_idx_marks_occurrence ex_history_grown ex_calls_new ex_map 0).
  - vm_compute. reflexivity.
  - unfold cache_ok, anchors_ok. cbn.
    split; [lia |]. split; [lia |]. split; [constructor | discriminate].
  - unfold marks_ok. cbn. constructor.
  - cbn. unfold SIZE_MAX, SIZE_MOD, size. cbn. lia.
  - unfold calls_on, ex_calls_new. repeat constructor.
    + exists [1; 2; 3; 4]. reflexivity.
    + exists []. reflexivity.
Defined.
